(** * VyOS web UI: configuration engine

    A shallow embedding of the configuration core of the backend
    ([backend/app/core/config_parser.py], [vyos_syntax.py],
    [config_validator.py], [config_rollback.py]) and of the restore path
    of [backend/app/services/config_backup.py], with the properties the
    specification states about them.

    Conventions.
    - A Python [str] is a [string]; its characters are the code points
      0..255.
    - A Python [dict] that is iterated (node children, nested
      dictionaries, the validator's rule set) is an association list
      in insertion order with the dictionary's assignment
      [d[k] = v] written out as [dict_set]; a [dict] that is only
      looked up (a flattened tree, the three maps of a diff) is a
      [gmap].
    - [None] is the [None] of an [option]. *)

From Stdlib Require Import ZArith Lia Ascii String List Permutation Sorted.
From stdpp Require Import base option list gmap strings.

Set Warnings "-register-all".

Local Open Scope string_scope.
Local Open Scope list_scope.

(* ===================================================================== *)
(** * Part I: the program                                                *)
(* ===================================================================== *)

(** ** Python dictionaries in insertion order *)

Module PyDict.
Section Dict.
Context {A : Type}.

(** [d.get(k)] *)
Fixpoint dict_get (k : string) (d : list (string * A)) : option A :=
  match d with
  | [] => None
  | (k', v) :: rest => if String.eqb k k' then Some v else dict_get k rest
  end.

(** [k in d] *)
Definition dict_contains (k : string) (d : list (string * A)) : bool :=
  match dict_get k d with Some _ => true | None => false end.

(** [d[k] = v]: an existing key keeps its position, a new key goes last. *)
Fixpoint dict_set (k : string) (v : A) (d : list (string * A)) : list (string * A) :=
  match d with
  | [] => [(k, v)]
  | (k', v') :: rest =>
      if String.eqb k k' then (k', v) :: rest else (k', v') :: dict_set k v rest
  end.

(** [del d[k]] for a key that is present; nothing changes otherwise. *)
Fixpoint dict_del (k : string) (d : list (string * A)) : list (string * A) :=
  match d with
  | [] => []
  | (k', v') :: rest =>
      if String.eqb k k' then rest else (k', v') :: dict_del k rest
  end.

Definition dict_keys (d : list (string * A)) : list string := map fst d.

(** The keys of a dictionary are pairwise different. *)
Fixpoint keys_unique (d : list (string * A)) : bool :=
  match d with
  | [] => true
  | (k, _) :: rest => negb (dict_contains k rest) && keys_unique rest
  end.
End Dict.
End PyDict.
Import PyDict.

(** ** config_parser.py: the configuration tree *)

Module ConfigParser.
Section Tree.
Context {V : Type}.

(** [class ConfigNode]; [value = None] is [None]. *)
Inductive ConfigNode : Type := mkNode {
  path : list string;
  value : option V;
  children : list (string * ConfigNode);
  deleted : bool;
  comment : option string
}.

(** [ConfigNode(path=p)] with the dataclass defaults. *)
Definition new_node (p : list string) : ConfigNode :=
  mkNode p None [] false None.

Definition with_children (n : ConfigNode) (cs : list (string * ConfigNode)) : ConfigNode :=
  mkNode (path n) (value n) cs (deleted n) (comment n).

Definition with_deleted (n : ConfigNode) (d : bool) : ConfigNode :=
  mkNode (path n) (value n) (children n) d (comment n).

Definition with_comment (n : ConfigNode) (c : option string) : ConfigNode :=
  mkNode (path n) (value n) (children n) (deleted n) c.

(** [get_child] on the path parts it is given *)
Fixpoint get_child (node : ConfigNode) (path_parts : list string) : option ConfigNode :=
  match path_parts with
  | [] => Some node
  | first :: rest =>
      match dict_get first (children node) with
      | None => None
      | Some c => get_child c rest
      end
  end.

(** [add_child(name)]: the node after the call.  The value and the
    other fields of the node are not touched. *)
Definition add_child (node : ConfigNode) (name : string) : ConfigNode :=
  if dict_contains name (children node) then node
  else with_children node (dict_set name (new_node (path node ++ [name])) (children node)).

(** [child = node.add_child(name); f(child)]: the node after the child
    returned by [add_child] was mutated by [f]. *)
Definition on_child (node : ConfigNode) (name : string)
    (f : ConfigNode -> ConfigNode) : ConfigNode :=
  let node' := add_child node name in
  match dict_get name (children node') with
  | Some c => with_children node' (dict_set name (f c) (children node'))
  | None => node'
  end.

(** [set_value(value)] *)
Definition set_value (node : ConfigNode) (v : option V) : ConfigNode :=
  mkNode (path node) v [] (deleted node) (comment node).

(** The body of [_flatten(node, prefix)], threading [result]. *)
Fixpoint _flatten (node : ConfigNode) (prefix : string)
    (result : gmap string V) : gmap string V :=
  let fix loop (cs : list (string * ConfigNode)) (result : gmap string V) :=
    match cs with
    | [] => result
    | (name, child) :: rest =>
        let full_path := if String.eqb prefix "" then name else prefix +:+ name in
        let result' :=
          match value child with
          | Some v => <[full_path := v]> result
          | None =>
              match children child with
              | [] => result
              | _ :: _ => _flatten child (full_path +:+ ".") result
              end
          end in
        loop rest result'
    end in
  match node with
  | mkNode _ _ cs _ _ => loop cs result
  end.

(** [flatten()] *)
Definition flatten (node : ConfigNode) : gmap string V := _flatten node "" ∅.

(** A nested dictionary: what [to_dict] returns and [from_dict] reads. *)
Inductive pyval : Type :=
| PNone
| PScalar (v : V)
| PDict (items : list (string * pyval)).

(** [to_dict()] *)
Fixpoint to_dict (node : ConfigNode) : list (string * pyval) :=
  let fix loop (cs : list (string * ConfigNode)) (result : list (string * pyval)) :=
    match cs with
    | [] => result
    | (name, child) :: rest =>
        if deleted child then loop rest result
        else
          match value child with
          | Some v => loop rest (dict_set name (PScalar v) result)
          | None =>
              match children child with
              | [] => loop rest result
              | _ :: _ => loop rest (dict_set name (PDict (to_dict child)) result)
              end
          end
    end in
  match node with
  | mkNode _ _ cs _ _ => loop cs []
  end.

(** [_populate(child, value)] for one entry of the dictionary, after
    [child = node.add_child(key)]: a nested dictionary is descended
    into, anything else is stored with [set_value]. *)
Fixpoint _populate_entry (child : ConfigNode) (v : pyval) : ConfigNode :=
  match v with
  | PDict items =>
      (fix loop (node : ConfigNode) (data : list (string * pyval)) : ConfigNode :=
         match data with
         | [] => node
         | (key, v') :: rest =>
             loop (on_child node key (fun c => _populate_entry c v')) rest
         end) child items
  | PScalar x => set_value child (Some x)
  | PNone => set_value child None
  end.

(** [_populate(node, data)] *)
Definition _populate (node : ConfigNode) (data : list (string * pyval)) : ConfigNode :=
  _populate_entry node (PDict data).

(** [from_dict(data)] *)
Definition from_dict (data : list (string * pyval)) : ConfigNode :=
  _populate (new_node []) data.

(** [class ConfigDiff] *)
Record ConfigDiff : Type := mkDiff {
  added : gmap string V;
  removed : gmap string V;
  modified : gmap string (V * V)
}.

(** [is_empty()] *)
Definition is_empty (d : ConfigDiff) : bool :=
  bool_decide (added d = ∅) && bool_decide (removed d = ∅) && bool_decide (modified d = ∅).
End Tree.
Arguments ConfigNode : clear implicits.
Arguments pyval : clear implicits.
Arguments ConfigDiff : clear implicits.
End ConfigParser.
Import ConfigParser.

(** ** Python strings *)

Module PyStr.
(** [c.isspace()], which is also the class [\s] of [re], on the code
    points below 256: TAB..CR, FS..US, SPACE, NEL and NBSP. *)
Definition isspace (c : ascii) : bool :=
  let n := N_of_ascii c in
  (((9 <=? n) && (n <=? 13)) || ((28 <=? n) && (n <=? 32))
   || (n =? 133) || (n =? 160))%N.

Definition newline : ascii := ascii_of_N 10.
Definition space : ascii := ascii_of_N 32.

(** [s.lstrip()] *)
Fixpoint lstrip (s : string) : string :=
  match s with
  | "" => ""
  | String c s' => if isspace c then lstrip s' else s
  end.

(** [s.rstrip()] *)
Fixpoint rstrip (s : string) : string :=
  match s with
  | "" => ""
  | String c s' =>
      match rstrip s' with
      | "" => if isspace c then "" else String c ""
      | r => String c r
      end
  end.

(** [s.strip()] *)
Definition strip (s : string) : string := lstrip (rstrip s).

(** [s.rstrip(ch)] for a one-character argument. *)
Fixpoint rstrip_char (ch : ascii) (s : string) : string :=
  match s with
  | "" => ""
  | String c s' =>
      match rstrip_char ch s' with
      | "" => if Ascii.eqb c ch then "" else String c ""
      | r => String c r
      end
  end.

(** [s.startswith(p)] *)
Fixpoint startswith (s p : string) : bool :=
  match p, s with
  | "", _ => true
  | String a p', String b s' => Ascii.eqb a b && startswith s' p'
  | String _ _, "" => false
  end.

(** [s.split(sep)] for a one-character separator: never empty,
    [''.split('.') == ['']]. *)
Fixpoint split_on (sep : ascii) (s : string) : list string :=
  match s with
  | "" => [""]
  | String c s' =>
      if Ascii.eqb c sep then "" :: split_on sep s'
      else match split_on sep s' with
           | w :: ws => String c w :: ws
           | [] => [String c ""]
           end
  end.

(** [s.split()]: the maximal runs of characters that are not
    whitespace. *)
Fixpoint split_ws (s : string) : list string :=
  match s with
  | "" => []
  | String c s' =>
      if isspace c then split_ws s'
      else match s' with
           | "" => [String c ""]
           | String c' _ =>
               if isspace c' then String c "" :: split_ws s'
               else match split_ws s' with
                    | w :: ws => String c w :: ws
                    | [] => [String c ""]
                    end
           end
  end.

(** [s.rsplit(sep, 1)] for a one-character separator: [None] when
    [sep] does not occur (the list has one part), else the text
    before and after its last occurrence. *)
Fixpoint rsplit1 (sep : ascii) (s : string) : option (string * string) :=
  match s with
  | "" => None
  | String c s' =>
      match rsplit1 sep s' with
      | Some (a, b) => Some (String c a, b)
      | None => if Ascii.eqb c sep then Some ("", s') else None
      end
  end.

Fixpoint str_take (n : nat) (s : string) : string :=
  match n, s with
  | S n', String c s' => String c (str_take n' s')
  | _, _ => ""
  end.

Fixpoint str_drop (n : nat) (s : string) : string :=
  match n, s with
  | S n', String _ s' => str_drop n' s'
  | _, _ => s
  end.
End PyStr.
Import PyStr.

(** ** The regular expressions of the parser

    Every pattern of [vyos_syntax.py] is a sequence of literals and of
    repetitions of a one-character class, anchored at the start by
    [match].  [rmatch] is the backtracking search of [re] on such a
    sequence: a greedy repetition tries the longest run first, a lazy
    one the shortest, and the first alternative under which the rest of
    the pattern matches is taken.  The result lists the captured
    groups. *)

Module Regex.
Inductive item : Type :=
| Lit (ignorecase : bool) (w : string)
| Rep (cls : ascii -> bool) (lo : nat) (greedy capture : bool)
| Eos.

(** [\s] *)
Definition cls_space : ascii -> bool := isspace.
(** [.] without DOTALL *)
Definition cls_dot (c : ascii) : bool := negb (Ascii.eqb c newline).
(** [[^ ]] *)
Definition cls_not_blank (c : ascii) : bool := negb (Ascii.eqb c space).

(** Case folding of IGNORECASE on the code points below 256, for a
    pattern made of ASCII letters. *)
Definition lower (c : ascii) : ascii :=
  let n := N_of_ascii c in
  if ((65 <=? n) && (n <=? 90))%N then ascii_of_N (n + 32) else c.

Definition char_eq (ignorecase : bool) (a b : ascii) : bool :=
  if ignorecase then Ascii.eqb (lower a) (lower b) else Ascii.eqb a b.

(** The text after the literal [w], when the text starts with it. *)
Fixpoint skip_literal (ignorecase : bool) (w s : string) : option string :=
  match w, s with
  | "", _ => Some s
  | String a w', String b s' =>
      if char_eq ignorecase a b then skip_literal ignorecase w' s' else None
  | String _ _, "" => None
  end.

Fixpoint run_length (cls : ascii -> bool) (s : string) : nat :=
  match s with
  | String c s' => if cls c then S (run_length cls s') else 0
  | "" => 0
  end.

(** [$]: the end of the text, or just before a final newline. *)
Definition at_end (s : string) : bool :=
  match s with
  | "" => true
  | String c "" => Ascii.eqb c newline
  | _ => false
  end.

(** The first length at which [attempt] succeeds, from [k] down to
    [lo] (a greedy repetition) or from [k] up, [fuel] lengths (a lazy
    one). *)
Fixpoint first_down (attempt : nat -> option (list string)) (lo k : nat)
    : option (list string) :=
  if Nat.ltb k lo then None
  else match attempt k with
       | Some gs => Some gs
       | None => match k with 0 => None | S k' => first_down attempt lo k' end
       end.

Fixpoint first_up (attempt : nat -> option (list string)) (fuel k : nat)
    : option (list string) :=
  match fuel with
  | 0 => None
  | S fuel' =>
      match attempt k with
      | Some gs => Some gs
      | None => first_up attempt fuel' (S k)
      end
  end.

Fixpoint rmatch (items : list item) (s : string) : option (list string) :=
  match items with
  | [] => Some []
  | Lit ic w :: rest =>
      match skip_literal ic w s with
      | Some s' => rmatch rest s'
      | None => None
      end
  | Eos :: rest => if at_end s then rmatch rest s else None
  | Rep cls lo greedy capture :: rest =>
      let hi := run_length cls s in
      let attempt (k : nat) : option (list string) :=
        match rmatch rest (str_drop k s) with
        | Some gs => Some (if capture then str_take k s :: gs else gs)
        | None => None
        end in
      if greedy then first_down attempt lo hi
      else first_up attempt (S hi - lo)%nat lo
  end.

(** [m.group(i)] for [i >= 1] *)
Definition group (gs : list string) (i : nat) : string := nth (i - 1)%nat gs "".
End Regex.
Import Regex.

(** ** vyos_syntax.py: the command parser and the diff engine *)

Module VyosSyntax.
(** [class ConfigCommand]; its [path] and [value] are [cmd_path] and
    [cmd_value] here, the names being those of the node's fields. *)
Record ConfigCommand : Type := mkCommand {
  command_type : string;
  cmd_path : list string;
  cmd_value : option string;
  original : string
}.

Definition ws0 : item := Rep cls_space 0 true false.
Definition ws1 : item := Rep cls_space 1 true false.
Definition rest_of_line : item := Rep cls_dot 1 true true.
Definition lazy_text : item := Rep cls_dot 1 false true.

(** [^\s*set\s+(.+)$], IGNORECASE *)
Definition SET_PATTERN : list item := [ws0; Lit true "set"; ws1; rest_of_line; Eos].
(** [^\s*delete\s+(.+)$], IGNORECASE *)
Definition DELETE_PATTERN : list item := [ws0; Lit true "delete"; ws1; rest_of_line; Eos].
(** [^\s*comment\s+(.+?)\s+(.+)$], IGNORECASE *)
Definition COMMENT_PATTERN : list item :=
  [ws0; Lit true "comment"; ws1; lazy_text; ws1; rest_of_line; Eos].
(** [^\s*rename\s+(.+?)\s+to\s+(.+)$], IGNORECASE *)
Definition RENAME_PATTERN : list item :=
  [ws0; Lit true "rename"; ws1; lazy_text; ws1; Lit true "to"; ws1; rest_of_line; Eos].
(** [^\s*edit\s+(.+)$], IGNORECASE *)
Definition EDIT_PATTERN : list item := [ws0; Lit true "edit"; ws1; rest_of_line; Eos].
(** [^\s*([^ ]+)\s+(.+)$] *)
Definition VALUE_PATTERN : list item :=
  [ws0; Rep cls_not_blank 1 true true; ws1; rest_of_line; Eos].

Definition double_quote : ascii := ascii_of_N 34.
Definition single_quote : ascii := ascii_of_N 39.

(** The local variables of [_tokenize_path]; [quote_char = ""] is
    [None]. *)
Record tokenizer : Type := mkTok {
  tokens : list string;
  current_token : string;
  in_quotes : bool;
  quote_char : option ascii
}.

Definition tokenizer_start : tokenizer := mkTok [] "" false None.

Definition is_quote (c : ascii) : bool :=
  Ascii.eqb c double_quote || Ascii.eqb c single_quote.

Definition same_quote (c : ascii) (q : option ascii) : bool :=
  match q with Some q' => Ascii.eqb c q' | None => false end.

(** One iteration of [for char in path_str]. *)
Definition tokenizer_step (st : tokenizer) (char : ascii) : tokenizer :=
  if is_quote char && (negb (in_quotes st) || same_quote char (quote_char st)) then
    mkTok (tokens st) (current_token st) (negb (in_quotes st)) (Some char)
  else if isspace char && negb (in_quotes st) then
    if String.eqb (current_token st) "" then st
    else mkTok (tokens st ++ [current_token st]) "" (in_quotes st) (quote_char st)
  else
    mkTok (tokens st) (current_token st +:+ String char "") (in_quotes st) (quote_char st).

Fixpoint tokenizer_run (path_str : string) (st : tokenizer) : tokenizer :=
  match path_str with
  | "" => st
  | String char rest => tokenizer_run rest (tokenizer_step st char)
  end.

(** The tokens after the loop: a pending token is appended. *)
Definition tokenizer_finish (st : tokenizer) : list string :=
  if String.eqb (current_token st) "" then tokens st
  else tokens st ++ [current_token st].

(** [_tokenize_path(path_str)] *)
Definition _tokenize_path (path_str : string) : list string :=
  tokenizer_finish (tokenizer_run path_str tokenizer_start).

(** [_split_path_and_value(path_str)] *)
Definition _split_path_and_value (path_str : string) : list string * option string :=
  match rmatch VALUE_PATTERN path_str with
  | Some gs => ([group gs 1], Some (group gs 2))
  | None =>
      match rsplit1 space path_str with
      | Some (before, after) => (split_ws before, Some after)
      | None => (split_ws path_str, None)
      end
  end.

Definition _parse_set_command (gs : list string) (line : string) : ConfigCommand :=
  let path_str := strip (group gs 1) in
  let '(p, v) := _split_path_and_value path_str in
  mkCommand "set" p v line.

Definition _parse_delete_command (gs : list string) (line : string) : ConfigCommand :=
  mkCommand "delete" (_tokenize_path (strip (group gs 1))) None line.

Definition _parse_comment_command (gs : list string) (line : string) : ConfigCommand :=
  mkCommand "comment" (_tokenize_path (strip (group gs 1))) (Some (strip (group gs 2))) line.

Definition _parse_rename_command (gs : list string) (line : string) : ConfigCommand :=
  mkCommand "rename" (_tokenize_path (strip (group gs 1))) (Some (strip (group gs 2))) line.

Definition _parse_edit_command (gs : list string) (line : string) : ConfigCommand :=
  mkCommand "edit" (_tokenize_path (strip (group gs 1))) None line.

(** [parse_line(line)] *)
Definition parse_line (line : string) : option ConfigCommand :=
  let line := strip line in
  if String.eqb line "" || startswith line "#" || startswith line "!" then None
  else
    match rmatch SET_PATTERN line with
    | Some gs => Some (_parse_set_command gs line)
    | None =>
    match rmatch DELETE_PATTERN line with
    | Some gs => Some (_parse_delete_command gs line)
    | None =>
    match rmatch COMMENT_PATTERN line with
    | Some gs => Some (_parse_comment_command gs line)
    | None =>
    match rmatch RENAME_PATTERN line with
    | Some gs => Some (_parse_rename_command gs line)
    | None =>
    match rmatch EDIT_PATTERN line with
    | Some gs => Some (_parse_edit_command gs line)
    | None => None
    end end end end end.

(** [for part in command.path[:-1]: node = node.add_child(part)],
    then [f] on the node reached. *)
Fixpoint descend (node : ConfigNode string) (parents : list string)
    (f : ConfigNode string -> ConfigNode string) : ConfigNode string :=
  match parents with
  | [] => f node
  | part :: rest => on_child node part (fun c => descend c rest f)
  end.

(** [node.children[name].<field> = ...] on a child that is present. *)
Definition update_child (node : ConfigNode string) (name : string)
    (f : ConfigNode string -> ConfigNode string) : ConfigNode string :=
  match dict_get name (children node) with
  | Some c => with_children node (dict_set name (f c) (children node))
  | None => node
  end.

(** What [_apply_command] does at the parent of the final part. *)
Definition apply_final (command : ConfigCommand) (node : ConfigNode string) : ConfigNode string :=
  match cmd_path command with
  | [] => node
  | _ :: _ =>
      let final_part := List.last (cmd_path command) "" in
      if String.eqb (command_type command) "set" then
        match cmd_value command with
        | Some v => on_child node final_part (fun c => set_value c (Some v))
        | None => add_child node final_part
        end
      else if String.eqb (command_type command) "delete" then
        update_child node final_part (fun c => with_deleted c true)
      else if String.eqb (command_type command) "comment" then
        update_child node final_part (fun c => with_comment c (cmd_value command))
      else node
  end.

(** [_apply_command(command)] on [self.config_root] *)
Definition _apply_command (config_root : ConfigNode string) (command : ConfigCommand)
    : ConfigNode string :=
  descend config_root (removelast (cmd_path command)) (apply_final command).

(** The loop of [parse_config] over the lines. *)
Fixpoint parse_lines (lines : list string) (config_root : ConfigNode string)
    : ConfigNode string :=
  match lines with
  | [] => config_root
  | line :: rest =>
      match parse_line line with
      | Some command => parse_lines rest (_apply_command config_root command)
      | None => parse_lines rest config_root
      end
  end.

(** [parse_config(config_text)] *)
Definition parse_config (config_text : string) : ConfigNode string :=
  parse_lines (split_on newline config_text) (new_node []).

Section Diff.
Context {V : Type} `{EqDecision V}.

(** One iteration of [for key in all_keys]. *)
Definition diff_step (old_flat new_flat : gmap string V) (key : string)
    (diff : ConfigDiff V) : ConfigDiff V :=
  match old_flat !! key, new_flat !! key with
  | None, Some new_value =>
      mkDiff (<[key := new_value]> (added diff)) (removed diff) (modified diff)
  | Some old_value, None =>
      mkDiff (added diff) (<[key := old_value]> (removed diff)) (modified diff)
  | Some old_value, Some new_value =>
      if decide (old_value = new_value) then diff
      else mkDiff (added diff) (removed diff)
                  (<[key := (old_value, new_value)]> (modified diff))
  | None, None => diff
  end.

(** [calculate_diff(old_config, new_config)]; [all_keys] is a set,
    visited in the order of its elements. *)
Definition calculate_diff (old_config new_config : ConfigNode V) : ConfigDiff V :=
  let old_flat := flatten old_config in
  let new_flat := flatten new_config in
  let all_keys : gset string := dom old_flat ∪ dom new_flat in
  set_fold (diff_step old_flat new_flat) (mkDiff ∅ ∅ ∅) all_keys.
End Diff.
End VyosSyntax.
Import VyosSyntax.

(** ** config_validator.py: rule lookup and validation *)

Module ConfigValidator.
(** [class ValidationError] *)
Record ValidationError : Type := mkError {
  err_path : string;
  message : string;
  error_type : string
}.

(** The values of [ValidationRule.data_type] that [_validate_value]
    tells apart. *)
Inductive pytype : Type := TInt | TFloat | TBool | TStr.

(** [class ValidationRule]; the numeric bounds of the built-in
    rules are integers, and a custom validator is an opaque
    callable. *)
Record ValidationRule {Callable : Type} : Type := mkRule {
  required : bool;
  data_type : option pytype;
  min_value : option Z;
  max_value : option Z;
  allowed_values : option (list string);
  pattern : option string;
  custom_validator : option Callable
}.
Arguments ValidationRule : clear implicits.
Arguments mkRule {Callable}.

(** [_path_matches(pattern, path)] *)
Definition _path_matches (pattern path : string) : bool :=
  let pattern_parts := split_on "." pattern in
  let path_parts := split_on "." path in
  if negb (Nat.eqb (length pattern_parts) (length path_parts)) then false
  else
    (fix loop (zipped : list (string * string)) : bool :=
       match zipped with
       | [] => true
       | (pattern_part, path_part) :: rest =>
           if String.eqb pattern_part "*" then loop rest
           else if negb (String.eqb pattern_part path_part) then false
           else loop rest
       end) (combine pattern_parts path_parts).

Section Validator.
Context {V Callable : Type}.
Abbreviation Rule := (ValidationRule Callable).

(** [_validate_value(path, value, rule)]: the checks of one value
    against one rule (coercion with [int()], [float()], [re.match],
    the custom callable) are taken as given. *)
Variable _validate_value : string -> V -> Rule -> list ValidationError.

(** [_find_matching_rule(path)] on [self.rules] *)
Definition _find_matching_rule (rules : list (string * Rule)) (path : string)
    : option Rule :=
  if dict_contains path rules then dict_get path rules
  else
    (fix loop (items : list (string * Rule)) : option Rule :=
       match items with
       | [] => None
       | (rule_path, rule) :: rest =>
           if _path_matches rule_path path then Some rule else loop rest
       end) rules.

(** What [_validate_node] appends for a node with a value. *)
Definition node_errors (rules : list (string * Rule)) (path_prefix : string)
    (v : V) : list ValidationError :=
  let node_path := rstrip_char "." path_prefix in
  match _find_matching_rule rules node_path with
  | Some rule => _validate_value node_path v rule
  | None => []
  end.

(** [_validate_node(node, path_prefix)], threading [errors]. *)
Fixpoint _validate_node (rules : list (string * Rule)) (node : ConfigNode V)
    (path_prefix : string) (errors : list ValidationError) : list ValidationError :=
  match node with
  | mkNode _ val cs _ _ =>
      let errors :=
        match val with
        | Some v => errors ++ node_errors rules path_prefix v
        | None => errors
        end in
      (fix loop (cs : list (string * ConfigNode V)) (errors : list ValidationError) :=
         match cs with
         | [] => errors
         | (name, child) :: rest =>
             if negb (deleted child) then
               let new_path :=
                 if String.eqb path_prefix "" then name +:+ "."
                 else path_prefix +:+ name +:+ "." in
               loop rest (_validate_node rules child new_path errors)
             else loop rest errors
         end) cs errors
  end.

(** [validate(config)] *)
Definition validate (rules : list (string * Rule)) (config : ConfigNode V)
    : list ValidationError :=
  _validate_node rules config "" [].

(** [self.rules.update(custom_rules)] *)
Definition dict_update (rules custom_rules : list (string * Rule)) : list (string * Rule) :=
  fold_left (fun acc kv => dict_set (fst kv) (snd kv) acc) custom_rules rules.

(** [add_rule(path, rule)] *)
Definition add_rule (rules : list (string * Rule)) (path : string) (rule : Rule)
    : list (string * Rule) :=
  dict_set path rule rules.

(** [remove_rule(path)] *)
Definition remove_rule (rules : list (string * Rule)) (path : string)
    : list (string * Rule) :=
  if dict_contains path rules then dict_del path rules else rules.
End Validator.

(** [STANDARD_RULES], in the order of the source. *)
Definition STANDARD_RULES {Callable : Type} : list (string * ValidationRule Callable) :=
  [ ("interface.*.address",
     mkRule false None None None None
            (Some "^\d{1,3}\.\d{1,3}\.\d{1,3}\.\d{1,3}/\d{1,2}$") None);
    ("interface.*.mtu", mkRule false (Some TInt) (Some 68%Z) (Some 9000%Z) None None None);
    ("system.host-name", mkRule false None None None None (Some "^[a-zA-Z0-9-]+$") None);
    ("system.time-zone",
     mkRule false None None None (Some ["UTC"; "America/New_York"; "Europe/London"])
            None None);
    ("system.time-server.*",
     mkRule false None None None None (Some "^\d{1,3}\.\d{1,3}\.\d{1,3}\.\d{1,3}$") None);
    ("system.name-server.*",
     mkRule false None None None None (Some "^\d{1,3}\.\d{1,3}\.\d{1,3}\.\d{1,3}$") None);
    ("service.ssh.port", mkRule false (Some TInt) (Some 1%Z) (Some 65535%Z) None None None);
    ("service.ssh.allow-root", mkRule false (Some TBool) None None None None None);
    ("firewall.name.*.rule.*.action",
     mkRule true None None None (Some ["accept"; "drop"; "reject"]) None None);
    ("vpn.ipsec.*.remote-address",
     mkRule true None None None None (Some "^\d{1,3}\.\d{1,3}\.\d{1,3}\.\d{1,3}$") None) ].
End ConfigValidator.
Import ConfigValidator.

(** ** config_rollback.py: snapshots with a retention limit *)

Module ConfigRollback.
(** [l[:n]] and [l[n:]] for a Python integer [n]: a negative [n]
    counts from the end. *)
Definition slice_to {A : Type} (l : list A) (n : Z) : list A :=
  if (0 <=? n)%Z then firstn (Z.to_nat n) l
  else firstn (length l - Z.to_nat (- n)) l.

Definition slice_from {A : Type} (l : list A) (n : Z) : list A :=
  if (0 <=? n)%Z then skipn (Z.to_nat n) l
  else skipn (length l - Z.to_nat (- n)) l.

Section Manager.
Context {V : Type}.

(** [class ConfigSnapshot]; its [id] is [snapshot_id] here, and a
    [datetime] is a point on the time line, an integer count of
    microseconds. *)
Record ConfigSnapshot : Type := mkSnapshot {
  snapshot_id : string;
  timestamp : Z;
  description : option string;
  config_hash : string;
  config_data : list (string * pyval V)
}.

(** [hashlib] and the clock are outside the program:
    [_calculate_hash] is a function of the exported dictionary and
    [_generate_snapshot_id] one of the clock reading it takes. *)
Variable _calculate_hash : list (string * pyval V) -> string.
Variable _generate_snapshot_id : Z -> string.

(** The manager: its retention limit, the index [self.snapshots],
    the snapshot files of the storage directory by snapshot id, and
    the index file. *)
Record manager : Type := mkManager {
  max_snapshots : Z;
  snapshots : list ConfigSnapshot;
  snapshot_files : gmap string ConfigSnapshot;
  index_file : option (list ConfigSnapshot)
}.

(** [__init__]: the index is what [_load_index] reads from the
    index file, nothing when the file is missing or corrupt. *)
Definition manager_init (max : Z) (files : gmap string ConfigSnapshot)
    (index : option (list ConfigSnapshot)) : manager :=
  mkManager max (default [] index) files index.

(** [sorted(l, key=lambda s: s.timestamp, reverse=True)]: a stable
    sort, so snapshots of equal timestamp keep their order. *)
Fixpoint insert_newest_first (s : ConfigSnapshot) (l : list ConfigSnapshot)
    : list ConfigSnapshot :=
  match l with
  | [] => [s]
  | s' :: rest =>
      if (timestamp s <? timestamp s')%Z then s' :: insert_newest_first s rest
      else s :: l
  end.

Definition sort_newest_first (l : list ConfigSnapshot) : list ConfigSnapshot :=
  foldr insert_newest_first [] l.

(** [_prune_old_snapshots()] *)
Definition _prune_old_snapshots (m : manager) : manager :=
  if (Z.of_nat (length (snapshots m)) <=? max_snapshots m)%Z then m
  else
    let sorted := sort_newest_first (snapshots m) in
    let to_remove := slice_from sorted (max_snapshots m) in
    let files :=
      fold_left (fun fs s => delete (snapshot_id s) fs) to_remove (snapshot_files m) in
    mkManager (max_snapshots m) (slice_to sorted (max_snapshots m)) files (index_file m).

(** [_save_index()] *)
Definition _save_index (m : manager) : manager :=
  mkManager (max_snapshots m) (snapshots m) (snapshot_files m) (Some (snapshots m)).

(** [create_snapshot(config, description)]; [now_id] and [now] are
    the two readings of the clock, the first inside
    [_generate_snapshot_id]. *)
Definition create_snapshot (m : manager) (now_id now : Z) (config : ConfigNode V)
    (descr : option string) : manager * ConfigSnapshot :=
  let id := _generate_snapshot_id now_id in
  let data := to_dict config in
  let snapshot := mkSnapshot id now descr (_calculate_hash data) data in
  let saved :=
    mkManager (max_snapshots m) (snapshots m ++ [snapshot])
              (<[id := snapshot]> (snapshot_files m)) (index_file m) in
  (_save_index (_prune_old_snapshots saved), snapshot).

(** [list_snapshots(limit)]; [if limit:] holds for an integer
    other than zero. *)
Definition list_snapshots (m : manager) (limit : option Z) : list ConfigSnapshot :=
  let sorted := sort_newest_first (snapshots m) in
  match limit with
  | Some n => if (n =? 0)%Z then sorted else slice_to sorted n
  | None => sorted
  end.

(** One call of [create_snapshot] with what it reads from outside. *)
Record create_call : Type := mkCall {
  call_now_id : Z;
  call_now : Z;
  call_config : ConfigNode V;
  call_description : option string
}.

Definition do_create (m : manager) (c : create_call) : manager :=
  fst (create_snapshot m (call_now_id c) (call_now c) (call_config c) (call_description c)).

(** The snapshot a call adds to the index. *)
Definition created (c : create_call) : ConfigSnapshot :=
  let data := to_dict (call_config c) in
  mkSnapshot (_generate_snapshot_id (call_now_id c)) (call_now c) (call_description c)
             (_calculate_hash data) data.
End Manager.
Arguments ConfigSnapshot : clear implicits.
Arguments manager : clear implicits.
Arguments create_call : clear implicits.
End ConfigRollback.
Import ConfigRollback.

(** ** services/config_backup.py: restoring a stored configuration *)

Module ConfigBackup.
(** [class CommandResult], the fields the manager reads. *)
Record CommandResult : Type := mkResult {
  stdout : string;
  stderr : string;
  exit_code : Z
}.

(** [class BackupFormat] and the [value] of each member. *)
Inductive BackupFormat : Type := JSON | YAML | XML | VYOS | TAR.

Definition format_value (f : BackupFormat) : string :=
  match f with
  | JSON => "json" | YAML => "yaml" | XML => "xml" | VYOS => "vyos" | TAR => "tar"
  end.

(** [class BackupStatus] *)
Inductive BackupStatus : Type := PENDING | IN_PROGRESS | COMPLETED | FAILED.

(** [class ConfigSnapshot] of the backup service. *)
Record ConfigSnapshot : Type := mkSnapshot {
  id : string;
  name : string;
  description : string;
  timestamp : Z;
  format : BackupFormat;
  size : Z;
  checksum : string;
  status : BackupStatus
}.

(** The dictionary [restore_from_snapshot] returns: ["success"],
    ["message"], and ["snapshot"] or ["snapshot_id"] when present. *)
Record restore_result : Type := mkRestore {
  success : bool;
  message : string;
  result_snapshot : option ConfigSnapshot;
  result_snapshot_id : option string
}.

Definition failure (msg : string) : restore_result := mkRestore false msg None None.

(** The exceptions raised inside [restore_from_snapshot]. *)
Inductive exn : Type := TypeError (msg : string).

(** [str(e)] *)
Definition str_of_exn (e : exn) : string :=
  match e with TypeError msg => msg end.

Section Restore.
(** The device and the backup directory behind the executor. *)
Variable World : Type.
(** [self.executor.execute(command)]: it catches what the
    transport raises and always returns a [CommandResult]. *)
Variable run_command : string -> World -> CommandResult * World.
(** [self.get_snapshot(snapshot_id)]: reads the metadata files
    through the executor; how they are decoded is taken as given. *)
Variable get_snapshot : string -> World -> option ConfigSnapshot * World.
(** [self.create_snapshot(name=..., description=...)]: a plain
    method (declared with [def]) that catches every exception and
    returns a [ConfigSnapshot], failed or completed. *)
Variable create_snapshot : string -> string -> World -> ConfigSnapshot * World.
Variable backup_dir : string.

(** The state of a call: the world, and the commands the body of
    [restore_from_snapshot] itself has handed to the executor so far.
    What [get_snapshot] and [create_snapshot] send is part of what
    they do to the world; [ConfigBackupStore] below keeps that log. *)
Record state : Type := mkState {
  world : World;
  issued : list string
}.

Definition M (A : Type) : Type := state -> (exn + A) * state.

Definition ret {A : Type} (a : A) : M A := fun s => (inr a, s).

Definition bind {A B : Type} (m : M A) (k : A -> M B) : M B :=
  fun s =>
    match m s with
    | (inl e, s') => (inl e, s')
    | (inr a, s') => k a s'
    end.

Definition raise {A : Type} (e : exn) : M A := fun s => (inl e, s).

(** [try: body except Exception as e: handler(e)] *)
Definition try_except {A : Type} (body : M A) (handler : exn -> M A) : M A :=
  fun s =>
    match body s with
    | (inl e, s') => handler e s'
    | (inr a, s') => (inr a, s')
    end.

Notation "'do' x <- m ; k" := (bind m (fun x => k))
  (at level 10, x name, m at level 100, k at level 200).
Notation "m ;; k" := (bind m (fun _ => k))
  (at level 100, k at level 200, right associativity).

Definition execute (command : string) : M CommandResult :=
  fun s =>
    let '(r, w) := run_command command (world s) in
    (inr r, mkState w (issued s ++ [command])).

Definition lift {A : Type} (f : World -> A * World) : M A :=
  fun s => let '(a, w) := f (world s) in (inr a, mkState w (issued s)).

(** [await x] where [x] is a [ConfigSnapshot]: the object has no
    [__await__], so the expression raises [TypeError] once [x] has
    been computed. *)
Definition await_snapshot (x : ConfigSnapshot) : M ConfigSnapshot :=
  raise (TypeError "object ConfigSnapshot can't be used in 'await' expression").

Definition abort (msg : string) : M restore_result :=
  execute "discard" ;; execute "exit" ;; ret (failure msg).

(** [for line in config.split("\n")]: [Some r] when the loop
    returned [r], [None] when it ran to its end. *)
Fixpoint apply_lines (lines : list string) : M (option restore_result) :=
  match lines with
  | [] => ret None
  | line :: rest =>
      let line := strip line in
      if negb (String.eqb line "") && negb (startswith line "#") then
        do result <- execute ("set " +:+ line) ;
        if negb (exit_code result =? 0)%Z then
          do r <- abort ("Failed to apply command: " +:+ line) ; ret (Some r)
        else apply_lines rest
      else apply_lines rest
  end.

(** [restore_from_snapshot(snapshot_id, dry_run)] *)
Definition restore_from_snapshot (snapshot_id : string) (dry_run : bool)
    : M restore_result :=
  do snapshot <- lift (get_snapshot snapshot_id) ;
  match snapshot with
  | None => ret (failure "Snapshot not found")
  | Some snapshot =>
      try_except
        (if dry_run then
           ret (mkRestore true "Dry run successful" (Some snapshot) None)
         else
           do result <- execute ("cat " +:+ backup_dir +:+ "/snapshots/" +:+ snapshot_id
                                 +:+ "." +:+ format_value (format snapshot)) ;
           if String.eqb (stdout result) "" then
             ret (failure "Failed to read snapshot content")
           else
             let config := stdout result in
             do safety <- lift (create_snapshot
                                  ("pre-restore-" +:+ snapshot_id)
                                  ("Automatic backup before restoring " +:+ snapshot_id)) ;
             await_snapshot safety ;;
             do result <- execute "configure" ;
             if negb (exit_code result =? 0)%Z then
               abort "Failed to enter configuration mode"
             else
               do stopped <- apply_lines (split_on newline config) ;
               match stopped with
               | Some r => ret r
               | None =>
                   do result <- execute "commit" ;
                   if negb (exit_code result =? 0)%Z then
                     abort "Failed to commit configuration"
                   else
                     execute "exit" ;; execute "save" ;;
                     ret (mkRestore true "Configuration restored successfully"
                                    None (Some snapshot_id))
               end)
        (fun e => ret (failure (str_of_exn e)))
  end.

(** The call from a state in which nothing has been sent yet. *)
Definition run_restore (snapshot_id : string) (dry_run : bool) (w : World)
    : (exn + restore_result) * state :=
  restore_from_snapshot snapshot_id dry_run (mkState w []).
End Restore.
End ConfigBackup.

(** ** Vocabulary of the properties *)

Module TreeSpec.
Section TreeSpec.
Context {V : Type}.

(** The three loops over [children] and over a nested dictionary,
    named so that they can be unfolded one entry at a time. *)
Definition flatten_items (prefix : string) :
    list (string * ConfigNode V) -> gmap string V -> gmap string V :=
  fix loop cs result :=
    match cs with
    | [] => result
    | (name, child) :: rest =>
        let full_path := if String.eqb prefix "" then name else prefix +:+ name in
        let result' :=
          match value child with
          | Some v => <[full_path := v]> result
          | None =>
              match children child with
              | [] => result
              | _ :: _ => _flatten child (full_path +:+ ".") result
              end
          end in
        loop rest result'
    end.

Definition to_dict_items :
    list (string * ConfigNode V) -> list (string * pyval V) -> list (string * pyval V) :=
  fix loop cs result :=
    match cs with
    | [] => result
    | (name, child) :: rest =>
        if deleted child then loop rest result
        else
          match value child with
          | Some v => loop rest (dict_set name (PScalar v) result)
          | None =>
              match children child with
              | [] => loop rest result
              | _ :: _ => loop rest (dict_set name (PDict (to_dict child)) result)
              end
          end
    end.

Definition populate_items : ConfigNode V -> list (string * pyval V) -> ConfigNode V :=
  fix loop node data :=
    match data with
    | [] => node
    | (key, v') :: rest =>
        loop (on_child node key (fun c => _populate_entry c v')) rest
    end.

(** No node of the tree has both a value and children. *)
Fixpoint exclusive (node : ConfigNode V) : bool :=
  match node with
  | mkNode _ v cs _ _ =>
      (match v, cs with Some _, _ :: _ => false | _, _ => true end)
      && (fix all (cs : list (string * ConfigNode V)) : bool :=
            match cs with
            | [] => true
            | (_, c) :: rest => exclusive c && all rest
            end) cs
  end.

(** A call of [set_value] or [add_child] on the node that
    [get_child] reaches from the root along [target]; a call on a
    node that does not exist cannot be made and leaves the tree as
    it is. *)
Inductive tree_op : Type :=
| SetValue (target : list string) (v : option V)
| AddChild (target : list string) (name : string).

Fixpoint update_at (node : ConfigNode V) (target : list string)
    (f : ConfigNode V -> ConfigNode V) : ConfigNode V :=
  match target with
  | [] => f node
  | k :: rest =>
      match dict_get k (children node) with
      | Some c => with_children node (dict_set k (update_at c rest f) (children node))
      | None => node
      end
  end.

Definition apply_op (t : ConfigNode V) (op : tree_op) : ConfigNode V :=
  match op with
  | SetValue target v => update_at t target (fun n => set_value n v)
  | AddChild target name => update_at t target (fun n => add_child n name)
  end.

Definition run_ops (ops : list tree_op) (t : ConfigNode V) : ConfigNode V :=
  fold_left apply_op ops t.

(** [add_child] is called on a node that holds no value. *)
Definition on_valueless (t : ConfigNode V) (op : tree_op) : bool :=
  match op with
  | SetValue _ _ => true
  | AddChild target _ =>
      match get_child t target with
      | Some n => match value n with Some _ => false | None => true end
      | None => true
      end
  end.

Fixpoint all_on_valueless (ops : list tree_op) (t : ConfigNode V) : bool :=
  match ops with
  | [] => true
  | op :: rest => on_valueless t op && all_on_valueless rest (apply_op t op)
  end.

(** A nested dictionary entry that survives the round trip: a
    scalar other than [None], or a dictionary that is not empty, has
    pairwise different keys and only such entries. *)
Fixpoint kept_entry (v : pyval V) : bool :=
  match v with
  | PNone => false
  | PScalar _ => true
  | PDict items =>
      (match items with [] => false | _ :: _ => true end)
      && keys_unique items
      && (fix all (items : list (string * pyval V)) : bool :=
            match items with
            | [] => true
            | (_, v') :: rest => kept_entry v' && all rest
            end) items
  end.

(** A nested dictionary whose keys are pairwise different at every
    level and that holds neither [None] nor an empty dictionary. *)
Definition plain_dict (m : list (string * pyval V)) : bool :=
  keys_unique m && forallb (fun kv => kept_entry (snd kv)) m.

(** What is left of a nested dictionary when every entry whose value
    is [None] or an empty dictionary is taken out, at every depth; a
    dictionary that loses all its entries this way stays, empty. *)
Fixpoint prune_entry (v : pyval V) : option (pyval V) :=
  match v with
  | PNone => None
  | PScalar x => Some (PScalar x)
  | PDict items =>
      match items with
      | [] => None
      | _ :: _ =>
          Some (PDict
            ((fix loop (items : list (string * pyval V)) : list (string * pyval V) :=
                match items with
                | [] => []
                | (k, v') :: rest =>
                    match prune_entry v' with
                    | Some w => (k, w) :: loop rest
                    | None => loop rest
                    end
                end) items))
      end
  end.

Definition prune_items : list (string * pyval V) -> list (string * pyval V) :=
  fix loop items :=
    match items with
    | [] => []
    | (k, v') :: rest =>
        match prune_entry v' with
        | Some w => (k, w) :: loop rest
        | None => loop rest
        end
    end.

(** The tree with every tombstone removed. *)
Fixpoint erase_deleted (node : ConfigNode V) : ConfigNode V :=
  match node with
  | mkNode p v cs _ c =>
      mkNode p v
        ((fix all (cs : list (string * ConfigNode V)) : list (string * ConfigNode V) :=
            match cs with
            | [] => []
            | (k, ch) :: rest => (k, erase_deleted ch) :: all rest
            end) cs)
        false c
  end.
(** The child [_populate] builds for the entry [kv] of a node at
    path [p]. *)
Definition built (p : list string) (kv : string * pyval V) : string * ConfigNode V :=
  (fst kv, _populate_entry (new_node (p ++ [fst kv])) (snd kv)).

(** What [to_dict] sees of a built child. *)
Definition exports (p : list string) (v : pyval V) : Prop :=
  let b := _populate_entry (new_node p) v in
  deleted b = false /\
  match v with
  | PNone => False
  | PScalar x => value b = Some x
  | PDict items => value b = None /\ children b <> [] /\ to_dict b = items
  end.

(** What [to_dict] sees of the child built for a dictionary
    entry. *)
Definition pruned_view (p : list string) (v : pyval V) : Prop :=
  let b := _populate_entry (new_node p) v in
  deleted b = false /\
  match v with
  | PNone => value b = None /\ children b = []
  | PScalar x => value b = Some x
  | PDict items =>
      value b = None /\ (children b = [] <-> items = []) /\ to_dict b = prune_items items
  end.

(** Two nodes that [flatten] cannot tell apart, wherever they
    stand. *)
Definition flat_eq (n n' : ConfigNode V) : Prop :=
  value n = value n' /\
  forall prefix result, _flatten n prefix result = _flatten n' prefix result.

(** What one child adds to the result of [_flatten]. *)
Definition child_part (prefix name : string) (child : ConfigNode V)
    (result : gmap string V) : gmap string V :=
  let full_path := if String.eqb prefix "" then name else prefix +:+ name in
  match value child with
  | Some v => <[full_path := v]> result
  | None => _flatten child (full_path +:+ ".") result
  end.

Definition same_key_flat_eq (a b : string * ConfigNode V) : Prop :=
  fst a = fst b /\ flat_eq (snd a) (snd b).

End TreeSpec.
End TreeSpec.
Import TreeSpec.

(** What a diff holds at one dotted path, read off the two flattened
    trees. *)

Module DiffSpec.
Section DiffSpec.
Context {V : Type} `{EqDecision V}.

Definition added_at (old_flat new_flat : gmap string V) (key : string) : option V :=
  match old_flat !! key, new_flat !! key with
  | None, Some new_value => Some new_value
  | _, _ => None
  end.

Definition removed_at (old_flat new_flat : gmap string V) (key : string) : option V :=
  match old_flat !! key, new_flat !! key with
  | Some old_value, None => Some old_value
  | _, _ => None
  end.

Definition modified_at (old_flat new_flat : gmap string V) (key : string)
    : option (V * V) :=
  match old_flat !! key, new_flat !! key with
  | Some old_value, Some new_value =>
      if decide (old_value = new_value) then None else Some (old_value, new_value)
  | _, _ => None
  end.

(** The diff after the loop has visited the keys [X]. *)
Definition diff_over (old_flat new_flat : gmap string V) (X : gset string)
    (d : ConfigDiff V) : Prop :=
  forall key,
    added d !! key = (if decide (key ∈ X) then added_at old_flat new_flat key else None) /\
    removed d !! key = (if decide (key ∈ X) then removed_at old_flat new_flat key else None) /\
    modified d !! key = (if decide (key ∈ X) then modified_at old_flat new_flat key else None).
End DiffSpec.
End DiffSpec.
Import DiffSpec.

(** Quotes, lines and the scenario of the specification. *)

Module SyntaxSpec.
(** The text ends inside a quoted substring. *)
Definition unterminated_quote (s : string) : bool :=
  in_quotes (tokenizer_run s tokenizer_start).

(** The quote that would close the substring the text ends in. *)
Definition closing_quote (s : string) : string :=
  match quote_char (tokenizer_run s tokenizer_start) with
  | Some q => String q ""
  | None => ""
  end.

(** Whenever the tokenizer is inside quotes it remembers which
    quote opened them. *)
Definition remembers_quote (st : tokenizer) : Prop :=
  in_quotes st = true -> exists q, quote_char st = Some q /\ is_quote q = true.

(** A line as [parse_config] cuts them: no newline inside. *)
Fixpoint one_line (s : string) : bool :=
  match s with
  | "" => true
  | String c s' => negb (Ascii.eqb c newline) && one_line s'
  end.

Definition dq : string := String double_quote "".
Definition nl : string := String newline "".

(** The text with every quote character replaced by an underscore. *)
Definition unquote_char (c : ascii) : ascii :=
  if is_quote c then "_"%char else c.

Fixpoint without_quotes (s : string) : string :=
  match s with
  | "" => ""
  | String c s' => String (unquote_char c) (without_quotes s')
  end.

(** A literal of a pattern that matches neither a quote nor an
    underscore, and a pattern whose literals are such and whose
    classes do not tell a quote from an underscore. *)
Fixpoint literal_ok (ignorecase : bool) (w : string) : bool :=
  match w with
  | "" => true
  | String a w' =>
      negb (char_eq ignorecase a "_") && negb (char_eq ignorecase a double_quote)
      && negb (char_eq ignorecase a single_quote) && literal_ok ignorecase w'
  end.

Definition quote_blind_item (it : item) : Prop :=
  match it with
  | Lit ignorecase w => literal_ok ignorecase w = true
  | Rep cls _ _ _ => forall c, cls (unquote_char c) = cls c
  | Eos => True
  end.

Definition quote_blind (items : list item) : Prop := Forall quote_blind_item items.

Definition scenario_text : string :=
  "set interfaces ethernet eth0 address '192.168.1.1/24'" +:+ nl +:+
  "set interfaces ethernet eth0 description " +:+ dq +:+ "Uplink" +:+ dq.

(** The dictionary the specification expects for [scenario_text]. *)
Definition scenario_dict : list (string * pyval string) :=
  [("interfaces", PDict [("ethernet", PDict [("eth0",
      PDict [("address", PScalar "192.168.1.1/24");
             ("description", PScalar "Uplink")])])])].

Definition delete_description : ConfigCommand :=
  mkCommand "delete" ["interfaces"; "ethernet"; "eth0"; "description"] None
            "delete interfaces ethernet eth0 description".
End SyntaxSpec.
Import SyntaxSpec.

(** Rule lookup in the words of the specification. *)

Module ValidatorSpec.
(** The segments of a dotted path or pattern. *)
Definition segments (s : string) : list string := split_on "." s.

(** The pattern has as many segments as the path, and each of its
    segments other than [*] is the segment of the path at the same
    place. *)
Definition pattern_covers (pattern path : string) : Prop :=
  length (segments pattern) = length (segments path) /\
  forall i p q,
    segments pattern !! i = Some p -> segments path !! i = Some q ->
    p <> "*" -> p = q.

(** The rule applied to [path]: the exact-path rule when there is
    one, else the first rule in insertion order whose pattern covers
    the path, else none. *)
Inductive rule_for {Rule : Type} (rules : list (string * Rule)) (path : string)
    : option Rule -> Prop :=
| rule_exact rule :
    dict_get path rules = Some rule -> rule_for rules path (Some rule)
| rule_first_pattern before pattern rule after :
    dict_get path rules = None ->
    rules = before ++ (pattern, rule) :: after ->
    pattern_covers pattern path ->
    (forall kv, In kv before -> ~ pattern_covers (fst kv) path) ->
    rule_for rules path (Some rule)
| rule_none :
    dict_get path rules = None ->
    (forall kv, In kv rules -> ~ pattern_covers (fst kv) path) ->
    rule_for rules path None.

(** The loops of [_path_matches] and [_find_matching_rule]. *)
Definition segments_match : list (string * string) -> bool :=
  fix loop zipped :=
    match zipped with
    | [] => true
    | (pattern_part, path_part) :: rest =>
        if String.eqb pattern_part "*" then loop rest
        else if negb (String.eqb pattern_part path_part) then false
        else loop rest
    end.

Definition first_pattern {Rule : Type} (path : string)
    : list (string * Rule) -> option Rule :=
  fix loop items :=
    match items with
    | [] => None
    | (rule_path, rule) :: rest =>
        if _path_matches rule_path path then Some rule else loop rest
    end.
End ValidatorSpec.
Import ValidatorSpec.

(** Retention in the words of the specification. *)

Module RollbackSpec.
Section RollbackSpec.
Context {V : Type}.

(** Newest first: no snapshot comes before a more recent one. *)
Definition newest_first (l : list (ConfigSnapshot V)) : Prop :=
  StronglySorted (fun a b => (timestamp b <= timestamp a)%Z) l.

(** [kept] is made of the most recent snapshots of [all]: the others
    are [dropped], and none of them is more recent than a kept one. *)
Definition most_recent_of (all kept : list (ConfigSnapshot V)) : Prop :=
  exists dropped,
    Permutation (kept ++ dropped) all /\
    forall r d, In r kept -> In d dropped -> (timestamp d <= timestamp r)%Z.

(** What holds of the index after every call, [all] being the
    snapshots loaded and created so far. *)
Definition retention_invariant (max : Z) (all : list (ConfigSnapshot V))
    (m : manager V) : Prop :=
  max_snapshots m = max /\
  exists dropped,
    Permutation (snapshots m ++ dropped) all /\
    (forall r d, In r (snapshots m) -> In d dropped -> (timestamp d <= timestamp r)%Z) /\
    (dropped = [] \/ length (snapshots m) = Z.to_nat max).

(** Three snapshots, the second the most recent. *)
Definition sample_index : list (ConfigSnapshot V) :=
  [mkSnapshot "s1" 10 None "" []; mkSnapshot "s2" 30 None "" [];
   mkSnapshot "s3" 20 None "" []].
End RollbackSpec.
End RollbackSpec.
Import RollbackSpec.

(** The scenario of twelve snapshots, and a device for the restore. *)

Module ScenarioSpec.
(** Twelve calls of [create_snapshot] on an empty tree, one per tick
    of the clock; the identifiers collide, as they do within one
    second. *)
Definition twelve_calls : list (create_call string) :=
  map (fun t => mkCall t t (new_node []) None) [1; 2; 3; 4; 5; 6; 7; 8; 9; 10; 11; 12]%Z.

Definition no_hash (data : list (string * pyval string)) : string := "".
Definition same_id (now : Z) : string := "snapshot".

(** A device that accepts every command and whose files all hold
    one configuration line. *)
Definition calm_device (command : string) (w : unit) : ConfigBackup.CommandResult * unit :=
  (ConfigBackup.mkResult "system host-name vyos" "" 0, w).

Definition stored_snapshot : ConfigBackup.ConfigSnapshot :=
  ConfigBackup.mkSnapshot "abc" "nightly" "" 0 ConfigBackup.VYOS 21 "" ConfigBackup.COMPLETED.

Definition calm_get_snapshot (snapshot_id : string) (w : unit)
    : option ConfigBackup.ConfigSnapshot * unit :=
  (Some stored_snapshot, w).

Definition calm_create_snapshot (name description : string) (w : unit)
    : ConfigBackup.ConfigSnapshot * unit :=
  (ConfigBackup.mkSnapshot "def" name description 1 ConfigBackup.VYOS 21 ""
     ConfigBackup.COMPLETED, w).
End ScenarioSpec.
Import ScenarioSpec.

(** Well-formed trees and exports. *)

Module TreeShape.
Section TreeShape.
Context {V : Type}.

(** The keys of a nested dictionary are pairwise different at every
    level, as in every [dict]. *)
Fixpoint well_keyed (v : pyval V) : bool :=
  match v with
  | PNone => true
  | PScalar _ => true
  | PDict items =>
      keys_unique items
      && (fix all (items : list (string * pyval V)) : bool :=
            match items with
            | [] => true
            | (_, v') :: rest => well_keyed v' && all rest
            end) items
  end.

(** A nested dictionary that holds no [None], at any depth. *)
Fixpoint without_none (v : pyval V) : bool :=
  match v with
  | PNone => false
  | PScalar _ => true
  | PDict items =>
      (fix all (items : list (string * pyval V)) : bool :=
         match items with
         | [] => true
         | (_, v') :: rest => without_none v' && all rest
         end) items
  end.

(** The [path] of every node is its place in the tree: the names
    from the root down to it. *)
Fixpoint placed (p : list string) (node : ConfigNode V) : bool :=
  match node with
  | mkNode q _ cs _ _ =>
      bool_decide (q = p)
      && (fix all (cs : list (string * ConfigNode V)) : bool :=
            match cs with
            | [] => true
            | (k, c) :: rest => placed (p ++ [k]) c && all rest
            end) cs
  end.

(** No node of the tree is tombstoned. *)
Fixpoint untombstoned (node : ConfigNode V) : bool :=
  match node with
  | mkNode _ _ cs d _ =>
      negb d
      && (fix all (cs : list (string * ConfigNode V)) : bool :=
            match cs with
            | [] => true
            | (_, c) :: rest => untombstoned c && all rest
            end) cs
  end.

(** Two children that the loops of [flatten] and [to_dict] over
    their parent cannot tell apart: the same tombstone and value and,
    when there is no value, the same exports of their own. *)
Definition seen_alike (c c' : ConfigNode V) : Prop :=
  deleted c = deleted c' /\ value c = value c' /\
  (value c = None ->
   (children c = [] <-> children c' = []) /\
   to_dict c = to_dict c' /\
   forall prefix result, _flatten c prefix result = _flatten c' prefix result).

Definition same_key_seen_alike (a b : string * ConfigNode V) : Prop :=
  fst a = fst b /\ seen_alike (snd a) (snd b).
End TreeShape.
End TreeShape.
Import TreeShape.

(** Texts without quotes, texts without whitespace. *)

Module TextShape.
(** No quote character occurs in the text. *)
Fixpoint quote_free (s : string) : bool :=
  match s with
  | "" => true
  | String c s' => negb (is_quote c) && quote_free s'
  end.

(** Some whitespace character occurs in the text. *)
Fixpoint has_whitespace (s : string) : bool :=
  match s with
  | "" => false
  | String c s' => isspace c || has_whitespace s'
  end.

(** The tokens of [cur] followed by [s], where [cur] is a token
    under way: what the tokenizer yields outside quotes. *)
Fixpoint continue_token (cur s : string) : list string :=
  match s with
  | "" => if String.eqb cur "" then [] else [cur]
  | String c s' =>
      if isspace c then
        (if String.eqb cur "" then [] else [cur]) ++ continue_token "" s'
      else continue_token (cur +:+ String c "") s'
  end.
End TextShape.
Import TextShape.

(** Views of the validator's walk. *)

Module WalkSpec.
Section WalkSpec.
Context {V Callable : Type}.
Variable _validate_value : string -> V -> ValidationRule Callable -> list ValidationError.

(** The loop of [_validate_node] over the children of a node. *)
Definition validate_children (rules : list (string * ValidationRule Callable))
    (path_prefix : string)
    : list (string * ConfigNode V) -> list ValidationError -> list ValidationError :=
  fix loop cs errors :=
    match cs with
    | [] => errors
    | (name, child) :: rest =>
        if negb (deleted child) then
          let new_path :=
            if String.eqb path_prefix "" then name +:+ "."
            else path_prefix +:+ name +:+ "." in
          loop rest (_validate_node _validate_value rules child new_path errors)
        else loop rest errors
    end.

(** The tree without its tombstoned children, at every depth. *)
Fixpoint drop_deleted (node : ConfigNode V) : ConfigNode V :=
  match node with
  | mkNode p v cs d c =>
      mkNode p v
        ((fix all (cs : list (string * ConfigNode V)) : list (string * ConfigNode V) :=
            match cs with
            | [] => []
            | (k, ch) :: rest =>
                if deleted ch then all rest else (k, drop_deleted ch) :: all rest
            end) cs)
        d c
  end.

Definition drop_deleted_children
    : list (string * ConfigNode V) -> list (string * ConfigNode V) :=
  fix all cs :=
    match cs with
    | [] => []
    | (k, ch) :: rest =>
        if deleted ch then all rest else (k, drop_deleted ch) :: all rest
    end.
End WalkSpec.
End WalkSpec.
Import WalkSpec.

(** ** config_rollback.py: looking snapshots up and deleting them *)

Module ConfigRollbackQueries.
Section Queries.
Context {V : Type}.
Implicit Types (m : manager V).

(** [_find_snapshot(snapshot_id)]: the first snapshot of the index
    with this id. *)
Definition _find_snapshot m (id : string) : option (ConfigSnapshot V) :=
  List.find (fun s => String.eqb (snapshot_id s) id) (snapshots m).

(** [get_snapshot(snapshot_id)] *)
Definition get_snapshot m (id : string) : option (ConfigSnapshot V) :=
  _find_snapshot m id.

(** [restore_snapshot(snapshot_id)] *)
Definition restore_snapshot m (id : string) : option (ConfigNode V) :=
  match _find_snapshot m id with
  | None => None
  | Some snapshot => Some (from_dict (config_data snapshot))
  end.

(** [delete_snapshot(snapshot_id)]: the manager afterwards and the
    boolean returned. *)
Definition delete_snapshot m (id : string) : manager V * bool :=
  match _find_snapshot m id with
  | None => (m, false)
  | Some _ =>
      let files := delete id (snapshot_files m) in
      let index := List.filter (fun s => negb (String.eqb (snapshot_id s) id)) (snapshots m) in
      (_save_index (mkManager (max_snapshots m) index files (index_file m)), true)
  end.
End Queries.
End ConfigRollbackQueries.
Import ConfigRollbackQueries.

Module StoreSpec.
Section StoreSpec.
Context {V : Type}.

(** The index and the storage directory agree: the ids of the index
    are pairwise distinct, and each snapshot of the index is what the
    file of its id holds. *)
Definition in_sync (m : manager V) : Prop :=
  NoDup (map snapshot_id (snapshots m)) /\
  forall s, In s (snapshots m) -> snapshot_files m !! snapshot_id s = Some s.

(** A two-snapshot store, and one call for it. *)
Definition sample_store : manager V :=
  mkManager 2
    [mkSnapshot "s1" 10 None "" []; mkSnapshot "s2" 30 None "" []]
    {[ "s1" := mkSnapshot "s1" 10 None "" []; "s2" := mkSnapshot "s2" 30 None "" [] ]}
    None.
End StoreSpec.
End StoreSpec.
Import StoreSpec.

(** ** services/config_backup.py: importing a configuration *)

Module ConfigImport.
Import ConfigBackup.

(** The dictionary [import_config] returns. *)
Record import_result : Type := mkImport {
  import_success : bool;
  import_message : string
}.

Section ImportConfig.
Variable World : Type.
Variable run_command : string -> World -> CommandResult * World.
Variable create_snapshot : string -> string -> World -> ConfigSnapshot * World.

Notation "'do' x <- m ; k" := (bind World m (fun x => k))
  (at level 10, x name, m at level 100, k at level 200).
Notation "m ;; k" := (bind World m (fun _ => k))
  (at level 100, k at level 200, right associativity).

(** [for line in config.split("\n")] of [import_config]: every
    line that is not blank and not a comment is sent in a
    configuration session of its own; the results are not read. *)
Fixpoint import_lines (lines : list string) : M World unit :=
  match lines with
  | [] => ret World tt
  | line :: rest =>
      let line := strip line in
      if negb (String.eqb line "") && negb (startswith line "#") then
        execute World run_command
          ("configure" +:+ String newline ("set " +:+ line) +:+ String newline "commit"
           +:+ String newline "exit") ;;
        import_lines rest
      else import_lines rest
  end.

(** [import_config(config, format, dry_run)]; [uuid] is what
    [uuid.uuid4()] prints and [stamp] the formatted reading of the
    clock, both taken when the code reaches them. *)
Definition import_config (config : string) (format : BackupFormat) (dry_run : bool)
    (uuid stamp : string) : M World import_result :=
  try_except World
    (if dry_run then ret World (mkImport true "Configuration validation successful")
     else
       let temp_file := "/tmp/config_import_" +:+ uuid +:+ "." +:+ format_value format in
       execute World run_command
         ("cat << 'EOF' > " +:+ temp_file +:+ String newline config +:+ String newline "EOF") ;;
       do safety <- lift World (create_snapshot ("pre-import-" +:+ stamp)
                                  "Automatic backup before config import") ;
       await_snapshot World safety ;;
       import_lines (split_on newline config) ;;
       execute World run_command "save" ;;
       execute World run_command ("rm -f " +:+ temp_file) ;;
       ret World (mkImport true "Configuration imported successfully"))
    (fun e => ret World (mkImport false (str_of_exn e))).

(** The call from a state in which nothing has been sent yet. *)
Definition run_import (config : string) (format : BackupFormat) (dry_run : bool)
    (uuid stamp : string) (w : World) : (exn + import_result) * state World :=
  import_config config format dry_run uuid stamp (mkState World w []).
End ImportConfig.
End ConfigImport.

(** ** services/vyos_command.py: executing a command with retries *)

Module VyosCommand.
(** [class CommandStatus] *)
Inductive CommandStatus : Type := SUCCESS | FAILED | TIMEOUT | ERROR.

Definition status_eqb (a b : CommandStatus) : bool :=
  match a, b with
  | SUCCESS, SUCCESS | FAILED, FAILED | TIMEOUT, TIMEOUT | ERROR, ERROR => true
  | _, _ => false
  end.

(** What [execute] does to the outside, in order: a command handed
    to the SSH client, or a sleep of so many seconds. *)
Inductive event : Type :=
  | Attempt (command : string) (timeout : Z)
  | Sleep (delay : Z).

(** What propagates out of [execute]. *)
Inductive exn : Type := UnboundLocalError (name : string).

Section Executor.
(** The device, the connection and the clock. *)
Variable World : Type.
(** A reading of [time.time()], and the difference of two. *)
Variable Time : Type.
Variable elapsed : Time -> Time -> Time.
Variable time_time : World -> Time * World.
Variable time_sleep : Z -> World -> World.
(** The body of the [try] up to the decoded output: connecting when
    needed, [exec_command], [recv_exit_status] and the two reads.  It
    gives the exit code with the decoded standard output and error, or
    [str(e)] of the exception [e] it raised, a [CommandTimeoutError]
    or any other [Exception]. *)
Variable run_remote : string -> Z -> World -> (string + Z * string * string) * World.

(** [class CommandResult] *)
Record CommandResult : Type := mkCommandResult {
  status : CommandStatus;
  stdout : string;
  stderr : string;
  exit_code : Z;
  command : string;
  execution_time : Time;
  retry_count : Z
}.

Record state : Type := mkState {
  world : World;
  trace : list event
}.

(** Both [except] clauses: the error is kept, the counter goes up,
    and the loop sleeps when another round follows. *)
Definition after_error (retries retry_count : Z) (st : state) : Z * state :=
  let retry_count := (retry_count + 1)%Z in
  if (retry_count <=? retries)%Z then
    let delay := Z.min (2 ^ retry_count) 10 in
    (retry_count, mkState (time_sleep delay (world st)) (trace st ++ [Sleep delay]))
  else (retry_count, st).

(** The [while retry_count <= retries] loop and what follows it;
    [fuel] bounds the number of rounds, and [None] means that it did
    not suffice.  [start_time] is [None] as long as the name is
    unbound. *)
Fixpoint execute_loop (fuel : nat) (cmd : string) (timeout retries : Z)
    (raise_on_error : bool) (retry_count : Z) (last_error : option string)
    (start_time : option Time) (st : state) : option (exn + CommandResult) * state :=
  if (retry_count <=? retries)%Z then
    match fuel with
    | O => (None, st)
    | S fuel =>
        let '(t0, w) := time_time (world st) in
        let '(outcome, w) := run_remote cmd timeout w in
        let st := mkState w (trace st ++ [Attempt cmd timeout]) in
        match outcome with
        | inr (code, out, err) =>
            let stdout_text := strip out in
            let stderr_text := strip err in
            let '(t1, w) := time_time (world st) in
            let st := mkState w (trace st) in
            let status := if (code =? 0)%Z then SUCCESS else FAILED in
            let result :=
              mkCommandResult status stdout_text stderr_text code cmd (elapsed t1 t0)
                              retry_count in
            if status_eqb status FAILED && raise_on_error then
              let e := "Command failed: " +:+ cmd +:+ String newline "Stderr: "
                       +:+ stderr_text in
              let '(retry_count, st) := after_error retries retry_count st in
              execute_loop fuel cmd timeout retries raise_on_error retry_count (Some e)
                           (Some t0) st
            else (Some (inr result), st)
        | inl e =>
            let '(retry_count, st) := after_error retries retry_count st in
            execute_loop fuel cmd timeout retries raise_on_error retry_count (Some e)
                         (Some t0) st
        end
    end
  else
    match start_time with
    | None => (Some (inl (UnboundLocalError "start_time")), st)
    | Some t0 =>
        let '(t1, w) := time_time (world st) in
        (Some (inr (mkCommandResult ERROR ""
                      (match last_error with Some e => e | None => "Unknown error" end)
                      (-1) cmd (elapsed t1 t0) retry_count)),
         mkState w (trace st))
    end.

(** [execute(command, timeout, retries, raise_on_error)] of an
    executor with the given [default_timeout] and [max_retries], in a
    state that may hold the trace of earlier calls. *)
Definition execute_in (default_timeout max_retries : Z) (cmd : string)
    (timeout retries : option Z) (raise_on_error : bool) (st : state)
    : option (exn + CommandResult) * state :=
  let timeout :=
    match timeout with
    | Some t => if (t =? 0)%Z then default_timeout else t
    | None => default_timeout
    end in
  let retries := match retries with Some r => r | None => max_retries end in
  execute_loop (Z.to_nat (retries + 1)) cmd timeout retries raise_on_error 0 None None st.

(** The call on its own. *)
Definition execute (default_timeout max_retries : Z) (cmd : string)
    (timeout retries : option Z) (raise_on_error : bool) (w : World)
    : option (exn + CommandResult) * state :=
  execute_in default_timeout max_retries cmd timeout retries raise_on_error (mkState w []).

Definition wrapper : string := "/opt/vyatta/sbin/vyatta-cfg-cmd-wrapper".

(** The command line [configure] builds for one command. *)
Definition wrapped (cmd : string) : string :=
  if startswith cmd "set " || startswith cmd "delete "
  then wrapper +:+ " " +:+ cmd
  else wrapper +:+ " set " +:+ cmd.

(** [for cmd in commands] of [configure]; [last_result] is [None]
    until a command has run. *)
Fixpoint configure_loop (default_timeout max_retries : Z) (commands : list string)
    (last_result : option CommandResult) (st : state)
    : option (exn + option CommandResult) * state :=
  match commands with
  | [] => (Some (inr last_result), st)
  | cmd :: rest =>
      match execute_in default_timeout max_retries (wrapped cmd) None None false st with
      | (Some (inr result), st) =>
          configure_loop default_timeout max_retries rest (Some result) st
      | (Some (inl e), st) => (Some (inl e), st)
      | (None, st) => (None, st)
      end
  end.

(** The [0] that [configure] gives as [execution_time]. *)
Variable time_zero : Time.

(** [configure(commands)]; [commands] is one string or a list. *)
Definition configure (default_timeout max_retries : Z) (commands : string + list string)
    (w : World) : option (exn + CommandResult) * state :=
  let commands := match commands with inl c => [c] | inr cs => cs end in
  match configure_loop default_timeout max_retries commands None (mkState w []) with
  | (Some (inr (Some last_result)), st) =>
      if status_eqb (status last_result) SUCCESS then
        match execute_in default_timeout max_retries (wrapper +:+ " commit") None None
                         false st with
        | (Some (inr _), st) => (Some (inr last_result), st)
        | (Some (inl e), st) => (Some (inl e), st)
        | (None, st) => (None, st)
        end
      else (Some (inr last_result), st)
  | (Some (inr None), st) =>
      (Some (inr (mkCommandResult ERROR "" "No commands executed" (-1) "" time_zero 0)), st)
  | (Some (inl e), st) => (Some (inl e), st)
  | (None, st) => (None, st)
  end.
End Executor.
End VyosCommand.

Module ExecutorSpec.
Import VyosCommand.

(** The trace of [k] failed rounds, the first at counter
    [retry_count]: an attempt each, and a sleep after it unless it was
    the last round allowed. *)
Fixpoint failed_rounds (cmd : string) (timeout retries retry_count : Z) (k : nat)
    : list event :=
  match k with
  | O => []
  | S k =>
      Attempt cmd timeout ::
      (if (retry_count + 1 <=? retries)%Z
       then [Sleep (Z.min (2 ^ (retry_count + 1)) 10)] else [])
      ++ failed_rounds cmd timeout retries (retry_count + 1) k
  end.

Definition is_sleep (e : event) : bool :=
  match e with Sleep _ => true | Attempt _ _ => false end.

Definition delay_of (e : event) : Z :=
  match e with Sleep d => d | Attempt _ _ => 0 end.

(** A device on which every command fails with exit code 1, and one
    that cannot be reached. *)
Definition failing_device (cmd : string) (timeout : Z) (w : unit)
    : (string + Z * string * string) * unit :=
  (inr (1%Z, "", "denied"), w).

Definition unreachable_device (cmd : string) (timeout : Z) (w : unit)
    : (string + Z * string * string) * unit :=
  (inl "connection refused", w).

Definition still_clock (w : unit) : unit * unit := (tt, w).
Definition no_elapsed (a b : unit) : unit := tt.
Definition no_sleep (d : Z) (w : unit) : unit := w.
End ExecutorSpec.

(** ** services/config_backup.py: exporting the command list *)

Module ConfigFormat.
(** [sep.join(parts)] *)
Fixpoint join (sep : string) (parts : list string) : string :=
  match parts with
  | [] => ""
  | p :: rest =>
      match rest with
      | [] => p
      | _ :: _ => p +:+ sep +:+ join sep rest
      end
  end.

(** The test of the three converters on a line:
    [line.strip() and not line.strip().startswith("#")]. *)
Definition is_command (line : string) : bool :=
  negb (String.eqb (strip line) "") && negb (startswith (strip line) "#").

(** [_config_to_yaml(config)] *)
Definition _config_to_yaml (config : string) : string :=
  let lines := split_on newline config in
  let result :=
    fold_left (fun result line =>
                 if is_command line then result ++ ["  - " +:+ strip line] else result)
              lines ["vyos-configuration:"] in
  join (String newline "") result.

(** [_config_to_xml(config)] *)
Definition _config_to_xml (config : string) : string :=
  let lines := split_on newline config in
  let result :=
    fold_left (fun result line =>
                 if is_command line
                 then result ++ ["  <command>" +:+ strip line +:+ "</command>"]
                 else result)
              lines ["<vyos-configuration>"] in
  let result := result ++ ["</vyos-configuration>"] in
  join (String newline "") result.
End ConfigFormat.

Module FormatSpec.
Import ConfigFormat.
(** The commands of a configuration text: its lines without their
    margins, blank lines and comment lines left out. *)
Definition commands_of (config : string) : list string :=
  map strip (List.filter is_command (split_on newline config)).
End FormatSpec.

(** ** services/config_backup.py: the snapshot store behind a restore *)

Module ConfigBackupStore.
Import ConfigBackup ConfigFormat.

(** [s.endswith(p)] *)
Fixpoint endswith (s p : string) : bool :=
  String.eqb s p
  || match s with
     | "" => false
     | String _ s' => endswith s' p
     end.

(** [ch in s] *)
Fixpoint contains_char (ch : ascii) (s : string) : bool :=
  match s with
  | "" => false
  | String c s' => Ascii.eqb c ch || contains_char ch s'
  end.

(** [s.split(sep, 1)] for a separator that occurs in [s]: the text
    before and after its first occurrence. *)
Fixpoint split_first (sep : ascii) (s : string) : string * string :=
  match s with
  | "" => ("", "")
  | String c s' =>
      if Ascii.eqb c sep then ("", s')
      else let '(a, b) := split_first sep s' in (String c a, b)
  end.

Fixpoint map_chars (f : ascii -> ascii) (s : string) : string :=
  match s with
  | "" => ""
  | String c s' => String (f c) (map_chars f s')
  end.

(** [s.lower()] on the code points below 256. *)
Definition lower_char (c : ascii) : ascii :=
  let n := N_of_ascii c in
  if (((65 <=? n) && (n <=? 90))
      || ((192 <=? n) && (n <=? 222) && negb (n =? 215)))%N
  then ascii_of_N (n + 32) else c.

Definition str_lower (s : string) : string := map_chars lower_char s.

(** [s.replace(" ", "_")] *)
Definition underscored (s : string) : string :=
  map_chars (fun c => if Ascii.eqb c space then "_"%char else c) s.

Section Store.
(** What lies behind the executor, the clock and [uuid]. *)
Variable Outside : Type.
(** [self.executor.execute(command)], taken to return a
    [CommandResult] each time. *)
Variable device_run : string -> Outside -> CommandResult * Outside.
(** [str(uuid.uuid4())] and [datetime.now()] *)
Variable uuid4 : Outside -> string * Outside.
Variable datetime_now : Outside -> Z * Outside.
(** [hashlib.sha256(text.encode()).hexdigest()] *)
Variable sha256_hex : string -> string.
(** [json.dumps(obj, indent=2)] of the dictionary with the one key
    [configuration] and the given list, and of [snapshot.to_dict()]
    for a snapshot with the given [version_info]. *)
Variable json_configuration : list string -> string.
Variable json_metadata : ConfigSnapshot -> list (string * string) -> string.
(** The [ConfigSnapshot] built from [meta = json.loads(text)] after
    the conversion of its timestamp, format and status; [None] when
    one of these raises.  The files are taken to hold timestamps as
    [_save_snapshot_metadata] writes them, which [sorted] can
    compare. *)
Variable decode_meta : string -> option ConfigSnapshot.
(** [int(word)]; [None] when it raises. *)
Variable py_int : string -> option Z.
Variable backup_dir : string.

(** The outside together with the commands handed to the executor
    so far, by whichever method. *)
Record logged : Type := mkLogged {
  outside : Outside;
  sent : list string
}.

Definition run_logged (command : string) (w : logged) : CommandResult * logged :=
  let '(r, o) := device_run command (outside w) in
  (r, mkLogged o (sent w ++ [command])).

(** [sorted(snapshots, key=lambda x: x.timestamp, reverse=True)] *)
Fixpoint insert_newest (s : ConfigSnapshot) (l : list ConfigSnapshot) : list ConfigSnapshot :=
  match l with
  | [] => [s]
  | s' :: rest =>
      if (timestamp s <? timestamp s')%Z then s' :: insert_newest s rest
      else s :: l
  end.

Definition sort_newest (l : list ConfigSnapshot) : list ConfigSnapshot :=
  foldr insert_newest [] l.

(** One round of [for meta_file in meta_files]. *)
Definition read_meta (acc : list ConfigSnapshot * logged) (meta_file : string)
    : list ConfigSnapshot * logged :=
  let '(snapshots, w) := acc in
  let filepath := backup_dir +:+ "/snapshots/" +:+ meta_file in
  let '(cmd_result, w) := run_logged ("cat " +:+ filepath) w in
  if String.eqb (stdout cmd_result) "" then (snapshots, w)
  else
    match decode_meta (stdout cmd_result) with
    | Some snapshot => (snapshots ++ [snapshot], w)
    | None => (snapshots, w)
    end.

(** [list_snapshots()] *)
Definition list_snapshots (w : logged) : list ConfigSnapshot * logged :=
  let '(result, w) :=
    run_logged ("ls -1 " +:+ backup_dir +:+ "/snapshots 2>/dev/null || echo ''") w in
  let '(snapshots, w) :=
    if String.eqb (stdout result) "" then ([], w)
    else
      let meta_files :=
        List.filter (fun f => endswith f ".meta") (split_on newline (stdout result)) in
      fold_left read_meta meta_files ([], w) in
  (sort_newest snapshots, w).

(** [get_snapshot(snapshot_id)] *)
Definition get_snapshot (snapshot_id : string) (w : logged)
    : option ConfigSnapshot * logged :=
  let '(snapshots, w) := list_snapshots w in
  (List.find (fun snapshot => String.eqb (id snapshot) snapshot_id) snapshots, w).

(** [_get_version_info()] *)
Definition _get_version_info (w : logged) : list (string * string) * logged :=
  let '(result, w) := run_logged "/opt/vyatta/bin/vyatta-op-cmd-wrapper show version" w in
  let version_info :=
    if String.eqb (stdout result) "" then []
    else
      fold_left
        (fun info line =>
           if contains_char ":" line then
             let '(key, value) := split_first ":" line in
             dict_set (underscored (str_lower (strip key))) (strip value) info
           else info)
        (split_on newline (stdout result)) [] in
  (version_info, w).

(** [_config_to_json(config)] *)
Definition _config_to_json (config : string) : string :=
  json_configuration
    (fold_left (fun configuration line =>
                  if is_command line then configuration ++ [strip line] else configuration)
               (split_on newline config) []).

(** [_format_config(config, format)] *)
Definition _format_config (config : string) (format : BackupFormat) : string :=
  match format with
  | VYOS => config
  | JSON => _config_to_json config
  | YAML => _config_to_yaml config
  | XML => _config_to_xml config
  | TAR => config
  end.

(** [_save_snapshot_metadata(snapshot)] *)
Definition _save_snapshot_metadata (snapshot : ConfigSnapshot)
    (version_info : list (string * string)) (w : logged) : logged :=
  let metadata_file := backup_dir +:+ "/snapshots/" +:+ id snapshot +:+ ".meta" in
  snd (run_logged ("cat << 'META_EOF' > " +:+ metadata_file
                   +:+ String newline (json_metadata snapshot version_info)
                   +:+ String newline "META_EOF") w).

(** [int(size_result.stdout.strip().split()[0])]; [None] when the
    index or the conversion raises. *)
Definition size_of (out : string) : option Z :=
  match split_ws (strip out) with
  | [] => None
  | word :: _ => py_int word
  end.

(** [create_snapshot(name, description, format)] *)
Definition create_snapshot (name description : string) (format : BackupFormat)
    (w : logged) : ConfigSnapshot * logged :=
  let '(snapshot_id, o) := uuid4 (outside w) in
  let '(now, o) := datetime_now o in
  let w := mkLogged o (sent w) in
  let '(result, w) :=
    run_logged "/opt/vyatta/bin/vyatta-op-cmd-wrapper show configuration commands" w in
  let config_content := stdout result in
  let '(version_info, w) := _get_version_info w in
  let formatted_config := _format_config config_content format in
  let checksum := sha256_hex formatted_config in
  let filepath :=
    backup_dir +:+ "/snapshots/" +:+ snapshot_id +:+ "." +:+ format_value format in
  let '(_, w) :=
    run_logged ("cat << 'EOF' > " +:+ filepath +:+ String newline formatted_config
                +:+ String newline "EOF") w in
  let '(size_result, w) := run_logged ("wc -c " +:+ filepath) w in
  match (if String.eqb (stdout size_result) "" then Some 0%Z
         else size_of (stdout size_result)) with
  | Some size =>
      let snapshot :=
        mkSnapshot snapshot_id name description now format size checksum COMPLETED in
      (snapshot, _save_snapshot_metadata snapshot version_info w)
  | None => (mkSnapshot snapshot_id name description now format 0 "" FAILED, w)
  end.

(** [restore_from_snapshot(snapshot_id, dry_run)] of a manager on
    this store: the body above, with [get_snapshot] and
    [create_snapshot] as the store has them. *)
Definition restore_from_snapshot (snapshot_id : string) (dry_run : bool) (w : logged)
    : (exn + restore_result) * state logged :=
  run_restore logged run_logged get_snapshot
    (fun name description => create_snapshot name description VYOS)
    backup_dir snapshot_id dry_run w.
End Store.
End ConfigBackupStore.

Module StoreLogSpec.
(** The commands that read the store or the running configuration,
    or write a file of the backup directory. *)
Definition bookkeeping (command : string) : bool :=
  startswith command "ls -1 " || startswith command "cat " || startswith command "wc -c "
  || startswith command "/opt/vyatta/bin/vyatta-op-cmd-wrapper show ".

(** The commands of the restore transaction. *)
Definition transaction_command (command : string) : bool :=
  startswith command "set "
  || String.eqb command "configure" || String.eqb command "commit"
  || String.eqb command "discard" || String.eqb command "exit"
  || String.eqb command "save".

(** The log [after] is the log [before] with commands of the first
    kind added, and none of the second. *)
Definition only_bookkeeping (before after : list string) : Prop :=
  exists added,
    after = before ++ added /\
    Forall (fun c => bookkeeping c = true /\ transaction_command c = false) added.

(** A device whose store lists one snapshot. *)
Definition one_snapshot_device (command : string) (w : unit)
    : ConfigBackup.CommandResult * unit :=
  if startswith command "ls " then (ConfigBackup.mkResult "abc.meta" "" 0, w)
  else (ConfigBackup.mkResult "system host-name vyos" "" 0, w).

Definition abc_meta (text : string) : option ConfigBackup.ConfigSnapshot :=
  Some (ConfigBackup.mkSnapshot "abc" "nightly" "" 0 ConfigBackup.VYOS 21 ""
          ConfigBackup.COMPLETED).
End StoreLogSpec.

(* ===================================================================== *)
(** * Part II: properties                                                *)
(* ===================================================================== *)

(** ** Association lists *)

Section DictFacts.
Context {A : Type}.
Implicit Types (d : list (string * A)) (k : string).

Lemma dict_contains_get k d :
  dict_contains k d = true <-> exists v, dict_get k d = Some v.
Proof.
  unfold dict_contains. destruct (dict_get k d) as [v|].
  - split; eauto.
  - split; [discriminate|]. intros [v Hv]. discriminate.
Qed.

Lemma dict_get_app_fresh k d d' :
  dict_contains k d = false -> dict_get k (d ++ d') = dict_get k d'.
Proof.
  unfold dict_contains. induction d as [|[k' v] d IH]; simpl; [done|].
  destruct (String.eqb k k'); [done|]. exact IH.
Qed.

Lemma dict_set_fresh k v d :
  dict_contains k d = false -> dict_set k v d = d ++ [(k, v)].
Proof.
  unfold dict_contains. induction d as [|[k' v'] d IH]; simpl; [done|].
  destruct (String.eqb k k'); [done|]. intros H. by rewrite IH.
Qed.

Lemma dict_set_last k v v' d :
  dict_contains k d = false -> dict_set k v' (d ++ [(k, v)]) = d ++ [(k, v')].
Proof.
  unfold dict_contains. induction d as [|[k' w] d IH]; simpl.
  - by rewrite String.eqb_refl.
  - destruct (String.eqb k k'); [done|]. intros H. by rewrite IH.
Qed.

Lemma dict_get_last k v d :
  dict_contains k d = false -> dict_get k (d ++ [(k, v)]) = Some v.
Proof.
  intros H. rewrite dict_get_app_fresh by done. simpl. by rewrite String.eqb_refl.
Qed.

Lemma dict_contains_app k d d' :
  dict_contains k (d ++ d') = dict_contains k d || dict_contains k d'.
Proof.
  unfold dict_contains. induction d as [|[k' v] d IH]; simpl; [done|].
  destruct (String.eqb k k'); [done|]. exact IH.
Qed.

Lemma dict_set_length_present k v d :
  dict_contains k d = true -> length (dict_set k v d) = length d.
Proof.
  unfold dict_contains. induction d as [|[k' w] d IH]; simpl; [done|].
  destruct (String.eqb k k'); [done|]. intros H. simpl. by rewrite IH.
Qed.

Lemma dict_get_In k v d : dict_get k d = Some v -> In (k, v) d.
Proof.
  induction d as [|[k' w] d IH]; simpl; [done|].
  destruct (String.eqb_spec k k') as [->|_].
  - intros [= ->]. by left.
  - intros H. right. by apply IH.
Qed.

Lemma dict_set_In k v d kv :
  In kv (dict_set k v d) -> In kv d \/ kv = (k, v).
Proof.
  induction d as [|[k' w] d IH]; simpl.
  - intros [<-|[]]. by right.
  - destruct (String.eqb_spec k k') as [->|_]; simpl.
    + intros [<-|H]; [by right | by left; right].
    + intros [<-|H]; [by left; left|]. destruct (IH H); [left; by right | by right].
Qed.
End DictFacts.

(** ** The configuration tree *)

Section TreeFacts.
Context {V : Type}.
Implicit Types (node n : ConfigNode V) (cs : list (string * ConfigNode V)).

(** Induction on a tree, with the hypothesis for every child. *)
Lemma ConfigNode_tree_ind (P : ConfigNode V -> Prop) :
  (forall p v cs d c, Forall (fun kv => P (snd kv)) cs -> P (mkNode p v cs d c)) ->
  forall n, P n.
Proof.
  intros H. fix IH 1. intros [p v cs d c]. apply H.
  induction cs as [|[k ch] cs IHcs]; constructor; [apply IH | exact IHcs].
Qed.

Lemma pyval_tree_ind (P : pyval V -> Prop) :
  P PNone -> (forall x, P (PScalar x)) ->
  (forall items, Forall (fun kv => P (snd kv)) items -> P (PDict items)) ->
  forall v, P v.
Proof.
  intros H0 H1 H2. fix IH 1. intros [|x|items]; [exact H0 | apply H1 | apply H2].
  induction items as [|[k v] items IHitems]; constructor; [apply IH | exact IHitems].
Qed.

Lemma flatten_unfold n prefix result :
  _flatten n prefix result = flatten_items prefix (children n) result.
Proof. destruct n; reflexivity. Qed.

Lemma to_dict_unfold n : to_dict n = to_dict_items (children n) [].
Proof. destruct n; reflexivity. Qed.

Lemma populate_unfold n items :
  _populate_entry n (PDict items) = populate_items n items.
Proof. reflexivity. Qed.

Lemma exclusive_unfold n :
  exclusive n =
  (match value n, children n with Some _, _ :: _ => false | _, _ => true end)
  && forallb (fun kv => exclusive (snd kv)) (children n).
Proof.
  destruct n as [p v cs d c]. simpl. f_equal.
  induction cs as [|[k ch] cs IH]; simpl; [done|]. by rewrite IH.
Qed.
End TreeFacts.

(** ** Value and children of a node *)

Section Exclusivity.
Context {V : Type}.
Implicit Types (t n : ConfigNode V) (cs : list (string * ConfigNode V)).

Lemma forallb_dict_set (P : ConfigNode V -> bool) k c cs :
  forallb (fun kv => P (snd kv)) cs = true -> P c = true ->
  forallb (fun kv => P (snd kv)) (dict_set k c cs) = true.
Proof.
  intros Hcs Hc. induction cs as [|[k' c'] cs IH]; simpl in *.
  - by rewrite Hc.
  - apply andb_prop in Hcs as [H1 H2].
    destruct (String.eqb k k'); simpl; [by rewrite Hc | rewrite H1; by apply IH].
Qed.

Lemma forallb_dict_get (P : ConfigNode V -> bool) k c cs :
  forallb (fun kv => P (snd kv)) cs = true -> dict_get k cs = Some c -> P c = true.
Proof.
  intros Hcs Hk. apply dict_get_In in Hk.
  rewrite forallb_forall in Hcs. exact (Hcs _ Hk).
Qed.

Lemma exclusive_set_value n v : exclusive (set_value n v) = true.
Proof. rewrite exclusive_unfold. simpl. by destruct v. Qed.

Lemma exclusive_add_child n name :
  exclusive n = true -> value n = None -> exclusive (add_child n name) = true.
Proof.
  intros Hn Hv. unfold add_child.
  destruct (dict_contains name (children n)); [done|].
  rewrite exclusive_unfold in Hn |- *. simpl. rewrite Hv in *. simpl in *.
  by apply forallb_dict_set.
Qed.

Lemma exclusive_update_at target : forall t f,
  exclusive t = true ->
  (forall n, get_child t target = Some n -> exclusive n = true -> exclusive (f n) = true) ->
  exclusive (update_at t target f) = true.
Proof.
  induction target as [|k target IH]; intros t f Ht Hf; simpl.
  - by apply Hf.
  - destruct (dict_get k (children t)) as [c|] eqn:E; [|done].
    pose proof Ht as Ht'. rewrite exclusive_unfold in Ht'.
    apply andb_prop in Ht' as [Hshape Hall].
    rewrite exclusive_unfold. simpl. apply andb_true_intro. split.
    + destruct (value t); [|done].
      destruct (children t); [discriminate E | discriminate Hshape].
    + apply forallb_dict_set; [done|].
      apply IH; [by eapply forallb_dict_get|].
      intros n Hn. apply Hf. simpl. by rewrite E.
Qed.

Lemma exclusive_apply_op t op :
  exclusive t = true -> on_valueless t op = true -> exclusive (apply_op t op) = true.
Proof.
  intros Ht Hop. destruct op as [target v|target name]; simpl in *.
  - apply exclusive_update_at; [done|]. intros. apply exclusive_set_value.
  - apply exclusive_update_at; [done|]. intros n Hn Hex.
    rewrite Hn in Hop. apply exclusive_add_child; [done|].
    by destruct (value n).
Qed.
End Exclusivity.

(** What does hold: [set_value] empties the children of its node,
    and a tree in which no node has both a value and children stays
    such under [set_value] and under every [add_child] on a node that
    holds no value. *)
Lemma exclusive_without_add_on_value {V : Type} (t : ConfigNode V) (ops : list tree_op) :
  exclusive t = true ->
  all_on_valueless ops t = true ->
  exclusive (run_ops ops t) = true.
Proof.
  revert t. induction ops as [|op ops IH]; intros t Ht Hops; simpl in *; [done|].
  apply andb_prop in Hops as [Hop Hrest].
  apply IH; [by apply exclusive_apply_op | done].
Qed.

(** C2 (the code departs from it): [set_value] clears the children of
    its node, as its docstring says, but [add_child] does not clear
    the value of a node that holds one: it returns or creates the
    child and leaves the value where it is.  After [add_child] of [a],
    [set_value] of [x] on [a] and [add_child] of [b] on [a], the node
    [a] holds the value and the child; and the parser itself gets
    there, since [_apply_command] walks down with [add_child]: after
    the lines [set a x] and [delete a b c] the node [a] of the tree has
    the value [x] and the child [b]. *)
Theorem add_child_keeps_value :
  (forall (n : ConfigNode string) (v : option string),
     (value (set_value n v) = v) /\ (children (set_value n v) = [])) /\
  (forall (n : ConfigNode string) (name : string),
     (value (add_child n name) = value n) /\ (children (add_child n name) <> [])) /\
  (let ops := [AddChild [] "a"; SetValue ["a"] (Some "x"); AddChild ["a"] "b"] in
   let t := run_ops ops (new_node (V := string) []) in
   exclusive t = false /\
   (value <$> get_child t ["a"]) = Some (Some "x") /\
   (dict_keys <$> (children <$> get_child t ["a"])) = Some ["b"]) /\
  (let t := parse_config ("set a x" +:+ nl +:+ "delete a b c") in
   exclusive t = false /\
   (value <$> get_child t ["a"]) = Some (Some "x") /\
   (dict_keys <$> (children <$> get_child t ["a"])) = Some ["b"]).
Proof.
  split; [by intros|]. split; [|split; [by repeat split | by vm_compute]].
  intros n name. unfold add_child, dict_contains.
  destruct (dict_get name (children n)) as [c|] eqn:E.
  - split; [done|]. intros Hnil. by rewrite Hnil in E.
  - split; [done|]. cbn [children with_children].
    destruct (children n) as [|[k c] cs]; [done|]. simpl.
    by destruct (String.eqb name k).
Qed.

(** ** from_dict and to_dict *)

Section RoundTrip.
Context {V : Type}.
Implicit Types (n node : ConfigNode V) (data items : list (string * pyval V)).

Lemma with_children_same n : with_children n (children n) = n.
Proof. by destruct n. Qed.

Lemma keys_unique_cons {A : Type} k (v : A) (d : list (string * A)) :
  keys_unique ((k, v) :: d) = true ->
  dict_contains k d = false /\ keys_unique d = true.
Proof.
  simpl. intros H. apply andb_prop in H as [H1 H2]. split; [|done].
  by destruct (dict_contains k d).
Qed.

Lemma dict_contains_cons {A : Type} k k' (v : A) (d : list (string * A)) :
  dict_contains k ((k', v) :: d) = String.eqb k k' || dict_contains k d.
Proof. unfold dict_contains. simpl. by destruct (String.eqb k k'). Qed.

Lemma populate_items_children data : forall node,
  keys_unique data = true ->
  (forall k, dict_contains k data = true -> dict_contains k (children node) = false) ->
  populate_items node data =
  with_children node (children node ++ map (built (path node)) data).
Proof.
  induction data as [|[k v] data IH]; intros node Hu Hfresh.
  - simpl. by rewrite app_nil_r, with_children_same.
  - apply keys_unique_cons in Hu as [Hk Hu].
    assert (Hnew : dict_contains k (children node) = false).
    { apply Hfresh. rewrite dict_contains_cons, String.eqb_refl. done. }
    change (populate_items node ((k, v) :: data))
      with (populate_items (on_child node k (fun c => _populate_entry c v)) data).
    assert (Hstep : on_child node k (fun c => _populate_entry c v)
                    = with_children node (children node ++ [built (path node) (k, v)])).
    { unfold on_child, add_child. rewrite Hnew. simpl.
      rewrite dict_set_fresh by done. rewrite dict_get_last by done.
      by rewrite dict_set_last. }
    rewrite Hstep. rewrite IH; [| done |].
    + simpl. by rewrite <- app_assoc.
    + intros k' Hk'. simpl. rewrite dict_contains_app.
      rewrite Hfresh by (rewrite dict_contains_cons, Hk'; by rewrite orb_true_r).
      rewrite orb_false_l. unfold built. rewrite dict_contains_cons. cbn [fst].
      destruct (String.eqb_spec k' k) as [->|_]; [congruence|done].
Qed.

Lemma kept_entry_unfold items :
  kept_entry (PDict items) =
  (match items with [] => false | _ :: _ => true end)
  && keys_unique items && forallb (fun kv => kept_entry (snd kv)) items.
Proof.
  simpl. f_equal. induction items as [|[k v] items IH]; simpl; [done|]. by rewrite IH.
Qed.

Lemma to_dict_items_built p data : forall acc,
  keys_unique data = true ->
  (forall k, dict_contains k data = true -> dict_contains k acc = false) ->
  Forall (fun kv => forall q, exports (V := V) q (snd kv)) data ->
  to_dict_items (map (built p) data) acc = acc ++ data.
Proof.
  induction data as [|[k v] data IH]; intros acc Hu Hfresh Hall.
  - simpl. by rewrite app_nil_r.
  - apply keys_unique_cons in Hu as [Hk Hu].
    apply Forall_cons in Hall as [Hv Hall].
    assert (Hnew : dict_contains k acc = false).
    { apply Hfresh. by rewrite dict_contains_cons, String.eqb_refl. }
    assert (Hrest : forall e k', dict_contains k' data = true ->
                                 dict_contains k' (acc ++ [(k, e)]) = false).
    { intros e k' Hk'. rewrite dict_contains_app.
      rewrite Hfresh by (rewrite dict_contains_cons, Hk'; by rewrite orb_true_r).
      rewrite orb_false_l, dict_contains_cons.
      destruct (String.eqb_spec k' k) as [->|_]; [congruence|done]. }
    destruct (Hv (p ++ [k])) as [Hdel Hshape]. simpl in Hdel, Hshape.
    cbn [map to_dict_items built fst snd]. rewrite Hdel.
    destruct v as [|x|items]; [done| |].
    + rewrite Hshape. rewrite dict_set_fresh by done.
      rewrite IH by eauto. by rewrite <- app_assoc.
    + destruct Hshape as (Hval & Hchildren & Hdict). rewrite Hval.
      destruct (children _) eqn:E; [done|].
      rewrite Hdict. rewrite dict_set_fresh by done.
      rewrite IH by eauto. by rewrite <- app_assoc.
Qed.

Lemma kept_entry_exports (v : pyval V) : kept_entry v = true -> forall p, exports p v.
Proof.
  induction v as [|x|items IH] using pyval_tree_ind; intros Hk p; [done|by split|].
  rewrite kept_entry_unfold in Hk.
  apply andb_prop in Hk as [Hk Hall]. apply andb_prop in Hk as [Hne Hu].
  unfold exports. rewrite populate_unfold.
  rewrite populate_items_children by (done || (intros; reflexivity)).
  split; [done|]. split; [done|]. split.
  - simpl. by destruct items.
  - rewrite to_dict_unfold. cbn [children with_children new_node app].
    rewrite to_dict_items_built; [done | done | by intros |].
    rewrite forallb_forall in Hall. rewrite Forall_forall in IH |- *.
    intros kv Hin. apply IH; [done|]. apply Hall. by apply list_elem_of_In.
Qed.
Lemma prune_entry_dict items :
  prune_entry (PDict items)
  = match items with [] => None | _ :: _ => Some (PDict (prune_items items)) end.
Proof. by destruct items. Qed.

Lemma prune_items_length items : length (prune_items items) <= length items.
Proof.
  induction items as [|[k v] items IH]; simpl; [lia|].
  destruct (prune_entry v); simpl; lia.
Qed.

Lemma well_keyed_dict items :
  well_keyed (PDict items) = true ->
  keys_unique items = true /\ Forall (fun kv => well_keyed (snd kv) = true) items.
Proof.
  simpl. intros [Hu Hall]%andb_prop. split; [done|]. clear Hu.
  induction items as [|[k v] items IH]; [constructor|].
  apply andb_prop in Hall as [Hv Hall]. constructor; [done | by apply IH].
Qed.

Lemma to_dict_items_pruned p data : forall acc,
  keys_unique data = true ->
  (forall k, dict_contains k data = true -> dict_contains k acc = false) ->
  Forall (fun kv => forall q, pruned_view q (snd kv)) data ->
  to_dict_items (map (built p) data) acc = acc ++ prune_items data.
Proof.
  induction data as [|[k v] data IH]; intros acc Hu Hfresh Hall.
  - simpl. by rewrite app_nil_r.
  - apply keys_unique_cons in Hu as [Hk Hu].
    apply Forall_cons in Hall as [Hv Hall].
    assert (Hnew : dict_contains k acc = false).
    { apply Hfresh. by rewrite dict_contains_cons, String.eqb_refl. }
    assert (Hold : forall k', dict_contains k' data = true -> dict_contains k' acc = false).
    { intros k' Hk'. apply Hfresh. rewrite dict_contains_cons, Hk'. by rewrite orb_true_r. }
    assert (Hrest : forall e k', dict_contains k' data = true ->
                                 dict_contains k' (acc ++ [(k, e)]) = false).
    { intros e k' Hk'. rewrite dict_contains_app, (Hold k' Hk').
      rewrite orb_false_l, dict_contains_cons.
      destruct (String.eqb_spec k' k) as [->|_]; [congruence|done]. }
    destruct (Hv (p ++ [k])) as [Hdel Hshape]. simpl in Hdel, Hshape.
    cbn [map to_dict_items built fst snd prune_items]. rewrite Hdel.
    destruct v as [|x|items].
    + destruct Hshape as [Hval Hnone]. rewrite Hval, Hnone. by apply IH.
    + rewrite Hshape. rewrite dict_set_fresh by done.
      rewrite IH by eauto. cbn [prune_entry]. by rewrite <- app_assoc.
    + destruct Hshape as (Hval & Hempty & Hdict). rewrite Hval, prune_entry_dict.
      destruct items as [|i items].
      * rewrite (proj2 Hempty eq_refl). by apply IH.
      * assert (Hne : children (_populate_entry (new_node (p ++ [k])) (PDict (i :: items)))
                      <> []) by (intros E; by apply Hempty in E).
        destruct (children _) eqn:E; [done|].
        rewrite Hdict. rewrite dict_set_fresh by done.
        rewrite IH by eauto. by rewrite <- app_assoc.
Qed.

Lemma well_keyed_pruned_view (v : pyval V) :
  well_keyed v = true -> forall p, pruned_view p v.
Proof.
  induction v as [|x|items IH] using pyval_tree_ind; intros Hk p; [done|by split|].
  apply well_keyed_dict in Hk as [Hu Hall].
  unfold pruned_view. rewrite populate_unfold.
  rewrite populate_items_children by (done || (intros; reflexivity)).
  split; [done|]. split; [done|]. split.
  - simpl. by destruct items.
  - rewrite to_dict_unfold. cbn [children with_children new_node app].
    rewrite to_dict_items_pruned; [done | done | by intros |].
    rewrite Forall_forall in IH, Hall |- *.
    intros kv Hin. apply IH; [done|]. by apply Hall.
Qed.

Lemma from_dict_prunes data :
  well_keyed (PDict data) = true -> to_dict (from_dict data) = prune_items data.
Proof.
  intros Hk. destruct (well_keyed_pruned_view (PDict data) Hk []) as (_ & _ & _ & Hdict).
  exact Hdict.
Qed.

(** An entry that pruning leaves as it is holds neither [None] nor
    an empty dictionary. *)
Lemma prune_items_fixed_all (l : list (string * pyval V)) :
  Forall (fun kv => well_keyed (snd kv) = true -> prune_entry (snd kv) = Some (snd kv) ->
                    kept_entry (snd kv) = true) l ->
  Forall (fun kv => well_keyed (snd kv) = true) l ->
  prune_items l = l ->
  forallb (fun kv => kept_entry (snd kv)) l = true.
Proof.
  induction l as [|[k v] l IHl]; intros IH Hall Hfix; [done|].
  apply Forall_cons in IH as [IHv IH]. apply Forall_cons in Hall as [Hv Hall].
  simpl in Hfix. destruct (prune_entry v) as [w|] eqn:E.
  - injection Hfix as -> Hfix. cbn [forallb snd] in *. rewrite (IHv Hv E). by apply IHl.
  - exfalso. pose proof (prune_items_length l) as Hlen.
    rewrite Hfix in Hlen. simpl in Hlen. lia.
Qed.

Lemma prune_fixed_kept (v : pyval V) :
  well_keyed v = true -> prune_entry v = Some v -> kept_entry v = true.
Proof.
  induction v as [|x|items IH] using pyval_tree_ind; intros Hk Hfix; [done|done|].
  apply well_keyed_dict in Hk as [Hu Hall].
  rewrite prune_entry_dict in Hfix. rewrite kept_entry_unfold, Hu.
  rewrite (prune_items_fixed_all items); [by destruct items | done | done |].
  destruct items; [done|]. by injection Hfix.
Qed.

Lemma prune_items_fixed data :
  well_keyed (PDict data) = true -> prune_items data = data -> plain_dict data = true.
Proof.
  intros Hk Hfix. pose proof (prune_fixed_kept (PDict data) Hk) as Hkept.
  rewrite prune_entry_dict, kept_entry_unfold in Hkept. unfold plain_dict.
  destruct data as [|i data]; [done|]. rewrite Hfix in Hkept.
  specialize (Hkept eq_refl). by apply andb_prop in Hkept as [[_ ->]%andb_prop ->].
Qed.

Lemma round_trip_plain data : plain_dict data = true -> to_dict (from_dict data) = data.
Proof.
  unfold plain_dict. intros H. apply andb_prop in H as [Hu Hall].
  unfold from_dict, _populate. rewrite populate_unfold.
  rewrite populate_items_children by (done || (intros; reflexivity)).
  rewrite to_dict_unfold. cbn [children with_children new_node app].
  rewrite to_dict_items_built; [done | done | by intros |].
  rewrite forallb_forall in Hall. rewrite Forall_forall.
  intros kv Hin. apply kept_entry_exports. apply Hall. by apply list_elem_of_In.
Qed.
End RoundTrip.

(** C3, as the code has it: for a nested dictionary [m] (its keys
    pairwise different at every level, as in every dictionary),
    [from_dict(m).to_dict()] is [m] without the entries whose value
    is [None] or an empty dictionary, at every depth, the other keys
    in the same order; a nested dictionary that loses all its entries
    this way stays, as an empty dictionary.  So the round trip gives
    [m] back exactly when [m] holds no [None] and no empty nested
    dictionary. *)
Theorem from_dict_to_dict {V : Type} (m : list (string * pyval V)) :
  well_keyed (PDict m) = true ->
  to_dict (from_dict m) = prune_items m /\
  (to_dict (from_dict m) = m <-> plain_dict m = true).
Proof.
  intros Hk. split; [by apply from_dict_prunes|]. split.
  - intros Hround. apply prune_items_fixed; [done|].
    by rewrite <- (from_dict_prunes m Hk).
  - apply round_trip_plain.
Qed.

Lemma from_dict_to_dict_witness :
  let m : list (string * pyval string) :=
    [("interfaces", PDict [("ethernet", PDict [("eth0",
        PDict [("address", PScalar "192.168.1.1/24"); ("description", PNone)])])]);
     ("service", PDict [("ssh", PDict [("port", PNone)]); ("dns", PDict [])]);
     ("system", PDict [("host-name", PScalar "vyos")])] in
  well_keyed (PDict m) = true /\
  to_dict (from_dict m)
  = [("interfaces", PDict [("ethernet", PDict [("eth0",
        PDict [("address", PScalar "192.168.1.1/24")])])]);
     ("service", PDict [("ssh", PDict [])]);
     ("system", PDict [("host-name", PScalar "vyos")])].
Proof.
  intros m. split; [reflexivity|].
  destruct (from_dict_to_dict m) as [Hpruned _]; [reflexivity|].
  rewrite Hpruned. reflexivity.
Defined.

(** C3 as stated fails: an empty nested dictionary and a [None] are
    lost, since [to_dict] emits a child only when it holds a value or
    has children. *)
Lemma empty_nested_map_counterexample :
  let m1 : list (string * pyval string) := [("a", PDict [])] in
  let m2 : list (string * pyval string) := [("a", PNone)] in
  to_dict (from_dict m1) = [] /\ to_dict (from_dict m1) <> m1 /\
  to_dict (from_dict m2) = [] /\ to_dict (from_dict m2) <> m2.
Proof. repeat split; discriminate. Qed.

(** ** The diff engine *)

Section DiffFacts.
Context {V : Type} `{EqDecision V}.
Implicit Types (old_flat new_flat : gmap string V).

Lemma diff_step_over old_flat new_flat x X d :
  x ∉ X -> diff_over old_flat new_flat X d ->
  diff_over old_flat new_flat ({[x]} ∪ X) (diff_step old_flat new_flat x d).
Proof.
  intros Hx Hd key. destruct (Hd key) as (Ha & Hr & Hm).
  unfold diff_step, added_at, removed_at, modified_at in *.
  destruct (decide (key = x)) as [->|Hne].
  - rewrite !decide_True by set_solver.
    rewrite decide_False in Ha by done. rewrite decide_False in Hr by done.
    rewrite decide_False in Hm by done.
    destruct (old_flat !! x) as [o|], (new_flat !! x) as [n|]; simpl;
      try destruct (decide (o = n)); simpl;
      rewrite ?lookup_insert_eq; auto.
  - assert (Hiff : key ∈ {[x]} ∪ X <-> key ∈ X).
    { rewrite elem_of_union, elem_of_singleton. tauto. }
    destruct (decide (key ∈ X)) as [Hin|Hout].
    + rewrite !decide_True by (by apply Hiff).
      destruct (old_flat !! x) as [o|], (new_flat !! x) as [n|]; simpl;
        try destruct (decide (o = n)); simpl;
        rewrite ?lookup_insert_ne by done; auto.
    + rewrite !decide_False by (by rewrite Hiff).
      destruct (old_flat !! x) as [o|], (new_flat !! x) as [n|]; simpl;
        try destruct (decide (o = n)); simpl;
        rewrite ?lookup_insert_ne by done; auto.
Qed.

Lemma set_fold_diff_over old_flat new_flat (X : gset string) :
  diff_over old_flat new_flat X
    (set_fold (diff_step old_flat new_flat) (mkDiff ∅ ∅ ∅) X).
Proof.
  apply (set_fold_ind_L (fun d X => diff_over old_flat new_flat X d)).
  - intros key. simpl. rewrite !lookup_empty. by rewrite !decide_False by set_solver.
  - intros x Y d Hx Hd. by apply diff_step_over.
Qed.

(** What [calculate_diff] holds at every dotted path. *)
Lemma calculate_diff_lookup (a b : ConfigNode V) key :
  added (calculate_diff a b) !! key = added_at (flatten a) (flatten b) key /\
  removed (calculate_diff a b) !! key = removed_at (flatten a) (flatten b) key /\
  modified (calculate_diff a b) !! key = modified_at (flatten a) (flatten b) key.
Proof.
  unfold calculate_diff.
  destruct (set_fold_diff_over (flatten a) (flatten b)
              (dom (flatten a) ∪ dom (flatten b)) key) as (Ha & Hr & Hm).
  rewrite Ha, Hr, Hm. clear Ha Hr Hm.
  destruct (decide (key ∈ dom (flatten a) ∪ dom (flatten b))) as [Hin|Hout]; [done|].
  assert (flatten a !! key = None) as Ho by (apply not_elem_of_dom; set_solver).
  assert (flatten b !! key = None) as Hn by (apply not_elem_of_dom; set_solver).
  unfold added_at, removed_at, modified_at. by rewrite Ho, Hn.
Qed.
End DiffFacts.

(** C5: swapping the two trees swaps [added] with [removed], and
    every [modified] entry [(old, new)] becomes [(new, old)] at the
    same path. *)
Theorem diff_symmetry {V : Type} `{EqDecision V} (a b : ConfigNode V) :
  added (calculate_diff a b) = removed (calculate_diff b a) /\
  removed (calculate_diff a b) = added (calculate_diff b a) /\
  (forall key old_value new_value,
     modified (calculate_diff a b) !! key = Some (old_value, new_value) <->
     modified (calculate_diff b a) !! key = Some (new_value, old_value)).
Proof.
  split; [|split].
  - apply map_eq. intros key.
    destruct (calculate_diff_lookup a b key) as (-> & _ & _).
    destruct (calculate_diff_lookup b a key) as (_ & -> & _).
    unfold added_at, removed_at.
    by destruct (flatten a !! key), (flatten b !! key).
  - apply map_eq. intros key.
    destruct (calculate_diff_lookup a b key) as (_ & -> & _).
    destruct (calculate_diff_lookup b a key) as (-> & _ & _).
    unfold added_at, removed_at.
    by destruct (flatten a !! key), (flatten b !! key).
  - intros key o n.
    destruct (calculate_diff_lookup a b key) as (_ & _ & ->).
    destruct (calculate_diff_lookup b a key) as (_ & _ & ->).
    unfold modified_at.
    destruct (flatten a !! key) as [x|], (flatten b !! key) as [y|];
      try (split; discriminate).
    destruct (decide (x = y)), (decide (y = x)); try congruence;
      split; intros [= -> ->]; reflexivity.
Qed.

(** ** flatten and the tombstones *)

Section FlattenFacts.
Context {V : Type}.
Implicit Types (n node c child : ConfigNode V) (cs : list (string * ConfigNode V)).
Implicit Types (result : gmap string V) (f : ConfigNode V -> ConfigNode V).

Lemma flatten_items_cons prefix name child cs result :
  flatten_items prefix ((name, child) :: cs) result =
  flatten_items prefix cs (child_part prefix name child result).
Proof.
  unfold child_part. simpl. destruct (value child); [done|].
  destruct (children child) eqn:E; [|done].
  by rewrite flatten_unfold, E.
Qed.

Lemma flatten_items_app prefix cs cs' result :
  flatten_items prefix (cs ++ cs') result =
  flatten_items prefix cs' (flatten_items prefix cs result).
Proof.
  revert result. induction cs as [|[k c] cs IH]; intros result; [done|].
  rewrite <- app_comm_cons, !flatten_items_cons. apply IH.
Qed.

Lemma flat_eq_refl n : flat_eq n n.
Proof. by split. Qed.

Lemma flat_eq_trans n1 n2 n3 : flat_eq n1 n2 -> flat_eq n2 n3 -> flat_eq n1 n3.
Proof.
  intros [Hv H] [Hv' H']. split; [congruence|]. intros. by rewrite H, H'.
Qed.

Lemma child_part_flat_eq prefix name c c' result :
  flat_eq c c' -> child_part prefix name c result = child_part prefix name c' result.
Proof.
  intros [Hv H]. unfold child_part. rewrite <- Hv. destruct (value c); [done|]. apply H.
Qed.

Lemma flatten_items_related prefix cs cs' :
  Forall2 same_key_flat_eq cs cs' ->
  forall result, flatten_items prefix cs result = flatten_items prefix cs' result.
Proof.
  induction 1 as [|[k c] [k' c'] cs cs' [Hk Hc] _ IH]; intros result; [done|].
  simpl in Hk. subst k'. rewrite !flatten_items_cons.
  rewrite (child_part_flat_eq _ _ c c') by done. apply IH.
Qed.

Lemma related_refl cs : Forall2 same_key_flat_eq cs cs.
Proof. induction cs; constructor; [split; [done | apply flat_eq_refl] | done]. Qed.

Lemma dict_set_related k c c' cs :
  dict_get k cs = Some c -> flat_eq c c' ->
  Forall2 same_key_flat_eq cs (dict_set k c' cs).
Proof.
  intros Hget Hc. induction cs as [|[k0 c0] cs IH]; simpl in *; [done|].
  destruct (String.eqb k k0).
  - injection Hget as ->. constructor; [by split | apply related_refl].
  - constructor; [split; [done | apply flat_eq_refl] | by apply IH].
Qed.

Lemma flat_eq_with_children n cs' :
  Forall2 same_key_flat_eq (children n) cs' -> flat_eq n (with_children n cs').
Proof.
  intros H. split; [done|]. intros prefix result.
  rewrite !flatten_unfold. by apply flatten_items_related.
Qed.

Lemma flat_eq_with_deleted n d : flat_eq n (with_deleted n d).
Proof. split; [done|]. intros. by rewrite !flatten_unfold. Qed.

Lemma flat_eq_with_comment n (text : option string) : flat_eq n (with_comment n text).
Proof. split; [done|]. intros. by rewrite !flatten_unfold. Qed.

Lemma child_part_new_node prefix name p result f :
  flat_eq (new_node p) (f (new_node p)) ->
  child_part prefix name (f (new_node p)) result = result.
Proof.
  intros H. rewrite <- (child_part_flat_eq _ _ _ _ _ H).
  reflexivity.
Qed.

Lemma flat_eq_on_child node name f :
  (forall c, flat_eq c (f c)) -> flat_eq node (on_child node name f).
Proof.
  intros Hf. unfold on_child, add_child.
  destruct (dict_contains name (children node)) eqn:E.
  - destruct (dict_get name (children node)) as [c|] eqn:G; [|apply flat_eq_refl].
    apply flat_eq_with_children. eapply dict_set_related; [exact G | apply Hf].
  - cbn [children with_children]. rewrite dict_set_fresh by done.
    rewrite dict_get_last by done. rewrite dict_set_last by done.
    split; [done|]. intros prefix result.
    rewrite !flatten_unfold. cbn [children with_children].
    rewrite flatten_items_app, flatten_items_cons. simpl.
    by rewrite child_part_new_node.
Qed.

Lemma flat_eq_add_child node name : flat_eq node (add_child node name).
Proof.
  unfold add_child. destruct (dict_contains name (children node)) eqn:E;
    [apply flat_eq_refl|].
  rewrite dict_set_fresh by done. split; [done|]. intros prefix result.
  rewrite !flatten_unfold. cbn [children with_children].
  rewrite flatten_items_app, flatten_items_cons. reflexivity.
Qed.

Lemma erase_deleted_children n :
  children (erase_deleted n)
  = map (fun kv => (fst kv, erase_deleted (snd kv))) (children n).
Proof.
  destruct n as [p v cs d c]. simpl.
  induction cs as [|[k ch] cs IH]; simpl; [done|]. by rewrite IH.
Qed.

Lemma erase_deleted_value n : value (erase_deleted n) = value n.
Proof. by destruct n. Qed.

Lemma flat_eq_erase_deleted n : flat_eq n (erase_deleted n).
Proof.
  induction n as [p v cs d c IH] using ConfigNode_tree_ind.
  split; [by rewrite erase_deleted_value|]. intros prefix result.
  rewrite !flatten_unfold, erase_deleted_children. cbn [children].
  apply flatten_items_related.
  induction IH as [|[k ch] cs Hch _ IHcs]; constructor; [by split | exact IHcs].
Qed.

(** [flatten] reads no tombstone. *)
Lemma flatten_erase_deleted n : flatten (erase_deleted n) = flatten n.
Proof. symmetry. apply flat_eq_erase_deleted. Qed.
End FlattenFacts.

Section CommandFacts.
Implicit Types (node n : ConfigNode string) (f : ConfigNode string -> ConfigNode string).

Lemma flat_eq_descend parents : forall node f,
  (forall n, flat_eq n (f n)) -> flat_eq node (descend node parents f).
Proof.
  induction parents as [|part rest IH]; intros node f Hf; simpl; [apply Hf|].
  apply flat_eq_on_child. intros c. by apply IH.
Qed.

Lemma flat_eq_update_child node name f :
  (forall c, flat_eq c (f c)) -> flat_eq node (update_child node name f).
Proof.
  intros Hf. unfold update_child.
  destruct (dict_get name (children node)) as [c|] eqn:G; [|apply flat_eq_refl].
  apply flat_eq_with_children. eapply dict_set_related; [exact G | apply Hf].
Qed.

Lemma flat_eq_apply_delete (command : ConfigCommand) node :
  command_type command = "delete" -> flat_eq node (_apply_command node command).
Proof.
  intros Hty. unfold _apply_command. apply flat_eq_descend. intros n.
  unfold apply_final. rewrite Hty. simpl.
  destruct (cmd_path command); [apply flat_eq_refl|].
  apply flat_eq_update_child. intros c. apply flat_eq_with_deleted.
Qed.
End CommandFacts.

(** C9: [flatten] does not read the [deleted] flag: two trees that
    differ only in their tombstones flatten to the same map, and
    applying a [delete] command leaves [flatten] and every
    [calculate_diff] computed from the tree as they were, while
    [to_dict] changes (here on the scenario of the specification). *)
Theorem flatten_ignores_tombstones (t t' other : ConfigNode string)
    (command : ConfigCommand) :
  erase_deleted t = erase_deleted t' ->
  command_type command = "delete" ->
  flatten t = flatten t' /\
  flatten (_apply_command t command) = flatten t /\
  calculate_diff (_apply_command t command) other = calculate_diff t other /\
  calculate_diff other (_apply_command t command) = calculate_diff other t /\
  to_dict (_apply_command (from_dict scenario_dict) delete_description)
    <> to_dict (from_dict scenario_dict).
Proof.
  intros Hsame Hty.
  assert (Hflat : flatten (_apply_command t command) = flatten t).
  { symmetry. by apply flat_eq_apply_delete. }
  split; [|split; [|split; [|split]]].
  - by rewrite <- (flatten_erase_deleted t), <- (flatten_erase_deleted t'), Hsame.
  - exact Hflat.
  - unfold calculate_diff. by rewrite Hflat.
  - unfold calculate_diff. by rewrite Hflat.
  - vm_compute. discriminate.
Qed.

Lemma flatten_ignores_tombstones_witness :
  let t := _apply_command (from_dict scenario_dict) delete_description in
  let t' := from_dict scenario_dict in
  erase_deleted t = erase_deleted t' /\ t <> t' /\
  flatten t = flatten t' /\
  to_dict t = [("interfaces", PDict [("ethernet", PDict [("eth0",
                 PDict [("address", PScalar "192.168.1.1/24")])])])].
Proof.
  intros t t'. split; [reflexivity|]. split; [discriminate|]. split; [|reflexivity].
  apply (flatten_ignores_tombstones t t' t' delete_description); reflexivity.
Defined.

(** ** The command parser *)

Section StringFacts.
Implicit Types (s p : string) (c : ascii).

Lemma lstrip_length s : String.length (lstrip s) <= String.length s.
Proof.
  induction s as [|c s IH]; simpl; [lia|].
  destruct (isspace c); simpl; lia.
Qed.

Lemma lstrip_fixed_head c s : lstrip (String c s) = String c s -> isspace c = false.
Proof.
  simpl. destruct (isspace c); [|done]. intros H.
  pose proof (lstrip_length s) as Hlen. rewrite H in Hlen. simpl in Hlen. lia.
Qed.

Lemma append_nil_l p : "" +:+ p = p.
Proof. reflexivity. Qed.

Lemma append_cons c a p : String c a +:+ p = String c (a +:+ p).
Proof. reflexivity. Qed.

Lemma rstrip_append a p :
  rstrip p = p -> p <> "" -> rstrip (a +:+ p) = a +:+ p.
Proof.
  intros Hp Hne. induction a as [|c a IH]; [by rewrite append_nil_l|].
  rewrite append_cons. simpl. rewrite IH. destruct (a +:+ p) eqn:E; [|done].
  destruct a; [by rewrite append_nil_l in E | by rewrite append_cons in E].
Qed.

Lemma run_length_one_line p : one_line p = true -> run_length cls_dot p = String.length p.
Proof.
  induction p as [|c p IH]; simpl; [done|]. unfold cls_dot at 1.
  destruct (negb (Ascii.eqb c newline)); simpl; [|done]. intros H. by rewrite IH.
Qed.

Lemma str_take_all p : str_take (String.length p) p = p.
Proof. induction p as [|c p IH]; simpl; [done|]. by rewrite IH. Qed.

Lemma str_drop_all p : str_drop (String.length p) p = "".
Proof. induction p as [|c p IH]; simpl; done. Qed.

Lemma first_down_hit attempt lo k gs :
  lo <= k -> attempt k = Some gs -> first_down attempt lo k = Some gs.
Proof.
  intros Hle Hk. destruct k; simpl.
  - destruct lo; [|lia]. simpl. by rewrite Hk.
  - destruct (Nat.ltb_spec (S k) lo) as [Hlt|_]; [lia|]. by rewrite Hk.
Qed.

(** [\s*] in front of a character that is not whitespace matches
    the empty text. *)
Lemma rmatch_ws0 rest c s :
  isspace c = false -> rmatch (ws0 :: rest) (String c s) = rmatch rest (String c s).
Proof.
  intros Hc. simpl. unfold cls_space. rewrite Hc. simpl.
  by destruct (rmatch rest (String c s)).
Qed.

(** [\s+(.+)$] on one blank and a text that neither starts with
    whitespace nor holds a newline: the group is the text. *)
Lemma rmatch_blank_rest c p :
  isspace c = false -> one_line (String c p) = true ->
  rmatch [ws1; rest_of_line; Eos] (String space (String c p)) = Some [String c p].
Proof.
  intros Hc Hline.
  assert (Hrest : rmatch [rest_of_line; Eos] (String c p) = Some [String c p]).
  { change (rmatch [rest_of_line; Eos] (String c p))
      with (first_down
              (fun k => match rmatch [Eos] (str_drop k (String c p)) with
                        | Some gs => Some (str_take k (String c p) :: gs)
                        | None => None
                        end) 1 (run_length cls_dot (String c p))).
    rewrite run_length_one_line by done.
    apply first_down_hit; [simpl; lia|].
    by rewrite str_drop_all, str_take_all. }
  change (rmatch [ws1; rest_of_line; Eos] (String space (String c p)))
    with (first_down
            (fun k => match rmatch [rest_of_line; Eos]
                              (str_drop k (String space (String c p))) with
                      | Some gs => Some gs
                      | None => None
                      end) 1 (run_length cls_space (String space (String c p)))).
  assert (Hrun : run_length cls_space (String space (String c p)) = 1).
  { simpl. unfold cls_space at 1. by rewrite Hc. }
  rewrite Hrun. apply first_down_hit; [lia|].
  change (str_drop 1 (String space (String c p))) with (String c p).
  by rewrite Hrest.
Qed.
End StringFacts.

Section TokenizerFacts.
Implicit Types (st : tokenizer) (s : string).

Lemma tokenizer_run_app s s' st :
  tokenizer_run (s +:+ s') st = tokenizer_run s' (tokenizer_run s st).
Proof.
  revert st. induction s as [|c s IH]; intros st; [done|].
  rewrite append_cons. simpl. apply IH.
Qed.

Lemma remembers_quote_step st c : remembers_quote st -> remembers_quote (tokenizer_step st c).
Proof.
  intros Hst. unfold tokenizer_step, remembers_quote in *.
  destruct (is_quote c) eqn:Hq; simpl.
  - destruct (negb (in_quotes st) || same_quote c (quote_char st)); simpl.
    + intros _. eauto.
    + destruct (isspace c && negb (in_quotes st)) eqn:E; simpl; [|done].
      destruct (String.eqb (current_token st) ""); simpl; done.
  - destruct (isspace c && negb (in_quotes st)) eqn:E; simpl; [|done].
    destruct (String.eqb (current_token st) ""); simpl; done.
Qed.

Lemma remembers_quote_run s : forall st,
  remembers_quote st -> remembers_quote (tokenizer_run s st).
Proof.
  induction s as [|c s IH]; intros st Hst; simpl; [done|].
  apply IH. by apply remembers_quote_step.
Qed.

(** The quote that opened the substring closes it and adds
    nothing to the tokens. *)
Lemma tokenizer_close st q :
  in_quotes st = true -> quote_char st = Some q -> is_quote q = true ->
  tokenizer_step st q = mkTok (tokens st) (current_token st) false (Some q).
Proof.
  intros Hin Hq Hquote. unfold tokenizer_step.
  rewrite Hquote, Hin, Hq. simpl. by rewrite Ascii.eqb_refl.
Qed.
End TokenizerFacts.

(** The five statement shapes on small lines. *)

Example parse_set_without_value :
  parse_line "  Set   system  " = Some (mkCommand "set" ["system"] None "Set   system").
Proof. reflexivity. Qed.

Example parse_delete_quoted :
  parse_line "delete interfaces 'eth 0' address"
  = Some (mkCommand "delete" ["interfaces"; "eth 0"; "address"] None
                    "delete interfaces 'eth 0' address").
Proof. reflexivity. Qed.

Example parse_comment_is_lazy :
  parse_line "comment a b c d" = Some (mkCommand "comment" ["a"] (Some "b c d") "comment a b c d").
Proof. reflexivity. Qed.

Example parse_rename_finds_to :
  parse_line "rename a b to c d"
  = Some (mkCommand "rename" ["a"; "b"] (Some "c d") "rename a b to c d").
Proof. reflexivity. Qed.

Example parse_skips_noise :
  parse_line "# set a b" = None /\ parse_line "! banner" = None /\
  parse_line "   " = None /\ parse_line "show configuration" = None /\
  parse_line "delete" = None.
Proof. repeat split. Qed.

(** The scenario of the specification for [delete]: the tombstoned
    key is left out of [to_dict]. *)
Example delete_hides_description :
  to_dict (_apply_command (from_dict scenario_dict) delete_description)
  = [("interfaces", PDict [("ethernet", PDict [("eth0",
       PDict [("address", PScalar "192.168.1.1/24")])])])].
Proof. reflexivity. Qed.

Section ParseLineFacts.
Implicit Types (p line : string).

Lemma closing_quote_tokens p :
  unterminated_quote p = true ->
  _tokenize_path (p +:+ closing_quote p) = _tokenize_path p /\
  unterminated_quote (p +:+ closing_quote p) = false.
Proof.
  unfold unterminated_quote, closing_quote, _tokenize_path. intros Hin.
  destruct (remembers_quote_run p tokenizer_start) as (q & Hq & Hquote); [done|done|].
  rewrite Hq, !tokenizer_run_app. simpl.
  by rewrite (tokenizer_close _ q Hin Hq Hquote).
Qed.

Lemma unterminated_quote_nonempty p : unterminated_quote p = true -> p <> "".
Proof. intros H ->. discriminate H. Qed.

Lemma parse_line_delete p :
  p <> "" -> lstrip p = p -> rstrip p = p -> one_line p = true ->
  parse_line ("delete " +:+ p)
  = Some (mkCommand "delete" (_tokenize_path p) None ("delete " +:+ p)).
Proof.
  intros Hne Hl Hr Hline. destruct p as [|c p]; [done|].
  pose proof (lstrip_fixed_head _ _ Hl) as Hc.
  unfold parse_line.
  assert (Hstrip : strip ("delete " +:+ String c p) = "delete " +:+ String c p).
  { unfold strip. rewrite rstrip_append by done. reflexivity. }
  rewrite Hstrip.
  change ("delete " +:+ String c p)
    with (String "d" (String "e" (String "l" (String "e" (String "t" (String "e"
           (String space (String c p)))))))).
  assert (Hdelete : rmatch DELETE_PATTERN
            (String "d" (String "e" (String "l" (String "e" (String "t" (String "e"
               (String space (String c p))))))))
          = Some [String c p]).
  { unfold DELETE_PATTERN. rewrite rmatch_ws0 by reflexivity.
    change (rmatch (Lit true "delete" :: [ws1; rest_of_line; Eos])
              (String "d" (String "e" (String "l" (String "e" (String "t" (String "e"
                 (String space (String c p)))))))))
      with (rmatch [ws1; rest_of_line; Eos] (String space (String c p))).
    by apply rmatch_blank_rest. }
  assert (Hset : rmatch SET_PATTERN
            (String "d" (String "e" (String "l" (String "e" (String "t" (String "e"
               (String space (String c p))))))))
          = None).
  { unfold SET_PATTERN. rewrite rmatch_ws0 by reflexivity. reflexivity. }
  rewrite Hset, Hdelete.
  change (String.eqb _ "" || startswith _ "#" || startswith _ "!") with false.
  cbv iota. unfold _parse_delete_command, group. simpl nth.
  unfold strip. by rewrite Hr, Hl.
Qed.

Lemma parse_lines_app before after root :
  parse_lines (before ++ after) root = parse_lines after (parse_lines before root).
Proof.
  revert root. induction before as [|l before IH]; intros root; simpl; [done|].
  destruct (parse_line l); apply IH.
Qed.
End ParseLineFacts.

(** ** Quotes and the patterns *)

Section QuoteBlind.
Implicit Types (s : string) (c : ascii) (items : list item).

Lemma is_quote_cases c : is_quote c = true -> c = double_quote \/ c = single_quote.
Proof.
  unfold is_quote. intros [H|H]%orb_prop; apply Ascii.eqb_eq in H; [by left | by right].
Qed.

Lemma unquote_isspace c : isspace (unquote_char c) = isspace c.
Proof.
  unfold unquote_char. destruct (is_quote c) eqn:E; [|done].
  by destruct (is_quote_cases c E) as [-> | ->].
Qed.

Lemma unquote_cls_dot c : cls_dot (unquote_char c) = cls_dot c.
Proof.
  unfold unquote_char. destruct (is_quote c) eqn:E; [|done].
  by destruct (is_quote_cases c E) as [-> | ->].
Qed.

Lemma unquote_cls_not_blank c : cls_not_blank (unquote_char c) = cls_not_blank c.
Proof.
  unfold unquote_char. destruct (is_quote c) eqn:E; [|done].
  by destruct (is_quote_cases c E) as [-> | ->].
Qed.

Lemma unquote_take k : forall s,
  str_take k (without_quotes s) = without_quotes (str_take k s).
Proof. induction k as [|k IH]; intros [|c s]; simpl; try done. by rewrite IH. Qed.

Lemma unquote_drop k : forall s,
  str_drop k (without_quotes s) = without_quotes (str_drop k s).
Proof. induction k as [|k IH]; intros [|c s]; simpl; try done. Qed.

Lemma unquote_run_length cls s :
  (forall c, cls (unquote_char c) = cls c) ->
  run_length cls (without_quotes s) = run_length cls s.
Proof.
  intros Hcls. induction s as [|c s IH]; [done|]. simpl. rewrite Hcls.
  destruct (cls c); [by rewrite IH | done].
Qed.

Lemma unquote_at_end s : at_end (without_quotes s) = at_end s.
Proof.
  destruct s as [|c [|c' s]]; try done. simpl.
  unfold unquote_char. destruct (is_quote c) eqn:E; [|done].
  by destruct (is_quote_cases c E) as [-> | ->].
Qed.

Lemma unquote_skip_literal ic w : forall s,
  literal_ok ic w = true ->
  skip_literal ic w (without_quotes s) = without_quotes <$> skip_literal ic w s.
Proof.
  induction w as [|a w IH]; intros s Hok; [done|].
  simpl in Hok. apply andb_prop in Hok as [Ha Hw]. apply andb_prop in Ha as [Ha Hs].
  apply andb_prop in Ha as [Hu Hd].
  apply negb_true_iff in Hu, Hd, Hs.
  destruct s as [|c s]; [done|]. simpl.
  assert (Hc : char_eq ic a (unquote_char c) = char_eq ic a c).
  { unfold unquote_char. destruct (is_quote c) eqn:E; [|done].
    destruct (is_quote_cases c E) as [-> | ->]; congruence. }
  rewrite Hc. destruct (char_eq ic a c); [by apply IH | done].
Qed.

Lemma first_down_fmap (g : list string -> list string) attempt attempt' lo : forall k,
  (forall j, attempt' j = g <$> attempt j) ->
  first_down attempt' lo k = g <$> first_down attempt lo k.
Proof.
  induction k as [|k IH]; intros Hatt; simpl; rewrite Hatt.
  - destruct (Nat.ltb 0 lo); [done|]. by destruct (attempt 0).
  - destruct (Nat.ltb (S k) lo); [done|]. destruct (attempt (S k)); [done|]. by apply IH.
Qed.

Lemma first_up_fmap (g : list string -> list string) attempt attempt' fuel : forall k,
  (forall j, attempt' j = g <$> attempt j) ->
  first_up attempt' fuel k = g <$> first_up attempt fuel k.
Proof.
  induction fuel as [|fuel IH]; intros k Hatt; simpl; [done|]. rewrite Hatt.
  destruct (attempt k); [done|]. by apply IH.
Qed.

(** A pattern that does not tell quotes from underscores matches
    the text without quotes as it matches the text, with the same
    groups up to the quotes. *)
Lemma unquote_rmatch items : quote_blind items -> forall s,
  rmatch items (without_quotes s) = map without_quotes <$> rmatch items s.
Proof.
  induction 1 as [|it items Hit _ IH]; intros s; [done|].
  destruct it as [ic w|cls lo greedy capture|]; cbn [rmatch quote_blind_item] in *.
  - rewrite unquote_skip_literal by done.
    destruct (skip_literal ic w s) as [s'|]; [apply IH | done].
  - rewrite unquote_run_length by done.
    destruct greedy; [apply first_down_fmap | apply first_up_fmap]; intros j;
      rewrite unquote_drop, IH, unquote_take;
      by destruct (rmatch items (str_drop j s)), capture.
  - rewrite unquote_at_end. destruct (at_end s); [apply IH | done].
Qed.

Lemma unquote_lstrip s : lstrip (without_quotes s) = without_quotes (lstrip s).
Proof.
  induction s as [|c s IH]; [done|]. simpl. rewrite unquote_isspace.
  by destruct (isspace c).
Qed.

Lemma unquote_rstrip s : rstrip (without_quotes s) = without_quotes (rstrip s).
Proof.
  induction s as [|c s IH]; [done|]. simpl. rewrite IH, unquote_isspace.
  destruct (rstrip s); simpl; [by destruct (isspace c) | done].
Qed.

Lemma unquote_strip s : strip (without_quotes s) = without_quotes (strip s).
Proof. unfold strip. by rewrite unquote_rstrip, unquote_lstrip. Qed.

Lemma startswith_nil s : startswith s "" = true.
Proof. by destruct s. Qed.

(** The tests of [parse_line] for a blank line and a comment line. *)
Lemma unquote_skipped s :
  (String.eqb (without_quotes s) "" || startswith (without_quotes s) "#"
   || startswith (without_quotes s) "!")
  = (String.eqb s "" || startswith s "#" || startswith s "!").
Proof.
  destruct s as [|c s]; [done|]. cbn [without_quotes startswith].
  rewrite !startswith_nil. unfold unquote_char.
  destruct (is_quote c) eqn:E; [|done].
  destruct (is_quote_cases c E) as [-> | ->]; reflexivity.
Qed.

Lemma patterns_quote_blind :
  quote_blind SET_PATTERN /\ quote_blind DELETE_PATTERN /\ quote_blind COMMENT_PATTERN /\
  quote_blind RENAME_PATTERN /\ quote_blind EDIT_PATTERN.
Proof.
  assert (Hs : forall lo g cap, quote_blind_item (Rep cls_space lo g cap))
    by (intros lo g cap c; apply unquote_isspace).
  assert (Hd : forall lo g cap, quote_blind_item (Rep cls_dot lo g cap))
    by (intros lo g cap c; apply unquote_cls_dot).
  unfold quote_blind, SET_PATTERN, DELETE_PATTERN, COMMENT_PATTERN, RENAME_PATTERN,
    EDIT_PATTERN, ws0, ws1, rest_of_line, lazy_text.
  repeat split;
    repeat (constructor; [first [apply Hs | apply Hd | reflexivity | exact I]|]);
    constructor.
Qed.

Lemma parse_line_type_unquoted line :
  (command_type <$> parse_line (without_quotes line)) = (command_type <$> parse_line line).
Proof.
  destruct patterns_quote_blind as (Hset & Hdelete & Hcomment & Hrename & Hedit).
  unfold parse_line. rewrite unquote_strip, unquote_skipped.
  destruct (String.eqb (strip line) "" || startswith (strip line) "#"
            || startswith (strip line) "!"); [done|].
  rewrite !unquote_rmatch by done.
  destruct (rmatch SET_PATTERN (strip line)) as [gs|]; cbn [fmap option_fmap option_map].
  { unfold _parse_set_command.
    by destruct (_split_path_and_value _), (_split_path_and_value _). }
  destruct (rmatch DELETE_PATTERN (strip line)); [done|]; cbn [fmap option_fmap option_map].
  destruct (rmatch COMMENT_PATTERN (strip line)); [done|]; cbn [fmap option_fmap option_map].
  destruct (rmatch RENAME_PATTERN (strip line)); [done|]; cbn [fmap option_fmap option_map].
  by destruct (rmatch EDIT_PATTERN (strip line)).
Qed.

(** Where the path of a command other than [set] comes from. *)
Lemma parse_line_path line command :
  parse_line line = Some command ->
  command_type command <> "set" ->
  exists pattern gs,
    In pattern [DELETE_PATTERN; COMMENT_PATTERN; RENAME_PATTERN; EDIT_PATTERN] /\
    rmatch pattern (strip line) = Some gs /\
    cmd_path command = _tokenize_path (strip (group gs 1)).
Proof.
  unfold parse_line.
  destruct (String.eqb (strip line) "" || startswith (strip line) "#"
            || startswith (strip line) "!"); [discriminate|].
  destruct (rmatch SET_PATTERN (strip line)) as [gs|].
  { intros [= <-]. unfold _parse_set_command.
    by destruct (_split_path_and_value _). }
  destruct (rmatch DELETE_PATTERN (strip line)) as [gs|] eqn:Hd.
  { intros [= <-] _. exists DELETE_PATTERN, gs. split; [by left | done]. }
  destruct (rmatch COMMENT_PATTERN (strip line)) as [gs|] eqn:Hc.
  { intros [= <-] _. exists COMMENT_PATTERN, gs. split; [right; by left | done]. }
  destruct (rmatch RENAME_PATTERN (strip line)) as [gs|] eqn:Hr.
  { intros [= <-] _. exists RENAME_PATTERN, gs. split; [right; right; by left | done]. }
  destruct (rmatch EDIT_PATTERN (strip line)) as [gs|] eqn:He; [|discriminate].
  intros [= <-] _. exists EDIT_PATTERN, gs. split; [right; right; right; by left | done].
Qed.
End QuoteBlind.

(** C4, as the code has it: an unterminated quote is not a parse
    failure.  For every line, whether [parse_line] yields a command,
    and of which type, is the same as for the line with every quote
    character replaced by an underscore: no line is skipped for its
    quotes.  The path of a delete, comment, rename or edit command is
    [_tokenize_path] of the stripped path text that the pattern of the
    command matched, and when that text ends inside a quote the quoted
    substring runs to the end of the text: the path is that of the
    text with the closing quote appended.  So every line made of
    [delete], a space and a path text (not empty, without newline,
    without whitespace at its ends) yields the delete command with the
    tokens of the text.  A command is applied, and the lines before and
    after the line are parsed as they are. *)
Theorem unterminated_quote_runs_to_end_of_line (line : string) :
  (command_type <$> parse_line (without_quotes line)) = (command_type <$> parse_line line) /\
  (forall command,
     parse_line line = Some command ->
     command_type command <> "set" ->
     exists pattern gs,
       In pattern [DELETE_PATTERN; COMMENT_PATTERN; RENAME_PATTERN; EDIT_PATTERN] /\
       rmatch pattern (strip line) = Some gs /\
       let text := strip (group gs 1) in
       cmd_path command = _tokenize_path text /\
       (unterminated_quote text = true ->
        cmd_path command = _tokenize_path (text +:+ closing_quote text) /\
        unterminated_quote (text +:+ closing_quote text) = false)) /\
  (forall p,
     p <> "" -> lstrip p = p -> rstrip p = p -> one_line p = true ->
     parse_line ("delete " +:+ p)
     = Some (mkCommand "delete" (_tokenize_path p) None ("delete " +:+ p))) /\
  (forall before after root,
     parse_lines (before ++ line :: after) root
     = parse_lines after
         match parse_line line with
         | Some command => _apply_command (parse_lines before root) command
         | None => parse_lines before root
         end).
Proof.
  split; [apply parse_line_type_unquoted|]. split; [|split].
  - intros command Hparse Htype.
    destruct (parse_line_path line command Hparse Htype) as (pattern & gs & Hin & Hm & Hpath).
    exists pattern, gs. split; [done|]. split; [done|]. cbv zeta. split; [done|].
    intros Hopen. destruct (closing_quote_tokens _ Hopen) as [Htok Hclosed].
    split; [by rewrite Htok | done].
  - apply parse_line_delete.
  - intros before after root. rewrite parse_lines_app. simpl.
    by destruct (parse_line line).
Qed.

Lemma unterminated_quote_runs_to_end_of_line_witness :
  let line := "  DELETE   foo " +:+ dq +:+ "bar baz  " in
  let command := mkCommand "delete" ["foo"; "bar baz"] None
                   ("DELETE   foo " +:+ dq +:+ "bar baz") in
  unterminated_quote line = true /\
  parse_line line = Some command /\
  (command_type <$> parse_line "  DELETE   foo _bar baz  ") = Some "delete" /\
  cmd_path command = _tokenize_path ("foo " +:+ dq +:+ "bar baz" +:+ dq).
Proof.
  intros line command. split; [reflexivity|]. split; [reflexivity|].
  destruct (unterminated_quote_runs_to_end_of_line line) as (Htype & Hpath & _).
  split; [exact Htype|].
  destruct (Hpath command) as (pattern & gs & _ & _ & Htokens); [reflexivity|discriminate|].
  reflexivity.
Defined.

(** C4 as stated fails: the line made of [delete foo], an opening
    double quote and [bar baz] ends inside a quoted substring and is
    parsed into a command, which [parse_config] applies. *)
Lemma unterminated_quote_counterexample :
  let line := "delete foo " +:+ dq +:+ "bar baz" in
  unterminated_quote line = true /\
  parse_line line = Some (mkCommand "delete" ["foo"; "bar baz"] None line) /\
  parse_line line <> None /\
  dict_keys (children (parse_config line)) = ["foo"].
Proof. repeat split. discriminate. Qed.

(** C1 (the code departs from it): on the two lines of the scenario
    [parse_config] stores, under [interfaces] alone, the text after
    the first word of the last line, quotes included; [to_dict] is not
    the nested dictionary of the specification. *)
Theorem scenario_to_dict :
  parse_line "set interfaces ethernet eth0 address '192.168.1.1/24'"
  = Some (mkCommand "set" ["interfaces"] (Some "ethernet eth0 address '192.168.1.1/24'")
                    "set interfaces ethernet eth0 address '192.168.1.1/24'") /\
  to_dict (parse_config scenario_text)
  = [("interfaces", PScalar ("ethernet eth0 description " +:+ dq +:+ "Uplink" +:+ dq))] /\
  to_dict (parse_config scenario_text) <> scenario_dict.
Proof. split; [reflexivity|]. split; [reflexivity|]. vm_compute. discriminate. Qed.

(** ** Rule lookup *)

Section ValidatorFacts.
Context {Callable : Type}.
Implicit Types (rules : list (string * ValidationRule Callable)) (pattern path : string).

Lemma segments_match_spec (ps qs : list string) :
  length ps = length qs ->
  segments_match (combine ps qs) = true <->
  (forall i p q, ps !! i = Some p -> qs !! i = Some q -> p <> "*" -> p = q).
Proof.
  revert qs. induction ps as [|p0 ps IH]; intros [|q0 qs] Hlen; simpl in Hlen;
    try discriminate.
  - split; [|done]. intros _ i p q Hp. by destruct i.
  - injection Hlen as Hlen. specialize (IH qs Hlen). simpl.
    destruct (String.eqb_spec p0 "*") as [Hstar|Hstar].
    + rewrite IH. split.
      * intros H [|i] p q Hp Hq Hne; simpl in *; [congruence | eauto].
      * intros H i p q Hp Hq. exact (H (S i) p q Hp Hq).
    + destruct (String.eqb_spec p0 q0) as [Heq|Hneq]; simpl.
      * rewrite IH. split.
        -- intros H [|i] p q Hp Hq Hne; simpl in *; [congruence | eauto].
        -- intros H i p q Hp Hq. exact (H (S i) p q Hp Hq).
      * split; [discriminate|]. intros H. exfalso. apply Hneq.
        exact (H 0 p0 q0 eq_refl eq_refl Hstar).
Qed.

Lemma path_matches_covers pattern path :
  _path_matches pattern path = true <-> pattern_covers pattern path.
Proof.
  unfold _path_matches, pattern_covers, segments.
  change (fix loop (zipped : list (string * string)) : bool :=
            match zipped with
            | [] => true
            | (pattern_part, path_part) :: rest =>
                if String.eqb pattern_part "*" then loop rest
                else if negb (String.eqb pattern_part path_part) then false
                else loop rest
            end) with segments_match.
  destruct (Nat.eqb_spec (length (split_on "." pattern)) (length (split_on "." path)))
    as [Hlen|Hlen]; simpl.
  - rewrite segments_match_spec by done. split; [by split | by intros [_ H]].
  - split; [discriminate | by intros [H _]].
Qed.

Lemma first_pattern_spec path rules :
  match first_pattern path rules with
  | Some rule =>
      exists before pattern after,
        rules = before ++ (pattern, rule) :: after /\
        pattern_covers pattern path /\
        forall kv, In kv before -> ~ pattern_covers (fst kv) path
  | None => forall kv, In kv rules -> ~ pattern_covers (fst kv) path
  end.
Proof.
  induction rules as [|[pat r] rules IH]; simpl; [by intros kv []|].
  destruct (_path_matches pat path) eqn:E.
  - exists [], pat, rules. split; [done|]. split; [by apply path_matches_covers|].
    by intros kv [].
  - assert (Hno : ~ pattern_covers pat path).
    { intros H. apply path_matches_covers in H. congruence. }
    destruct (first_pattern path rules) as [rule|].
    + destruct IH as (before & pattern & after & -> & Hcov & Hbefore).
      exists ((pat, r) :: before), pattern, after. split; [done|]. split; [done|].
      intros kv [<-|Hin]; [done | by apply Hbefore].
    + intros kv [<-|Hin]; [done | by apply IH].
Qed.

Lemma find_matching_rule_unfold rules path :
  _find_matching_rule rules path =
  if dict_contains path rules then dict_get path rules else first_pattern path rules.
Proof. reflexivity. Qed.

Lemma find_matching_rule_is_rule_for rules path :
  rule_for rules path (_find_matching_rule rules path).
Proof.
  rewrite find_matching_rule_unfold. unfold dict_contains.
  destruct (dict_get path rules) as [rule|] eqn:G; [by apply rule_exact|].
  pose proof (first_pattern_spec path rules) as H.
  destruct (first_pattern path rules) as [rule|].
  - destruct H as (before & pattern & after & Hsplit & Hcov & Hbefore).
    by eapply rule_first_pattern.
  - by apply rule_none.
Qed.

Lemma first_split_unique path (b1 b2 a1 a2 : list (string * ValidationRule Callable))
    p1 p2 r1 r2 :
  b1 ++ (p1, r1) :: a1 = b2 ++ (p2, r2) :: a2 ->
  pattern_covers p1 path -> pattern_covers p2 path ->
  (forall kv, In kv b1 -> ~ pattern_covers (fst kv) path) ->
  (forall kv, In kv b2 -> ~ pattern_covers (fst kv) path) ->
  r1 = r2.
Proof.
  intros S C1 C2. revert b2 S.
  induction b1 as [|kv b1 IH]; intros [|kv2 b2] S B1 B2; simpl in S.
  - congruence.
  - injection S as <- _. exfalso. apply (B2 (p1, r1)); [by left | done].
  - injection S as -> _. exfalso. apply (B1 (p2, r2)); [by left | done].
  - injection S as <- S. apply (IH b2 S).
    + intros kv' H. apply B1. by right.
    + intros kv' H. apply B2. by right.
Qed.

(** The description determines the rule: no other reading of
    "first" fits. *)
Lemma rule_for_unique rules path r1 r2 :
  rule_for rules path r1 -> rule_for rules path r2 -> r1 = r2.
Proof.
  intros H1 H2.
  destruct H1 as [rule1 G1|b1 p1 rule1 a1 G1 S1 C1 B1|G1 N1];
    destruct H2 as [rule2 G2|b2 p2 rule2 a2 G2 S2 C2 B2|G2 N2];
    try congruence.
  - f_equal. rewrite S1 in S2. by eapply first_split_unique.
  - exfalso. apply (N2 (p1, rule1)); [|done]. rewrite S1.
    apply in_or_app. right. by left.
  - exfalso. apply (N1 (p2, rule2)); [|done]. rewrite S2.
    apply in_or_app. right. by left.
Qed.
End ValidatorFacts.

(** C7: the rule applied to a validated dotted path is the
    exact-path rule when the rule set has one; otherwise the first
    rule, in insertion order, whose pattern has as many segments as
    the path and agrees with it on every segment other than [*];
    [_find_matching_rule] returns that rule and no other, the errors
    of a value at the path are those [_validate_value] gives for the
    value and that rule, and when there is no such rule the value
    yields no error. *)
Theorem rule_lookup_order {V Callable : Type}
    (_validate_value : string -> V -> ValidationRule Callable -> list ValidationError)
    (rules : list (string * ValidationRule Callable)) (path : string) :
  (forall r, _find_matching_rule rules path = r <-> rule_for rules path r) /\
  (forall r path_prefix (v : V),
     rule_for rules path r ->
     rstrip_char "." path_prefix = path ->
     let applied :=
       match r with
       | Some rule => _validate_value path v rule
       | None => []
       end in
     node_errors _validate_value rules path_prefix v = applied /\
     forall node errors,
       value node = Some v -> children node = [] ->
       _validate_node _validate_value rules node path_prefix errors = errors ++ applied) /\
  (_find_matching_rule rules path = None ->
   forall path_prefix (v : V),
     rstrip_char "." path_prefix = path ->
     node_errors _validate_value rules path_prefix v = []).
Proof.
  assert (Hlookup : forall r, _find_matching_rule rules path = r <-> rule_for rules path r).
  { intros r. split.
    - intros <-. apply find_matching_rule_is_rule_for.
    - intros H. eapply rule_for_unique; [apply find_matching_rule_is_rule_for | exact H]. }
  split; [exact Hlookup|]. split.
  - intros r prefix v Hr Hpath applied. apply Hlookup in Hr.
    assert (Herrors : node_errors _validate_value rules prefix v = applied).
    { unfold node_errors. rewrite Hpath, Hr. reflexivity. }
    split; [exact Herrors|]. intros [p val cs d c] errors Hval Hcs.
    simpl in Hval, Hcs. subst val cs. simpl. by rewrite Herrors.
  - intros Hnone prefix v Hpath. unfold node_errors. by rewrite Hpath, Hnone.
Qed.

Lemma rule_lookup_order_witness :
  let rules := STANDARD_RULES (Callable := unit) in
  let check := fun (p : string) (v : string) (rule : ValidationRule unit) =>
                 if required rule then [mkError p v "required"] else [] in
  rule_for rules "firewall.name.in.rule.10.action"
    (Some (mkRule true None None None (Some ["accept"; "drop"; "reject"]) None None)) /\
  node_errors check rules "firewall.name.in.rule.10.action." "allow"
  = [mkError "firewall.name.in.rule.10.action" "allow" "required"] /\
  _find_matching_rule rules "interfaces.ethernet.eth0.mtu" = None /\
  node_errors check rules "interfaces.ethernet.eth0.mtu." "1500" = [].
Proof.
  intros rules check.
  assert (Hrule : rule_for rules "firewall.name.in.rule.10.action"
            (Some (mkRule true None None None (Some ["accept"; "drop"; "reject"]) None None))).
  { apply (rule_lookup_order check rules "firewall.name.in.rule.10.action"). reflexivity. }
  split; [exact Hrule|]. split; [|split].
  - destruct (rule_lookup_order check rules "firewall.name.in.rule.10.action")
      as (_ & Happlied & _).
    destruct (Happlied _ "firewall.name.in.rule.10.action." "allow" Hrule eq_refl)
      as [Herrors _].
    exact Herrors.
  - reflexivity.
  - apply (rule_lookup_order check rules "interfaces.ethernet.eth0.mtu");
      reflexivity.
Defined.

(** ** Snapshots and their retention *)

Section SortFacts.
Context {V : Type}.
Implicit Types (s r d : ConfigSnapshot V) (l : list (ConfigSnapshot V)).

Lemma insert_newest_first_perm s l : Permutation (insert_newest_first s l) (s :: l).
Proof.
  induction l as [|s' l IH]; simpl; [done|].
  destruct (timestamp s <? timestamp s')%Z; [|done].
  rewrite IH. apply perm_swap.
Qed.

Lemma sort_newest_first_perm l : Permutation (sort_newest_first l) l.
Proof.
  induction l as [|s l IH]; simpl; [done|].
  rewrite insert_newest_first_perm. by constructor.
Qed.

Lemma sort_newest_first_length l : length (sort_newest_first l) = length l.
Proof. apply Permutation_length, sort_newest_first_perm. Qed.

Lemma insert_newest_first_sorted s l :
  newest_first l -> newest_first (insert_newest_first s l).
Proof.
  unfold newest_first. induction 1 as [|s' l Hl IH Hs']; simpl.
  - constructor; [constructor | constructor].
  - destruct (Z.ltb_spec (timestamp s) (timestamp s')) as [Hlt|Hge].
    + constructor; [exact IH|].
      apply (Permutation_Forall (Permutation_sym (insert_newest_first_perm s l))).
      constructor; [lia | exact Hs'].
    + constructor; [by constructor|].
      constructor; [lia|]. eapply Forall_impl; [exact Hs'|]. simpl. intros x Hx. lia.
Qed.

Lemma sort_newest_first_sorted l : newest_first (sort_newest_first l).
Proof.
  induction l as [|s l IH]; simpl; [constructor|].
  by apply insert_newest_first_sorted.
Qed.

Lemma in_after_cut {A : Type} (n : nat) (l : list A) x : In x (skipn n l) -> In x l.
Proof. intros H. rewrite <- (firstn_skipn n l). apply in_or_app. by right. Qed.

Lemma in_before_cut {A : Type} (n : nat) (l : list A) x : In x (firstn n l) -> In x l.
Proof. intros H. rewrite <- (firstn_skipn n l). apply in_or_app. by left. Qed.

(** In a list that is newest first, nothing after a cut is more
    recent than anything before it. *)
Lemma newest_first_cut l : newest_first l -> forall n r d,
  In r (firstn n l) -> In d (skipn n l) -> (timestamp d <= timestamp r)%Z.
Proof.
  unfold newest_first. induction 1 as [|s l Hl IH Hs]; intros n r d Hr Hd.
  - by destruct n.
  - destruct n as [|n]; simpl in Hr, Hd; [done|].
    destruct Hr as [<-|Hr]; [|by eapply IH].
    rewrite Forall_forall in Hs. apply Hs.
    apply list_elem_of_In. by apply (in_after_cut n l).
Qed.

Lemma slice_to_nonneg {A : Type} (l : list A) (n : Z) :
  (0 <= n)%Z -> slice_to l n = firstn (Z.to_nat n) l.
Proof. intros Hn. unfold slice_to. by destruct (Z.leb_spec 0 n); [|lia]. Qed.

Lemma slice_from_nonneg {A : Type} (l : list A) (n : Z) :
  (0 <= n)%Z -> slice_from l n = skipn (Z.to_nat n) l.
Proof. intros Hn. unfold slice_from. by destruct (Z.leb_spec 0 n); [|lia]. Qed.
End SortFacts.

Section RetentionFacts.
Context {V : Type}.
Variable _calculate_hash : list (string * pyval V) -> string.
Variable _generate_snapshot_id : Z -> string.
Implicit Types (m : manager V) (c : create_call V) (all : list (ConfigSnapshot V)).

Lemma created_is_returned m c :
  snd (create_snapshot _calculate_hash _generate_snapshot_id m (call_now_id c) (call_now c)
         (call_config c) (call_description c))
  = created _calculate_hash _generate_snapshot_id c.
Proof. reflexivity. Qed.

Lemma prune_max m : max_snapshots (_prune_old_snapshots m) = max_snapshots m.
Proof.
  unfold _prune_old_snapshots.
  by destruct (Z.of_nat (length (snapshots m)) <=? max_snapshots m)%Z.
Qed.

Lemma do_create_snapshots m c :
  snapshots (do_create _calculate_hash _generate_snapshot_id m c)
  = let index := snapshots m ++ [created _calculate_hash _generate_snapshot_id c] in
    if (Z.of_nat (length index) <=? max_snapshots m)%Z then index
    else slice_to (sort_newest_first index) (max_snapshots m).
Proof.
  unfold do_create, create_snapshot, _save_index, _prune_old_snapshots, created.
  cbn [fst snapshots max_snapshots].
  by destruct (Z.of_nat (length (snapshots m ++ _)) <=? max_snapshots m)%Z.
Qed.

Lemma do_create_max m c :
  max_snapshots (do_create _calculate_hash _generate_snapshot_id m c) = max_snapshots m.
Proof.
  unfold do_create, create_snapshot, _save_index. cbn [fst max_snapshots].
  by rewrite prune_max.
Qed.

Lemma do_create_bounded m c :
  (0 <= max_snapshots m)%Z ->
  length (snapshots (do_create _calculate_hash _generate_snapshot_id m c))
  <= Z.to_nat (max_snapshots m).
Proof.
  intros Hmax. rewrite do_create_snapshots. cbv zeta.
  destruct (Z.leb_spec (Z.of_nat (length (snapshots m ++ [created _calculate_hash
              _generate_snapshot_id c]))) (max_snapshots m)) as [Hle|Hgt]; [lia|].
  rewrite slice_to_nonneg by done. apply firstn_le_length.
Qed.

Lemma do_create_invariant max all m c :
  (0 <= max)%Z ->
  retention_invariant max all m ->
  retention_invariant max (all ++ [created _calculate_hash _generate_snapshot_id c])
    (do_create _calculate_hash _generate_snapshot_id m c).
Proof.
  intros Hmax (Hm & dropped & Hperm & Hrecent & Hfull).
  split; [by rewrite do_create_max|].
  rewrite do_create_snapshots. cbv zeta. rewrite Hm.
  set (s := created _calculate_hash _generate_snapshot_id c).
  destruct (Z.leb_spec (Z.of_nat (length (snapshots m ++ [s]))) max) as [Hle|Hgt].
  - (* nothing is pruned, so nothing was dropped before either *)
    assert (dropped = []) as ->.
    { destruct Hfull as [->|Hlen]; [done|]. rewrite length_app in Hle. simpl in Hle. lia. }
    exists []. rewrite !app_nil_r in *. split; [by apply Permutation_app_tail|].
    split; [by intros r d _ []|]. by left.
  - rewrite slice_to_nonneg by done.
    set (sorted := sort_newest_first (snapshots m ++ [s])).
    assert (Hsorted : Permutation sorted (snapshots m ++ [s]))
      by apply sort_newest_first_perm.
    assert (Hlen : length sorted = S (length (snapshots m))).
    { rewrite (Permutation_length Hsorted), length_app. simpl. lia. }
    assert (Hcut : forall r d, In r (firstn (Z.to_nat max) sorted) ->
                     In d (skipn (Z.to_nat max) sorted) ->
                     (timestamp d <= timestamp r)%Z).
    { apply newest_first_cut, sort_newest_first_sorted. }
    exists (dropped ++ skipn (Z.to_nat max) sorted). split; [|split].
    + rewrite (Permutation_app_comm dropped), app_assoc, firstn_skipn.
      rewrite Hsorted, <- Hperm.
      rewrite <- !app_assoc. apply Permutation_app_head. apply Permutation_app_comm.
    + intros r d Hr Hd. apply in_app_or in Hd as [Hd|Hd]; [|by apply Hcut].
      (* [d] was dropped earlier: the index was full, one snapshot leaves now *)
      assert (Hfull' : length (snapshots m) = Z.to_nat max).
      { destruct Hfull as [->|H]; [by destruct Hd | exact H]. }
      pose proof (in_before_cut _ _ _ Hr) as Hr'.
      apply (Permutation_in _ Hsorted) in Hr'. apply in_app_or in Hr' as [Hr'|Hr'];
        [by apply Hrecent|].
      destruct Hr' as [Hsr|[]]. subst r.
      destruct (skipn (Z.to_nat max) sorted) as [|out rest] eqn:Eout.
      { pose proof (length_skipn (Z.to_nat max) sorted) as Hl.
        rewrite Eout in Hl. simpl in Hl. lia. }
      assert (Hrest : rest = []).
      { pose proof (length_skipn (Z.to_nat max) sorted) as Hl.
        rewrite Eout in Hl. simpl in Hl. destruct rest; [done | simpl in Hl; lia]. }
      subst rest.
      assert (Hout : In out (snapshots m ++ [s])).
      { apply (Permutation_in _ Hsorted). apply (in_after_cut (Z.to_nat max)).
        rewrite Eout. by left. }
      apply in_app_or in Hout as [Hout|[Hso|[]]].
      * transitivity (timestamp out); [by apply Hrecent|].
        apply Hcut; [exact Hr | by left].
      * subst out. apply Hrecent; [|exact Hd].
        assert (Hkept : Permutation (firstn (Z.to_nat max) sorted) (snapshots m)).
        { apply (Permutation_app_inv_r [s]).
          assert (Hjoin : firstn (Z.to_nat max) sorted ++ [s] = sorted)
            by (rewrite <- Eout; apply firstn_skipn).
          rewrite Hjoin. exact Hsorted. }
        by apply (Permutation_in _ Hkept).
    + right. rewrite length_firstn. rewrite length_app in Hgt. simpl in Hgt. lia.
Qed.

Lemma run_invariant max files index (calls : list (create_call V)) :
  (0 <= max)%Z ->
  retention_invariant max
    (default [] index ++ map (created _calculate_hash _generate_snapshot_id) calls)
    (fold_left (do_create _calculate_hash _generate_snapshot_id) calls
               (manager_init max files index)).
Proof.
  intros Hmax. induction calls as [|c calls IH] using rev_ind.
  - simpl. rewrite app_nil_r. split; [done|]. exists []. rewrite app_nil_r.
    split; [done|]. split; [by intros r d _ [] | by left].
  - rewrite fold_left_app, map_app, app_assoc. simpl.
    by apply do_create_invariant.
Qed.

Lemma run_bounded max files index (calls : list (create_call V)) :
  (0 <= max)%Z -> calls <> [] ->
  length (snapshots (fold_left (do_create _calculate_hash _generate_snapshot_id) calls
                       (manager_init max files index)))
  <= Z.to_nat max.
Proof.
  intros Hmax Hcalls. destruct (exists_last Hcalls) as (before & c & ->).
  rewrite fold_left_app. cbn [fold_left].
  destruct (run_invariant max files index before Hmax) as (Hm & _).
  rewrite <- Hm at 2. apply do_create_bounded. by rewrite Hm.
Qed.
End RetentionFacts.

Section ListingFacts.
Context {V : Type}.
Implicit Types (m : manager V) (l : list (ConfigSnapshot V)).

Lemma newest_first_firstn l n : newest_first l -> newest_first (firstn n l).
Proof.
  unfold newest_first. intros H. revert n.
  induction H as [|s l Hl IH Hs]; intros [|n]; simpl; try constructor; [apply IH|].
  rewrite Forall_forall in Hs |- *. intros x Hx. apply Hs.
  apply list_elem_of_In. apply list_elem_of_In in Hx. by apply (in_before_cut n l).
Qed.

Lemma most_recent_firstn l n :
  most_recent_of l (firstn n (sort_newest_first l)).
Proof.
  exists (skipn n (sort_newest_first l)). split.
  - rewrite firstn_skipn. apply sort_newest_first_perm.
  - apply newest_first_cut, sort_newest_first_sorted.
Qed.

Lemma most_recent_all l : most_recent_of l (sort_newest_first l).
Proof.
  exists []. rewrite app_nil_r. split; [apply sort_newest_first_perm | by intros r d _ []].
Qed.
End ListingFacts.

(** C10: [list_snapshots(0)] returns every snapshot, newest first,
    like [list_snapshots()]; for a positive [n] it returns the first
    [n] of that list, the [n] most recent snapshots (all of them when
    there are fewer), newest first. *)
Theorem list_snapshots_limit {V : Type} (m : manager V) (n : Z) :
  (0 <= n)%Z ->
  let everything := list_snapshots m None in
  let shown := list_snapshots m (Some n) in
  Permutation everything (snapshots m) /\
  newest_first everything /\
  shown = (if (n =? 0)%Z then everything else firstn (Z.to_nat n) everything) /\
  length shown = (if (n =? 0)%Z then length (snapshots m)
                  else Nat.min (Z.to_nat n) (length (snapshots m))) /\
  newest_first shown /\
  most_recent_of (snapshots m) shown.
Proof.
  intros Hn everything shown. subst everything shown. unfold list_snapshots.
  split; [apply sort_newest_first_perm|]. split; [apply sort_newest_first_sorted|].
  destruct (Z.eqb_spec n 0) as [->|Hne].
  - split; [done|]. split; [apply sort_newest_first_length|].
    split; [apply sort_newest_first_sorted | apply most_recent_all].
  - rewrite slice_to_nonneg by done. split; [done|].
    split; [by rewrite length_firstn, sort_newest_first_length|].
    split; [apply newest_first_firstn, sort_newest_first_sorted | apply most_recent_firstn].
Qed.

Lemma list_snapshots_limit_witness :
  let m := manager_init (V := string) 10 ∅ (Some sample_index) in
  (0 <= 2)%Z /\
  map snapshot_id (list_snapshots m (Some 0%Z)) = ["s2"; "s3"; "s1"] /\
  map snapshot_id (list_snapshots m (Some 2%Z)) = ["s2"; "s3"] /\
  most_recent_of (snapshots m) (list_snapshots m (Some 2%Z)).
Proof.
  intros m. split; [lia|]. split; [reflexivity|]. split; [reflexivity|].
  apply (list_snapshots_limit m 2). lia.
Defined.

(** C6: on a manager with retention limit [max_snapshots] (not
    negative), after any sequence of [create_snapshot] calls (at
    least one, or none on an index that was within the limit when it
    was loaded) [list_snapshots()] returns at most [max_snapshots]
    snapshots: the [max_snapshots] most recent by timestamp of those
    loaded and created, all of them when there are fewer, newest
    first. *)
Theorem pruning_bound {V : Type}
    (_calculate_hash : list (string * pyval V) -> string)
    (_generate_snapshot_id : Z -> string)
    (max : Z) (files : gmap string (ConfigSnapshot V))
    (index : option (list (ConfigSnapshot V))) (calls : list (create_call V)) :
  (0 <= max)%Z ->
  calls <> [] \/ length (default [] index) <= Z.to_nat max ->
  let m := fold_left (do_create _calculate_hash _generate_snapshot_id) calls
                     (manager_init max files index) in
  let all := default [] index
             ++ map (created _calculate_hash _generate_snapshot_id) calls in
  let kept := list_snapshots m None in
  (Z.of_nat (length kept) <= max)%Z /\
  length kept = Nat.min (Z.to_nat max) (length all) /\
  newest_first kept /\
  most_recent_of all kept.
Proof.
  intros Hmax Hstart m all kept.
  destruct (run_invariant _calculate_hash _generate_snapshot_id max files index calls Hmax)
    as (Hm & dropped & Hperm & Hrecent & Hfull).
  fold m in Hm, Hperm, Hrecent, Hfull. fold all in Hperm.
  assert (Hkept : Permutation kept (snapshots m)) by apply sort_newest_first_perm.
  assert (Hbound : length (snapshots m) <= Z.to_nat max).
  { destruct Hstart as [Hcalls|Hloaded]; [subst m; by apply run_bounded|].
    destruct calls as [|c rest]; [exact Hloaded|].
    subst m. by apply run_bounded. }
  assert (Hlen : length kept = length (snapshots m)) by apply sort_newest_first_length.
  split; [lia|]. split; [|split].
  - pose proof (Permutation_length Hperm) as Hall. rewrite length_app in Hall.
    destruct Hfull as [->|Hfull]; simpl in Hall; lia.
  - apply sort_newest_first_sorted.
  - exists dropped. split; [by rewrite Hkept|].
    intros r d Hr Hd. apply Hrecent; [|done]. by apply (Permutation_in _ Hkept).
Qed.

Lemma pruning_bound_witness :
  let m := fold_left (do_create no_hash same_id) twelve_calls (manager_init 10 ∅ None) in
  (0 <= 10)%Z /\ twelve_calls <> [] /\
  map timestamp (list_snapshots m None) = [12; 11; 10; 9; 8; 7; 6; 5; 4; 3]%Z /\
  most_recent_of (map (created no_hash same_id) twelve_calls) (list_snapshots m None).
Proof.
  intros m. split; [lia|]. split; [discriminate|]. split; [reflexivity|].
  apply (pruning_bound no_hash same_id 10 ∅ None twelve_calls); [lia|].
  left. discriminate.
Defined.

(** ** Restoring a snapshot *)

Section RestoreFacts.
Import ConfigBackup.
Context {World : Type}.
Variable run_command : string -> World -> CommandResult * World.
Variable get_snapshot : string -> World -> option ConfigSnapshot * World.
Variable create_snapshot : string -> string -> World -> ConfigSnapshot * World.
Variable backup_dir : string.

Lemma restore_stops_at_await snapshot_id w snapshot w1 content w2 safety w3 :
  get_snapshot snapshot_id w = (Some snapshot, w1) ->
  run_command ("cat " +:+ backup_dir +:+ "/snapshots/" +:+ snapshot_id +:+ "."
               +:+ format_value (format snapshot)) w1 = (content, w2) ->
  stdout content <> "" ->
  create_snapshot ("pre-restore-" +:+ snapshot_id)
                  ("Automatic backup before restoring " +:+ snapshot_id) w2
  = (safety, w3) ->
  run_restore World run_command get_snapshot create_snapshot backup_dir snapshot_id false w
  = (inr (failure "object ConfigSnapshot can't be used in 'await' expression"),
     mkState World w3
       ["cat " +:+ backup_dir +:+ "/snapshots/" +:+ snapshot_id +:+ "."
        +:+ format_value (format snapshot)]).
Proof.
  intros Hget Hcat Hcontent Hcreate.
  unfold run_restore, restore_from_snapshot, bind, lift, try_except, execute.
  cbn [world issued]. rewrite Hget. cbn [world issued]. rewrite Hcat.
  destruct (String.eqb_spec (stdout content) "") as [Hempty|_]; [done|].
  cbn [world issued]. rewrite Hcreate. reflexivity.
Qed.
End RestoreFacts.

(** C8 (the code departs from it): a restore that is not a dry run, on
    a snapshot that exists and can be read, calls [create_snapshot]
    for the safety snapshot [pre-restore-<id>] and then stops:
    awaiting the [ConfigSnapshot] it returned raises [TypeError],
    which the handler turns into a failure result.  The only command
    sent to the executor is the one that reads the stored text; no
    line of it is applied, and the failure names no line. *)
Theorem restore_never_applies {World : Type}
    (run_command : string -> World -> ConfigBackup.CommandResult * World)
    (get_snapshot : string -> World -> option ConfigBackup.ConfigSnapshot * World)
    (create_snapshot : string -> string -> World -> ConfigBackup.ConfigSnapshot * World)
    (backup_dir snapshot_id : string) (w : World)
    (snapshot : ConfigBackup.ConfigSnapshot) (w1 : World) :
  let read := "cat " +:+ backup_dir +:+ "/snapshots/" +:+ snapshot_id +:+ "."
              +:+ ConfigBackup.format_value (ConfigBackup.format snapshot) in
  let w2 := snd (run_command read w1) in
  let w3 := snd (create_snapshot ("pre-restore-" +:+ snapshot_id)
                   ("Automatic backup before restoring " +:+ snapshot_id) w2) in
  get_snapshot snapshot_id w = (Some snapshot, w1) ->
  ConfigBackup.stdout (fst (run_command read w1)) <> "" ->
  ConfigBackup.run_restore World run_command get_snapshot create_snapshot backup_dir
    snapshot_id false w
  = (inr (ConfigBackup.failure "object ConfigSnapshot can't be used in 'await' expression"),
     ConfigBackup.mkState World w3 [read]).
Proof.
  intros read w2 w3 Hget Hcontent. subst w3 w2.
  destruct (run_command read w1) as [content w2] eqn:Hcat.
  destruct (create_snapshot ("pre-restore-" +:+ snapshot_id)
              ("Automatic backup before restoring " +:+ snapshot_id) w2)
    as [safety w3] eqn:Hcreate.
  cbn [snd]. rewrite Hcreate. by eapply restore_stops_at_await.
Qed.

Lemma restore_never_applies_witness :
  calm_get_snapshot "abc" tt = (Some stored_snapshot, tt) /\
  ConfigBackup.stdout
    (fst (calm_device "cat /var/lib/vyos-webui/backups/snapshots/abc.vyos" tt)) <> "" /\
  ConfigBackup.run_restore unit calm_device calm_get_snapshot calm_create_snapshot
    "/var/lib/vyos-webui/backups" "abc" false tt
  = (inr (ConfigBackup.failure "object ConfigSnapshot can't be used in 'await' expression"),
     ConfigBackup.mkState unit tt ["cat /var/lib/vyos-webui/backups/snapshots/abc.vyos"]).
Proof.
  split; [reflexivity|]. split; [discriminate|].
  apply (restore_never_applies calm_device calm_get_snapshot calm_create_snapshot
           "/var/lib/vyos-webui/backups" "abc" tt stored_snapshot tt);
    [reflexivity | discriminate].
Defined.


(* ===================================================================== *)
(** * Part III: further properties of the code                           *)
(* ===================================================================== *)

(** ** Lookup and insertion in the tree *)

Section DictLaws.
Context {A : Type}.
Implicit Types (d : list (string * A)) (k : string).

Lemma dict_get_set_same k v d : dict_get k (dict_set k v d) = Some v.
Proof.
  induction d as [|[k' w] d IH]; simpl.
  - by rewrite String.eqb_refl.
  - destruct (String.eqb k k') eqn:E; simpl; rewrite E; [done | exact IH].
Qed.

Lemma dict_get_set_other k k' v d :
  k' <> k -> dict_get k' (dict_set k v d) = dict_get k' d.
Proof.
  intros Hne. induction d as [|[k0 w] d IH]; simpl.
  - destruct (String.eqb_spec k' k); [done | reflexivity].
  - destruct (String.eqb_spec k k0) as [->|Hk]; simpl.
    + destruct (String.eqb_spec k' k0); [done | reflexivity].
    + destruct (String.eqb_spec k' k0); [reflexivity | exact IH].
Qed.

Lemma dict_set_set_same k v v' d : dict_set k v (dict_set k v' d) = dict_set k v d.
Proof.
  induction d as [|[k0 w] d IH]; simpl.
  - by rewrite String.eqb_refl.
  - destruct (String.eqb k k0) eqn:E; simpl; rewrite E; [done | by rewrite IH].
Qed.

Lemma dict_contains_set k k' v d :
  dict_contains k' (dict_set k v d) = String.eqb k' k || dict_contains k' d.
Proof.
  unfold dict_contains. destruct (String.eqb_spec k' k) as [->|Hne].
  - by rewrite dict_get_set_same.
  - by rewrite dict_get_set_other.
Qed.

Lemma keys_unique_set k v d : keys_unique d = true -> keys_unique (dict_set k v d) = true.
Proof.
  induction d as [|[k0 w] d IH]; simpl; [done|]. intros H.
  apply andb_prop in H as [Hk0 Hd].
  destruct (String.eqb_spec k k0) as [->|Hne]; simpl.
  - by rewrite Hk0, Hd.
  - rewrite dict_contains_set, IH by done.
    destruct (String.eqb_spec k0 k); [congruence|]. simpl. by rewrite Hk0.
Qed.
End DictLaws.

(** X1: looking up a path in two steps is looking up the whole
    path; a prefix that is missing makes every longer path missing. *)
Theorem get_child_app {V : Type} (node : ConfigNode V) (p q : list string) :
  get_child node (p ++ q)
  = match get_child node p with
    | Some c => get_child c q
    | None => None
    end.
Proof.
  revert node. induction p as [|k p IH]; intros node; simpl; [done|].
  destruct (dict_get k (children node)) as [c|]; [apply IH | done].
Qed.

(** X2: [add_child] is a get-or-create.  The child it returns is the
    one already there, or a new empty node placed under the parent;
    calling it again changes nothing, and no other child is touched. *)
Theorem add_child_get_or_create {V : Type} (node : ConfigNode V) (name : string) :
  get_child (add_child node name) [name]
  = Some (default (new_node (path node ++ [name])) (dict_get name (children node))) /\
  add_child (add_child node name) name = add_child node name /\
  (forall other, other <> name ->
     dict_get other (children (add_child node name)) = dict_get other (children node)) /\
  value (add_child node name) = value node /\
  deleted (add_child node name) = deleted node.
Proof.
  unfold add_child, dict_contains.
  destruct (dict_get name (children node)) as [c|] eqn:G.
  - simpl. rewrite ?G. simpl. rewrite ?G. done.
  - cbn [children with_children get_child value deleted default].
    rewrite dict_get_set_same. split; [done|]. split; [done|]. split; [|done].
    intros other Hne. by rewrite dict_get_set_other.
Qed.

(** ** Trees built by from_dict, dictionaries built by to_dict *)

Section ShapeFacts.
Context {V : Type}.
Implicit Types (n node c : ConfigNode V) (cs : list (string * ConfigNode V)).
Implicit Types (items data : list (string * pyval V)).

Lemma forallb_dict_set_any {A : Type} (P : A -> bool) k (v : A) (d : list (string * A)) :
  forallb (fun kv => P (snd kv)) d = true -> P v = true ->
  forallb (fun kv => P (snd kv)) (dict_set k v d) = true.
Proof.
  intros Hd Hv. induction d as [|[k' w] d IH]; simpl in *.
  - by rewrite Hv.
  - apply andb_prop in Hd as [H1 H2].
    destruct (String.eqb k k'); simpl; [by rewrite Hv | rewrite H1; by apply IH].
Qed.

Lemma well_keyed_unfold items :
  well_keyed (PDict items)
  = keys_unique items && forallb (fun kv => well_keyed (snd kv)) items.
Proof.
  simpl. f_equal. induction items as [|[k v] items IH]; simpl; [done|]. by rewrite IH.
Qed.

Lemma without_none_unfold items :
  without_none (PDict items) = forallb (fun kv => without_none (snd kv)) items.
Proof.
  simpl. induction items as [|[k v] items IH]; simpl; [done|]. by rewrite IH.
Qed.

Lemma untombstoned_unfold n :
  untombstoned n = negb (deleted n) && forallb (fun kv => untombstoned (snd kv)) (children n).
Proof.
  destruct n as [p v cs d c]. simpl. f_equal.
  induction cs as [|[k ch] cs IH]; simpl; [done|]. by rewrite IH.
Qed.

Lemma placed_unfold p n :
  placed p n
  = bool_decide (path n = p)
    && forallb (fun kv => placed (p ++ [fst kv]) (snd kv)) (children n).
Proof.
  destruct n as [q v cs d c]. simpl. f_equal.
  induction cs as [|[k ch] cs IH]; simpl; [done|]. by rewrite IH.
Qed.

(** What [_populate] builds for one entry of a dictionary with
    pairwise different keys. *)
Lemma populate_entry_well_formed (v : pyval V) :
  well_keyed v = true -> forall p,
  let b := _populate_entry (new_node p) v in
  exclusive b = true /\ untombstoned b = true /\ placed p b = true.
Proof.
  induction v as [|x|items IH] using pyval_tree_ind; intros Hk p b; subst b.
  - simpl. by rewrite bool_decide_eq_true_2.
  - simpl. by rewrite bool_decide_eq_true_2.
  - rewrite well_keyed_unfold in Hk. apply andb_prop in Hk as [Hu Hall].
    rewrite populate_unfold.
    rewrite populate_items_children by (done || (intros; reflexivity)).
    rewrite exclusive_unfold, untombstoned_unfold, placed_unfold.
    cbn [value children deleted path with_children new_node app negb andb].
    rewrite bool_decide_eq_true_2 by done. cbn [andb].
    rewrite forallb_forall in Hall. rewrite Forall_forall in IH.
    assert (Hentry : forall kv, In kv items ->
              let b := _populate_entry (new_node (p ++ [fst kv])) (snd kv) in
              exclusive b = true /\ untombstoned b = true /\ placed (p ++ [fst kv]) b = true).
    { intros kv Hin. apply IH; [by apply list_elem_of_In | by apply Hall]. }
    split; [|split]; apply forallb_forall; intros kc Hin;
      apply in_map_iff in Hin as (kv & <- & Hin); apply (Hentry kv Hin).
Qed.

Lemma to_dict_items_well_formed cs : forall acc,
  Forall (fun kc => well_keyed (PDict (to_dict (snd kc))) = true /\
                    without_none (PDict (to_dict (snd kc))) = true) cs ->
  keys_unique acc = true ->
  forallb (fun kv => well_keyed (snd kv) && without_none (snd kv)) acc = true ->
  keys_unique (to_dict_items cs acc) = true /\
  forallb (fun kv => well_keyed (snd kv) && without_none (snd kv)) (to_dict_items cs acc)
  = true.
Proof.
  induction cs as [|[k c] cs IH]; intros acc Hcs Hu Hok; [done|].
  apply Forall_cons in Hcs as [[Hck Hcn] Hcs]. cbn [snd] in Hck, Hcn.
  cbn [to_dict_items]. destruct (deleted c); [by apply IH|].
  destruct (value c) as [x|].
  - apply IH; [done | by apply keys_unique_set |].
    by apply (forallb_dict_set_any (fun v => well_keyed v && without_none v)).
  - destruct (children c) eqn:E; [by apply IH|].
    apply IH; [done | by apply keys_unique_set |].
    apply (forallb_dict_set_any (fun v => well_keyed v && without_none v)); [done|].
    by rewrite Hck, Hcn.
Qed.
End ShapeFacts.

(** X3: the tree [from_dict] builds from a dictionary is well formed:
    no node has both a value and children, no node is tombstoned, and
    the [path] of every node is the list of keys that leads to it. *)
Theorem from_dict_well_formed {V : Type} (m : list (string * pyval V)) :
  well_keyed (PDict m) = true ->
  exclusive (from_dict m) = true /\
  untombstoned (from_dict m) = true /\
  placed [] (from_dict m) = true.
Proof.
  intros Hk. apply (populate_entry_well_formed (PDict m) Hk []).
Qed.

Lemma from_dict_well_formed_witness :
  well_keyed (PDict scenario_dict) = true /\
  exclusive (from_dict scenario_dict) = true /\
  placed [] (from_dict scenario_dict) = true /\
  (path <$> get_child (from_dict scenario_dict) ["interfaces"; "ethernet"; "eth0"])
  = Some ["interfaces"; "ethernet"; "eth0"].
Proof.
  split; [reflexivity|]. split; [|split; [|reflexivity]];
    apply (from_dict_well_formed scenario_dict); reflexivity.
Defined.

(** X4: whatever the tree, [to_dict] returns a proper nested
    dictionary: its keys are pairwise different at every level and it
    holds no [None]. *)
Theorem to_dict_well_formed {V : Type} (t : ConfigNode V) :
  well_keyed (PDict (to_dict t)) = true /\ without_none (PDict (to_dict t)) = true.
Proof.
  induction t as [p v cs d c IH] using ConfigNode_tree_ind.
  rewrite well_keyed_unfold, without_none_unfold, to_dict_unfold. cbn [children].
  destruct (to_dict_items_well_formed cs []) as [Hu Hok]; [|done|done|].
  - eapply Forall_impl; [exact IH|]. by intros kc H.
  - rewrite Hu. cbn [andb]. split.
    + apply forallb_forall. intros kv Hin. rewrite forallb_forall in Hok.
      by destruct (andb_prop _ _ (Hok kv Hin)).
    + apply forallb_forall. intros kv Hin. rewrite forallb_forall in Hok.
      by destruct (andb_prop _ _ (Hok kv Hin)).
Qed.

(** ** What a value hides *)

Section SeenAlike.
Context {V : Type}.
Implicit Types (n node c : ConfigNode V) (cs : list (string * ConfigNode V)).
Implicit Types (result : gmap string V) (acc : list (string * pyval V)).

Lemma seen_alike_refl c : seen_alike c c.
Proof. by repeat split. Qed.

Lemma seen_alike_all_refl cs : Forall2 same_key_seen_alike cs cs.
Proof. induction cs; constructor; [split; [done | apply seen_alike_refl] | done]. Qed.

Lemma child_part_seen_alike prefix name c c' result :
  seen_alike c c' -> child_part prefix name c result = child_part prefix name c' result.
Proof.
  intros (_ & Hv & Hnone). unfold child_part. rewrite <- Hv.
  destruct (value c); [done|]. by apply Hnone.
Qed.

Lemma flatten_items_seen_alike prefix cs cs' :
  Forall2 same_key_seen_alike cs cs' ->
  forall result, flatten_items prefix cs result = flatten_items prefix cs' result.
Proof.
  induction 1 as [|[k c] [k' c'] cs cs' [Hk Hc] _ IH]; intros result; [done|].
  simpl in Hk. subst k'. rewrite !flatten_items_cons.
  rewrite (child_part_seen_alike _ _ c c') by done. apply IH.
Qed.

Lemma to_dict_items_seen_alike cs cs' :
  Forall2 same_key_seen_alike cs cs' ->
  forall acc, to_dict_items cs acc = to_dict_items cs' acc.
Proof.
  induction 1 as [|[k c] [k' c'] cs cs' [Hk (Hd & Hv & Hnone)] _ IH]; intros acc; [done|].
  simpl in Hk, Hd, Hv, Hnone. subst k'. cbn [to_dict_items].
  rewrite <- Hd, <- Hv. destruct (deleted c); [apply IH|].
  destruct (value c); [apply IH|].
  destruct (Hnone eq_refl) as ([He1 He2] & Hdict & _).
  destruct (children c) as [|kc rest], (children c') as [|kc' rest'].
  - apply IH.
  - discriminate (He1 eq_refl).
  - discriminate (He2 eq_refl).
  - rewrite Hdict. apply IH.
Qed.

Lemma seen_alike_empty_iff cs cs' :
  Forall2 same_key_seen_alike cs cs' -> cs = [] <-> cs' = [].
Proof. by destruct 1. Qed.

Lemma seen_alike_with_children n cs' :
  Forall2 same_key_seen_alike (children n) cs' -> seen_alike n (with_children n cs').
Proof.
  intros H. split; [done|]. split; [done|]. intros _. split; [|split].
  - by apply seen_alike_empty_iff.
  - rewrite !to_dict_unfold. by apply to_dict_items_seen_alike.
  - intros prefix result. rewrite !flatten_unfold. by apply flatten_items_seen_alike.
Qed.

Lemma dict_set_seen_alike k c c' cs :
  dict_get k cs = Some c -> seen_alike c c' ->
  Forall2 same_key_seen_alike cs (dict_set k c' cs).
Proof.
  intros Hget Hc. induction cs as [|[k0 c0] cs IH]; simpl in *; [done|].
  destruct (String.eqb k k0).
  - injection Hget as ->. constructor; [by split | apply seen_alike_all_refl].
  - constructor; [split; [done | apply seen_alike_refl] | by apply IH].
Qed.

(** Replacing the children of a node that holds a value, anywhere
    below [c], is not seen from above [c]. *)
Lemma seen_alike_update_at target : forall c cs',
  (forall tgt, get_child c target = Some tgt -> value tgt <> None) ->
  seen_alike c (update_at c target (fun x => with_children x cs')).
Proof.
  induction target as [|k target IH]; intros c cs' Hval; simpl.
  - split; [done|]. split; [done|]. intros Hnone. by destruct (Hval c eq_refl).
  - destruct (dict_get k (children c)) as [c1|] eqn:G; [|apply seen_alike_refl].
    apply seen_alike_with_children. eapply dict_set_seen_alike; [exact G|].
    apply IH. intros tgt Htgt. apply Hval. simpl. by rewrite G.
Qed.
End SeenAlike.

(** X5: a value hides the children of its node.  Whatever children
    a node that holds a value is given (the state [add_child] can
    leave behind), [flatten] and [to_dict] of the tree are the same. *)
Theorem value_hides_children {V : Type} (t c : ConfigNode V) (target : list string)
    (cs' : list (string * ConfigNode V)) :
  target <> [] ->
  get_child t target = Some c ->
  value c <> None ->
  let t' := update_at t target (fun x => with_children x cs') in
  flatten t' = flatten t /\ to_dict t' = to_dict t.
Proof.
  intros Hne Hget Hval t'. subst t'. destruct target as [|k target]; [done|].
  simpl in *. destruct (dict_get k (children t)) as [c1|] eqn:G; [|done].
  assert (Hrel : Forall2 same_key_seen_alike (children t)
                   (dict_set k (update_at c1 target (fun x => with_children x cs'))
                             (children t))).
  { eapply dict_set_seen_alike; [exact G|]. apply seen_alike_update_at.
    intros tgt Htgt. congruence. }
  split.
  - unfold flatten. rewrite !flatten_unfold. symmetry.
    by apply flatten_items_seen_alike.
  - rewrite !to_dict_unfold. symmetry. by apply to_dict_items_seen_alike.
Qed.

Lemma value_hides_children_witness :
  let t := run_ops [AddChild [] "a"; SetValue ["a"] (Some "x")] (new_node (V := string) []) in
  let hidden := [("b", new_node ["a"; "b"])] in
  let t' := update_at t ["a"] (fun x => with_children x hidden) in
  ["a"] <> [] /\ (value <$> get_child t ["a"]) = Some (Some "x") /\ t' <> t /\
  flatten t' = flatten t /\ to_dict t' = to_dict t.
Proof.
  intros t hidden t'. split; [discriminate|]. split; [reflexivity|].
  split; [discriminate|].
  apply (value_hides_children t (mkNode ["a"] (Some "x") [] false None) ["a"] hidden);
    [discriminate | reflexivity | discriminate].
Defined.

(** ** What a diff says *)

(** X6: a path is in [added] exactly when only the new tree has it,
    in [removed] exactly when only the old tree has it, and in
    [modified] exactly when both have it with different values; the
    entry holds those values. *)
Theorem diff_classifies {V : Type} `{EqDecision V} (a b : ConfigNode V) (key : string) :
  let d := calculate_diff a b in
  (forall v, added d !! key = Some v <->
             flatten a !! key = None /\ flatten b !! key = Some v) /\
  (forall v, removed d !! key = Some v <->
             flatten a !! key = Some v /\ flatten b !! key = None) /\
  (forall o n, modified d !! key = Some (o, n) <->
               flatten a !! key = Some o /\ flatten b !! key = Some n /\ o <> n).
Proof.
  intros d. subst d. destruct (calculate_diff_lookup a b key) as (-> & -> & ->).
  unfold added_at, removed_at, modified_at.
  destruct (flatten a !! key) as [x|], (flatten b !! key) as [y|];
    repeat split; intros; try destruct (decide (x = y));
    try (destruct_and?; congruence); try naive_solver.
Qed.

(** X7: the diff of two trees is empty exactly when they flatten to
    the same map; so the diff of a tree with itself is empty. *)
Theorem diff_empty_iff_same_flatten {V : Type} `{EqDecision V} (a b : ConfigNode V) :
  (is_empty (calculate_diff a b) = true <-> flatten a = flatten b) /\
  is_empty (calculate_diff a a) = true.
Proof.
  assert (Hiff : forall x y : ConfigNode V,
            is_empty (calculate_diff x y) = true <-> flatten x = flatten y).
  { intros x y. unfold is_empty. rewrite !andb_true_iff, !bool_decide_eq_true. split.
    - intros [[Ha Hr] Hm]. apply map_eq. intros key.
      destruct (calculate_diff_lookup x y key) as (Ha' & Hr' & Hm').
      rewrite Ha in Ha'. rewrite Hr in Hr'. rewrite Hm in Hm'.
      rewrite lookup_empty in Ha'. rewrite lookup_empty in Hr'. rewrite lookup_empty in Hm'.
      unfold added_at, removed_at, modified_at in *.
      destruct (flatten x !! key) as [o|], (flatten y !! key) as [n|]; try done.
      destruct (decide (o = n)); [by subst | done].
    - intros Hflat.
      repeat split; apply map_eq; intros key; rewrite lookup_empty;
        destruct (calculate_diff_lookup x y key) as (Ha' & Hr' & Hm');
        rewrite ?Ha', ?Hr', ?Hm';
        unfold added_at, removed_at, modified_at; rewrite Hflat;
        destruct (flatten y !! key) as [n|]; try done.
      by rewrite decide_True. }
  split; [apply Hiff | by apply Hiff].
Qed.

(** X8: the diff is a patch: the flattened new tree is read off the
    flattened old tree and the diff, and no path is in two of the
    three maps. *)
Theorem diff_is_a_patch {V : Type} `{EqDecision V} (a b : ConfigNode V) (key : string) :
  let d := calculate_diff a b in
  flatten b !! key
  = match added d !! key, modified d !! key, removed d !! key with
    | Some v, _, _ => Some v
    | None, Some (_, n), _ => Some n
    | None, None, Some _ => None
    | None, None, None => flatten a !! key
    end /\
  (is_Some (added d !! key) -> modified d !! key = None /\ removed d !! key = None) /\
  (is_Some (modified d !! key) -> removed d !! key = None).
Proof.
  intros d. subst d. destruct (calculate_diff_lookup a b key) as (-> & -> & ->).
  unfold added_at, removed_at, modified_at.
  destruct (flatten a !! key) as [x|], (flatten b !! key) as [y|];
    try destruct (decide (x = y)); subst; repeat split; try done;
    intros [? ?]; done.
Qed.

(** ** Applying commands *)

Section ApplyFacts.
Implicit Types (node n c : ConfigNode string) (f g : ConfigNode string -> ConfigNode string).

(** [on_child] in one step: the child is the one there or a new
    one, and [f] of it is stored under its name. *)
Lemma on_child_shape node name f :
  on_child node name f
  = with_children node
      (dict_set name
         (f (default (new_node (path node ++ [name])) (dict_get name (children node))))
         (children node)).
Proof.
  unfold on_child, add_child, dict_contains.
  destruct (dict_get name (children node)) as [c|] eqn:G.
  - by rewrite G.
  - cbn [children with_children default]. rewrite dict_get_set_same.
    unfold with_children. cbn [path value children deleted comment].
    by rewrite dict_set_set_same.
Qed.

Lemma on_child_get node name f :
  dict_get name (children (on_child node name f))
  = Some (f (default (new_node (path node ++ [name])) (dict_get name (children node)))).
Proof. rewrite on_child_shape. cbn [children with_children]. apply dict_get_set_same. Qed.

Lemma on_child_twice node name f :
  (forall c, f (f c) = f c) -> on_child (on_child node name f) name f = on_child node name f.
Proof.
  intros Hf. rewrite (on_child_shape (on_child node name f)).
  rewrite on_child_get. unfold default at 1. cbn [from_option]. unfold id at 1. rewrite Hf.
  rewrite on_child_shape. unfold with_children. cbn [path value children deleted comment].
  by rewrite dict_set_set_same.
Qed.

Lemma update_child_twice node name g :
  (forall c, g (g c) = g c) ->
  update_child (update_child node name g) name g = update_child node name g.
Proof.
  intros Hg. destruct (dict_get name (children node)) as [c|] eqn:G.
  - assert (E : update_child node name g
                = with_children node (dict_set name (g c) (children node)))
      by (unfold update_child; by rewrite G).
    rewrite E. unfold update_child. cbn [children with_children].
    by rewrite dict_get_set_same, Hg, dict_set_set_same.
  - assert (E : update_child node name g = node) by (unfold update_child; by rewrite G).
    by rewrite !E.
Qed.

Lemma descend_twice parents : forall node g,
  (forall c, g (g c) = g c) ->
  descend (descend node parents g) parents g = descend node parents g.
Proof.
  induction parents as [|part rest IH]; intros node g Hg; simpl; [apply Hg|].
  apply on_child_twice. intros c. by apply IH.
Qed.

Lemma apply_final_twice (command : ConfigCommand) node :
  apply_final command (apply_final command node) = apply_final command node.
Proof.
  unfold apply_final. destruct (cmd_path command) as [|k ks]; [done|].
  destruct (String.eqb (command_type command) "set").
  - destruct (cmd_value command) as [v|].
    + apply on_child_twice. by intros c.
    + apply add_child_get_or_create.
  - destruct (String.eqb (command_type command) "delete").
    + apply update_child_twice. by intros c.
    + destruct (String.eqb (command_type command) "comment"); [|done].
      apply update_child_twice. by intros c.
Qed.

(** The node [descend] reaches is where [get_child] arrives. *)
Lemma descend_get parents : forall node f,
  exists reached, forall q,
    get_child (descend node parents f) (parents ++ q) = get_child (f reached) q.
Proof.
  induction parents as [|part rest IH]; intros node f; simpl.
  - by exists node.
  - destruct (IH (default (new_node (path node ++ [part]))
                          (dict_get part (children node))) f) as [reached Hreached].
    exists reached. intros q. by rewrite on_child_get.
Qed.

Lemma flat_eq_apply_final (command : ConfigCommand) node :
  command_type command <> "set" \/ cmd_value command = None ->
  flat_eq node (apply_final command node).
Proof.
  intros Hquiet. unfold apply_final.
  destruct (cmd_path command) as [|k ks]; [apply flat_eq_refl|].
  destruct (String.eqb_spec (command_type command) "set") as [Hset|_].
  - destruct Hquiet as [Hne| ->]; [done|]. apply flat_eq_add_child.
  - destruct (String.eqb (command_type command) "delete").
    + apply flat_eq_update_child. intros c. apply flat_eq_with_deleted.
    + destruct (String.eqb (command_type command) "comment"); [|apply flat_eq_refl].
      apply flat_eq_update_child. intros c. apply flat_eq_with_comment.
Qed.
End ApplyFacts.

(** X9: after a [set] command with a value, [get_child] along the
    path of the command finds a node that holds the value and has no
    children, whatever the tree was. *)
Theorem set_then_get_child (t : ConfigNode string) (command : ConfigCommand) (v : string) :
  command_type command = "set" ->
  cmd_value command = Some v ->
  cmd_path command <> [] ->
  exists c,
    get_child (_apply_command t command) (cmd_path command) = Some c /\
    value c = Some v /\ children c = [].
Proof.
  intros Hty Hv Hpath. unfold _apply_command.
  destruct (descend_get (removelast (cmd_path command)) t (apply_final command))
    as [reached Hreached].
  pose proof (Hreached [List.last (cmd_path command) ""]) as Hget.
  rewrite <- (app_removelast_last "" Hpath) in Hget. rewrite Hget. clear Hget Hreached.
  unfold apply_final. rewrite Hty, Hv. cbn [String.eqb Ascii.eqb Bool.eqb].
  destruct (cmd_path command) as [|k ks] eqn:E; [done|].
  cbn [get_child]. rewrite on_child_get. by eexists.
Qed.

Lemma set_then_get_child_witness :
  let command := mkCommand "set" ["system"; "host-name"] (Some "vyos") "" in
  (value <$> get_child (_apply_command (from_dict scenario_dict) command)
                       ["system"; "host-name"]) = Some (Some "vyos").
Proof.
  intros command.
  destruct (set_then_get_child (from_dict scenario_dict) command "vyos")
    as (c & Hc & Hv & _); [reflexivity | reflexivity | discriminate |].
  cbn [cmd_path command] in Hc. rewrite Hc. simpl. by rewrite Hv.
Defined.

(** X10: applying a command a second time changes nothing, for every
    command and every tree. *)
Theorem apply_command_twice (t : ConfigNode string) (command : ConfigCommand) :
  _apply_command (_apply_command t command) command = _apply_command t command.
Proof.
  unfold _apply_command. apply descend_twice. apply apply_final_twice.
Qed.

(** X11: only a [set] command with a value can change [flatten]:
    [delete], [comment], [rename], [edit], a [set] without value and
    a command of any other type leave it as it is, even when they
    create the nodes of their path. *)
Theorem only_set_changes_flatten (t : ConfigNode string) (command : ConfigCommand) :
  command_type command <> "set" \/ cmd_value command = None ->
  flatten (_apply_command t command) = flatten t.
Proof.
  intros Hquiet. symmetry. unfold _apply_command.
  apply flat_eq_descend. intros n. by apply flat_eq_apply_final.
Qed.

Lemma only_set_changes_flatten_witness :
  let command := mkCommand "edit" ["protocols"; "bgp"; "65000"] None "" in
  let t := from_dict scenario_dict in
  _apply_command t command <> t /\ flatten (_apply_command t command) = flatten t.
Proof.
  intros command t. split; [discriminate|].
  apply (only_set_changes_flatten t command). left. discriminate.
Defined.

(** ** The tokenizer *)

Section TokenFacts.
Implicit Types (s cur : string) (st : tokenizer) (c : ascii).

Lemma append_assoc_str (a b d : string) : (a +:+ b) +:+ d = a +:+ (b +:+ d).
Proof.
  induction a as [|x a IH]; [done|]. rewrite !append_cons. by rewrite IH.
Qed.

Lemma append_char_nonempty cur c : String.eqb (cur +:+ String c "") "" = false.
Proof. destruct cur; reflexivity. Qed.

Lemma split_ws_space c s : isspace c = true -> split_ws (String c s) = split_ws s.
Proof. intros H. simpl. by rewrite H. Qed.

Lemma split_ws_letter c s :
  isspace c = false ->
  exists w ws, split_ws (String c s) = String c w :: ws /\
    match s with
    | "" => w = "" /\ ws = []
    | String c' _ => if isspace c' then w = "" /\ ws = split_ws s else split_ws s = w :: ws
    end.
Proof.
  intros H. revert c H. induction s as [|c' s IH]; intros c H.
  - exists "", []. simpl. by rewrite H.
  - destruct (isspace c') eqn:E.
    + exists "", (split_ws (String c' s)). simpl. by rewrite H, E.
    + destruct (IH c' E) as (w & ws & Hsplit & _).
      exists (String c' w), ws. split; [|exact Hsplit].
      change (split_ws (String c (String c' s)))
        with (if isspace c then split_ws (String c' s)
              else if isspace c' then String c "" :: split_ws (String c' s)
                   else match split_ws (String c' s) with
                        | w :: ws => String c w :: ws
                        | [] => [String c ""]
                        end).
      by rewrite H, E, Hsplit.
Qed.

(** [continue_token] against [split_ws]. *)
Lemma continue_token_split s : forall cur,
  continue_token cur s
  = match s with
    | "" => if String.eqb cur "" then [] else [cur]
    | String c _ =>
        if isspace c then (if String.eqb cur "" then [] else [cur]) ++ split_ws s
        else match split_ws s with
             | w :: ws => (cur +:+ w) :: ws
             | [] => [cur]
             end
    end.
Proof.
  induction s as [|c s IH]; intros cur; [done|].
  cbn [continue_token]. destruct (isspace c) eqn:E.
  - rewrite split_ws_space by done. f_equal. rewrite IH. destruct s as [|c' s]; [done|].
    destruct (isspace c') eqn:E'; [done|].
    destruct (split_ws_letter c' s E') as (w & ws & -> & _). done.
  - destruct (split_ws_letter c s E) as (w & ws & Hsplit & Hshape). rewrite Hsplit, IH.
    destruct s as [|c' s].
    + destruct Hshape as [-> ->]. by rewrite append_char_nonempty.
    + destruct (isspace c') eqn:E'.
      * destruct Hshape as [-> ->]. by rewrite append_char_nonempty.
      * rewrite Hshape. by rewrite append_assoc_str.
Qed.

Lemma continue_token_start s : continue_token "" s = split_ws s.
Proof.
  rewrite continue_token_split. destruct s as [|c s]; [done|].
  destruct (isspace c) eqn:E; [done|].
  by destruct (split_ws_letter c s E) as (w & ws & -> & _).
Qed.

Lemma tokenizer_run_quote_free s : forall ts cur q,
  quote_free s = true ->
  tokenizer_finish (tokenizer_run s (mkTok ts cur false q)) = ts ++ continue_token cur s.
Proof.
  induction s as [|c s IH]; intros ts cur q Hq.
  - simpl. unfold tokenizer_finish. simpl.
    destruct (String.eqb cur ""); [by rewrite app_nil_r | done].
  - simpl in Hq. apply andb_prop in Hq as [Hc Hs]. apply negb_true_iff in Hc.
    cbn [tokenizer_run continue_token]. unfold tokenizer_step.
    cbn [in_quotes tokens current_token quote_char]. rewrite Hc. cbn [andb negb].
    rewrite andb_true_r. destruct (isspace c).
    + destruct (String.eqb_spec cur "") as [->|Hcur]; rewrite IH by done; [done|].
      by rewrite <- app_assoc.
    + by rewrite IH.
Qed.

Lemma tokens_nonempty_step st c :
  Forall (fun t => t <> "") (tokens st) ->
  Forall (fun t => t <> "") (tokens (tokenizer_step st c)).
Proof.
  intros H. unfold tokenizer_step.
  destruct (is_quote c && _); [done|]. destruct (isspace c && _); [|done].
  destruct (String.eqb_spec (current_token st) ""); [done|].
  cbn [tokens]. apply Forall_app. split; [done|]. by constructor.
Qed.

Lemma tokens_nonempty_run s : forall st,
  Forall (fun t => t <> "") (tokens st) ->
  Forall (fun t => t <> "") (tokens (tokenizer_run s st)).
Proof.
  induction s as [|c s IH]; intros st H; [done|].
  simpl. apply IH. by apply tokens_nonempty_step.
Qed.
End TokenFacts.

(** X12: on a text without quote characters [_tokenize_path] is
    [str.split()]: the maximal runs of characters that are not
    whitespace. *)
Theorem tokenize_without_quotes (s : string) :
  quote_free s = true -> _tokenize_path s = split_ws s.
Proof.
  intros Hq. unfold _tokenize_path, tokenizer_start.
  rewrite tokenizer_run_quote_free by done. apply continue_token_start.
Qed.

Lemma tokenize_without_quotes_witness :
  quote_free "  interfaces   ethernet eth0 " = true /\
  _tokenize_path "  interfaces   ethernet eth0 " = ["interfaces"; "ethernet"; "eth0"].
Proof.
  split; [reflexivity|].
  rewrite (tokenize_without_quotes "  interfaces   ethernet eth0 "); reflexivity.
Defined.

(** X13: [_tokenize_path] never yields an empty token, whatever the
    text and its quotes: an empty quoted substring yields no token. *)
Theorem tokenize_no_empty_token (s : string) :
  Forall (fun t => t <> "") (_tokenize_path s).
Proof.
  unfold _tokenize_path, tokenizer_finish.
  assert (H : Forall (fun t => t <> "") (tokens (tokenizer_run s tokenizer_start)))
    by (apply tokens_nonempty_run; constructor).
  destruct (String.eqb_spec (current_token (tokenizer_run s tokenizer_start)) "");
    [done|].
  apply Forall_app. split; [done|]. by constructor.
Qed.

(** ** Stripped lines *)

Section StripFacts.
Implicit Types (s : string) (c : ascii).

Lemma lstrip_idem s : lstrip (lstrip s) = lstrip s.
Proof.
  induction s as [|c s IH]; [done|]. simpl. destruct (isspace c) eqn:E; [exact IH|].
  simpl. by rewrite E.
Qed.

Lemma rstrip_idem s : rstrip (rstrip s) = rstrip s.
Proof.
  induction s as [|c s IH]; [done|]. simpl.
  destruct (rstrip s) as [|a r] eqn:E.
  - destruct (isspace c) eqn:Ec; [done|]. simpl. by rewrite Ec.
  - change (rstrip (String c (String a r)))
      with (match rstrip (String a r) with
            | "" => if isspace c then "" else String c ""
            | String x y => String c (String x y)
            end).
    by rewrite IH.
Qed.

Lemma rstrip_tail c s : rstrip (String c s) = String c s -> s <> "" -> rstrip s = s.
Proof.
  simpl. destruct (rstrip s) as [|a r] eqn:E.
  - destruct (isspace c); [discriminate|]. intros [= <-]. done.
  - intros [= <-]. done.
Qed.

Lemma rstrip_lstrip s : rstrip s = s -> rstrip (lstrip s) = lstrip s.
Proof.
  induction s as [|c s IH]; [done|]. intros H. simpl.
  destruct (isspace c) eqn:E; [|exact H].
  destruct s as [|c' s]; [done|]. apply IH. by apply (rstrip_tail c).
Qed.

Lemma strip_clean s : lstrip (strip s) = strip s /\ rstrip (strip s) = strip s.
Proof.
  unfold strip. split; [apply lstrip_idem|]. apply rstrip_lstrip, rstrip_idem.
Qed.

Lemma strip_idem s : strip (strip s) = strip s.
Proof.
  destruct (strip_clean s) as [Hl Hr]. unfold strip at 1. by rewrite Hr, Hl.
Qed.

Lemma one_line_lstrip s : one_line s = true -> one_line (lstrip s) = true.
Proof.
  induction s as [|c s IH]; [done|]. intros H. simpl.
  destruct (isspace c); [|exact H]. simpl in H. apply andb_prop in H as [_ H]. by apply IH.
Qed.

Lemma one_line_rstrip s : one_line s = true -> one_line (rstrip s) = true.
Proof.
  induction s as [|c s IH]; [done|]. intros H. simpl in H.
  apply andb_prop in H as [Hc Hs]. specialize (IH Hs). simpl.
  destruct (rstrip s) as [|a r].
  - destruct (isspace c); [done|]. simpl. by rewrite Hc.
  - change (one_line (String c (String a r)))
      with (negb (Ascii.eqb c newline) && one_line (String a r)).
    by rewrite Hc, IH.
Qed.

Lemma one_line_strip s : one_line s = true -> one_line (strip s) = true.
Proof. intros H. by apply one_line_lstrip, one_line_rstrip. Qed.
End StripFacts.

(** X14: [parse_line] reads a line up to the whitespace around it:
    the line and the stripped line parse alike, and the [original] of
    the command is the stripped line. *)
Theorem parse_line_ignores_margins (line : string) :
  parse_line (strip line) = parse_line line /\
  forall command, parse_line line = Some command -> original command = strip line.
Proof.
  split.
  - unfold parse_line. by rewrite strip_idem.
  - intros command. unfold parse_line.
    destruct (String.eqb (strip line) "" || startswith (strip line) "#"
              || startswith (strip line) "!"); [discriminate|].
    destruct (rmatch SET_PATTERN (strip line)) as [gs|].
    { intros [= <-]. unfold _parse_set_command.
      by destruct (_split_path_and_value (strip (group gs 1))). }
    destruct (rmatch DELETE_PATTERN (strip line)) as [gs|]; [by intros [= <-]|].
    destruct (rmatch COMMENT_PATTERN (strip line)) as [gs|]; [by intros [= <-]|].
    destruct (rmatch RENAME_PATTERN (strip line)) as [gs|]; [by intros [= <-]|].
    destruct (rmatch EDIT_PATTERN (strip line)) as [gs|]; [by intros [= <-] | discriminate].
Qed.

(** ** The path of a set command *)

Section SetPathFacts.
Implicit Types (s : string) (c w : ascii).

Lemma first_down_inv attempt lo k gs :
  first_down attempt lo k = Some gs ->
  exists j, lo <= j /\ j <= k /\ attempt j = Some gs.
Proof.
  induction k as [|k IH]; simpl.
  - destruct (Nat.ltb_spec 0 lo); [discriminate|].
    destruct (attempt 0) eqn:E; [|discriminate]. intros [= <-]. exists 0. split; [lia|done].
  - destruct (Nat.ltb_spec (S k) lo); [discriminate|].
    destruct (attempt (S k)) eqn:E.
    + intros [= <-]. exists (S k). split; [lia|done].
    + intros Hrec. destruct (IH Hrec) as (j & Hlo & Hk & Hj).
      exists j. split; [lia|]. split; [lia|done].
Qed.

Lemma first_down_some attempt lo k j :
  lo <= j -> j <= k -> attempt j <> None -> first_down attempt lo k <> None.
Proof.
  intros Hlo Hk Hj. induction k as [|k IH].
  - assert (j = 0) as -> by lia. simpl. destruct (Nat.ltb_spec 0 lo); [lia|].
    by destruct (attempt 0).
  - simpl. destruct (Nat.ltb_spec (S k) lo); [lia|].
    destruct (attempt (S k)) eqn:E; [done|].
    apply IH. destruct (decide (j = S k)) as [->|]; [congruence | lia].
Qed.

Lemma rmatch_rest_all s :
  s <> "" -> one_line s = true -> rmatch [rest_of_line; Eos] s = Some [s].
Proof.
  intros Hne Hline.
  change (rmatch [rest_of_line; Eos] s)
    with (first_down
            (fun k => match rmatch [Eos] (str_drop k s) with
                      | Some gs => Some (str_take k s :: gs)
                      | None => None
                      end) 1 (run_length cls_dot s)).
  rewrite run_length_one_line by done.
  apply first_down_hit; [destruct s; [done | simpl; lia]|].
  by rewrite str_drop_all, str_take_all.
Qed.

Lemma rmatch_rest_inv s gs :
  rmatch [rest_of_line; Eos] s = Some gs ->
  exists j, j <= run_length cls_dot s /\ gs = [str_take j s].
Proof.
  change (rmatch [rest_of_line; Eos] s)
    with (first_down
            (fun k => match rmatch [Eos] (str_drop k s) with
                      | Some gs => Some (str_take k s :: gs)
                      | None => None
                      end) 1 (run_length cls_dot s)).
  intros H. apply first_down_inv in H as (j & _ & Hj & Hatt). exists j. split; [done|].
  simpl in Hatt. destruct (at_end (str_drop j s)); [|discriminate]. by injection Hatt as <-.
Qed.

Lemma rmatch_skip_inv cls lo rest s gs :
  rmatch (Rep cls lo true false :: rest) s = Some gs ->
  exists j, rmatch rest (str_drop j s) = Some gs.
Proof.
  change (rmatch (Rep cls lo true false :: rest) s)
    with (first_down
            (fun k => match rmatch rest (str_drop k s) with
                      | Some gs => Some gs
                      | None => None
                      end) lo (run_length cls s)).
  intros H. apply first_down_inv in H as (j & _ & _ & Hatt). exists j.
  by destruct (rmatch rest (str_drop j s)).
Qed.

Lemma rmatch_lit_inv ic lit rest s gs :
  rmatch (Lit ic lit :: rest) s = Some gs -> exists s', rmatch rest s' = Some gs.
Proof.
  simpl. destruct (skip_literal ic lit s) as [s'|]; [|discriminate]. intros H. by exists s'.
Qed.

Lemma one_line_take j s : j <= run_length cls_dot s -> one_line (str_take j s) = true.
Proof.
  revert j. induction s as [|c s IH]; intros j Hj; [by destruct j|].
  destruct j as [|j]; [done|]. simpl in Hj. unfold cls_dot at 1 in Hj. simpl.
  destruct (negb (Ascii.eqb c newline)); simpl in *; [apply IH; lia | lia].
Qed.

Lemma one_line_drop j s : one_line s = true -> one_line (str_drop j s) = true.
Proof.
  revert j. induction s as [|c s IH]; intros j H; [by destruct j|].
  destruct j as [|j]; [done|]. simpl in *. apply andb_prop in H as [_ H]. by apply IH.
Qed.

(** The group of a line that matches [SET_PATTERN] holds no
    newline. *)
Lemma set_group_one_line s gs :
  rmatch SET_PATTERN s = Some gs -> one_line (group gs 1) = true.
Proof.
  unfold SET_PATTERN, ws0, ws1. intros H.
  apply rmatch_skip_inv in H as (j0 & H). apply rmatch_lit_inv in H as (s1 & H).
  apply rmatch_skip_inv in H as (j1 & H). apply rmatch_rest_inv in H as (j & Hj & ->).
  by apply one_line_take.
Qed.

Lemma space_is_whitespace c : Ascii.eqb c space = true -> isspace c = true.
Proof. intros H. apply Ascii.eqb_eq in H. by subst. Qed.

Lemma no_whitespace_rsplit s : has_whitespace s = false -> rsplit1 space s = None.
Proof.
  induction s as [|c s IH]; [done|]. simpl. intros H.
  apply orb_false_iff in H as [Hc Hs]. rewrite IH by done.
  destruct (Ascii.eqb c space) eqn:E; [|done].
  apply space_is_whitespace in E. congruence.
Qed.

Lemma no_whitespace_split s :
  has_whitespace s = false -> split_ws s = match s with "" => [] | _ => [s] end.
Proof.
  induction s as [|c s IH]; [done|]. intros H. simpl in H.
  apply orb_false_iff in H as [Hc Hs]. specialize (IH Hs).
  destruct (split_ws_letter c s Hc) as (w & ws & Hsplit & Hshape). rewrite Hsplit.
  destruct s as [|c' s]; [by destruct Hshape as [-> ->]|].
  simpl in Hs. apply orb_false_iff in Hs as [Hc' _]. rewrite Hc' in Hshape.
  rewrite IH in Hshape. by injection Hshape as <- <-.
Qed.

Lemma run_length_le (cls cls' : ascii -> bool) s :
  (forall c, cls c = true -> cls' c = true) -> run_length cls s <= run_length cls' s.
Proof.
  intros Himp. induction s as [|c s IH]; simpl; [lia|].
  destruct (cls c) eqn:E; [|lia]. rewrite (Himp c E). lia.
Qed.

(** Where the first whitespace of a text stands. *)
Lemma first_whitespace s :
  has_whitespace s = true ->
  exists w rest,
    str_drop (run_length (fun c => negb (isspace c)) s) s = String w rest /\
    isspace w = true.
Proof.
  induction s as [|c s IH]; [discriminate|]. simpl. intros H.
  destruct (isspace c) eqn:E; simpl.
  - by exists c, s.
  - by apply IH.
Qed.

Lemma rstrip_drop j : forall s,
  rstrip s = s -> str_drop j s <> "" -> rstrip (str_drop j s) = str_drop j s.
Proof.
  induction j as [|j IH]; intros s Hs Hne; [by destruct s|].
  destruct s as [|c s]; [done|]. simpl in *. apply IH; [|done].
  apply (rstrip_tail c); [done|]. intros ->. by destruct j.
Qed.

Lemma all_whitespace_rstrip s :
  str_drop (run_length cls_space s) s = "" -> rstrip s = "".
Proof.
  induction s as [|c s IH]; [done|]. simpl. unfold cls_space at 1.
  destruct (isspace c) eqn:E; simpl; [|discriminate].
  intros H. by rewrite (IH H).
Qed.

(** [\s+(.+)$] matches a text that starts with whitespace, does not
    end with it and holds no newline. *)
Lemma rmatch_gap_rest w rest :
  isspace w = true -> one_line (String w rest) = true ->
  rstrip (String w rest) = String w rest ->
  rmatch [ws1; rest_of_line; Eos] (String w rest) <> None.
Proof.
  intros Hw Hline Hclean.
  change (rmatch [ws1; rest_of_line; Eos] (String w rest))
    with (first_down
            (fun k => match rmatch [rest_of_line; Eos] (str_drop k (String w rest)) with
                      | Some gs => Some gs
                      | None => None
                      end) 1 (run_length cls_space (String w rest))).
  apply (first_down_some _ 1 _ (run_length cls_space (String w rest))).
  - simpl. unfold cls_space at 1. rewrite Hw. lia.
  - lia.
  - rewrite rmatch_rest_all; [done | | by apply one_line_drop].
    intros Hall. apply all_whitespace_rstrip in Hall. congruence.
Qed.

(** [VALUE_PATTERN] matches every stripped one-line text that
    holds whitespace. *)
Lemma value_pattern_matches s :
  has_whitespace s = true -> one_line s = true -> lstrip s = s -> rstrip s = s ->
  exists gs, rmatch VALUE_PATTERN s = Some gs.
Proof.
  intros Hws Hline Hl Hr. destruct s as [|c s]; [discriminate|].
  pose proof (lstrip_fixed_head _ _ Hl) as Hc.
  unfold VALUE_PATTERN. rewrite rmatch_ws0 by done.
  destruct (rmatch (Rep cls_not_blank 1 true true :: [ws1; rest_of_line; Eos])
              (String c s)) as [gs|] eqn:E; [by exists gs|]. exfalso. revert E.
  change (rmatch (Rep cls_not_blank 1 true true :: [ws1; rest_of_line; Eos]) (String c s))
    with (first_down
            (fun k => match rmatch [ws1; rest_of_line; Eos] (str_drop k (String c s)) with
                      | Some gs => Some (str_take k (String c s) :: gs)
                      | None => None
                      end) 1 (run_length cls_not_blank (String c s))).
  destruct (first_whitespace (String c s) Hws) as (w & rest & Hdrop & Hw).
  apply (first_down_some _ 1 _ (run_length (fun c => negb (isspace c)) (String c s))).
  - simpl. rewrite Hc. simpl. lia.
  - apply run_length_le. intros x Hx. unfold cls_not_blank.
    destruct (Ascii.eqb x space) eqn:Ex; [|done].
    apply space_is_whitespace in Ex. by rewrite Ex in Hx.
  - rewrite Hdrop.
    assert (Hgap : rmatch [ws1; rest_of_line; Eos] (String w rest) <> None).
    { apply rmatch_gap_rest; [done| |].
      - rewrite <- Hdrop. by apply one_line_drop.
      - rewrite <- Hdrop. apply rstrip_drop; [done|]. by rewrite Hdrop. }
    by destruct (rmatch [ws1; rest_of_line; Eos] (String w rest)).
Qed.

Lemma split_path_short s :
  one_line s = true -> lstrip s = s -> rstrip s = s ->
  length (fst (_split_path_and_value s)) <= 1.
Proof.
  intros Hline Hl Hr. unfold _split_path_and_value.
  destruct (rmatch VALUE_PATTERN s) as [gs|] eqn:E; [simpl; lia|].
  destruct (has_whitespace s) eqn:Hws.
  - destruct (value_pattern_matches s Hws Hline Hl Hr) as [gs Hgs]. congruence.
  - rewrite no_whitespace_rsplit by done. simpl. rewrite no_whitespace_split by done.
    destruct s; simpl; lia.
Qed.
End SetPathFacts.

(** X15: the path of a [set] command that [parse_line] yields has at
    most one segment; every further word of the line is part of the
    value. *)
Theorem set_path_is_one_word (line : string) (command : ConfigCommand) :
  parse_line line = Some command ->
  command_type command = "set" ->
  length (cmd_path command) <= 1.
Proof.
  unfold parse_line.
  destruct (String.eqb (strip line) "" || startswith (strip line) "#"
            || startswith (strip line) "!"); [discriminate|].
  destruct (rmatch SET_PATTERN (strip line)) as [gs|] eqn:Hset.
  - intros [= <-] _. unfold _parse_set_command.
    pose proof (split_path_short (strip (group gs 1))) as Hshort.
    destruct (_split_path_and_value (strip (group gs 1))) as [p v].
    cbn [cmd_path fst] in *.
    apply Hshort; [|apply strip_clean|apply strip_clean].
    apply one_line_strip. exact (set_group_one_line _ _ Hset).
  - destruct (rmatch DELETE_PATTERN (strip line)) as [gs|]; [by intros [= <-]|].
    destruct (rmatch COMMENT_PATTERN (strip line)) as [gs|]; [by intros [= <-]|].
    destruct (rmatch RENAME_PATTERN (strip line)) as [gs|]; [by intros [= <-]|].
    destruct (rmatch EDIT_PATTERN (strip line)) as [gs|]; [by intros [= <-] | discriminate].
Qed.

Lemma set_path_is_one_word_witness :
  let line := "set firewall name WAN_IN rule 10 action accept" in
  let command := mkCommand "set" ["firewall"] (Some "name WAN_IN rule 10 action accept") line in
  parse_line line = Some command /\ length (cmd_path command) <= 1.
Proof.
  intros line command. split; [reflexivity|].
  apply (set_path_is_one_word line command); reflexivity.
Defined.

(** ** The rule set and the walk of the validator *)

Section RuleSetFacts.
Context {Callable : Type}.
Implicit Types (rules : list (string * ValidationRule Callable)) (path q : string).
Implicit Types (rule r : ValidationRule Callable).

Lemma first_pattern_app q rules rules' :
  first_pattern q (rules ++ rules')
  = match first_pattern q rules with
    | Some r => Some r
    | None => first_pattern q rules'
    end.
Proof.
  induction rules as [|[p r] rules IH]; simpl; [done|].
  destruct (_path_matches p q); [done | exact IH].
Qed.

Lemma dict_del_last {A : Type} k (v : A) (d : list (string * A)) :
  dict_contains k d = false -> dict_del k (d ++ [(k, v)]) = d.
Proof.
  unfold dict_contains. induction d as [|[k' w] d IH]; simpl.
  - by rewrite String.eqb_refl.
  - destruct (String.eqb k k'); [done|]. intros H. by rewrite IH.
Qed.

Lemma dict_get_del_same {A : Type} k (d : list (string * A)) :
  keys_unique d = true -> dict_get k (dict_del k d) = None.
Proof.
  induction d as [|[k' w] d IH]; simpl; [done|]. intros H.
  apply andb_prop in H as [Hk Hd]. destruct (String.eqb k k') eqn:E.
  - apply String.eqb_eq in E. subst k'. unfold dict_contains in Hk.
    by destruct (dict_get k d).
  - simpl. rewrite E. by apply IH.
Qed.

Lemma dict_get_del_other {A : Type} k k' (d : list (string * A)) :
  k' <> k -> dict_get k' (dict_del k d) = dict_get k' d.
Proof.
  intros Hne. induction d as [|[k0 w] d IH]; simpl; [done|].
  destruct (String.eqb_spec k k0) as [->|Hk]; simpl.
  - by destruct (String.eqb_spec k' k0).
  - destruct (String.eqb_spec k' k0); [done | exact IH].
Qed.
End RuleSetFacts.

(** X16: [add_rule(path, rule)] makes [rule] the rule applied to
    [path], whatever the set held for it before, and leaves the
    exact-path rule of every other path in place. *)
Theorem add_rule_overrides {Callable : Type}
    (rules : list (string * ValidationRule Callable)) (path : string)
    (rule : ValidationRule Callable) :
  _find_matching_rule (add_rule rules path rule) path = Some rule /\
  forall q r, q <> path -> dict_get q rules = Some r ->
    _find_matching_rule (add_rule rules path rule) q = Some r.
Proof.
  unfold add_rule. split.
  - rewrite find_matching_rule_unfold, dict_contains_set, String.eqb_refl. simpl.
    apply dict_get_set_same.
  - intros q r Hne Hq. rewrite find_matching_rule_unfold, dict_contains_set.
    unfold dict_contains. rewrite Hq, orb_true_r. by rewrite dict_get_set_other.
Qed.

(** X17: a rule added under a new pattern goes last: every path that
    had a rule keeps it, and a path that had none gets the new rule
    exactly when the new pattern matches it. *)
Theorem add_rule_goes_last {Callable : Type}
    (rules : list (string * ValidationRule Callable)) (pattern q : string)
    (rule : ValidationRule Callable) :
  dict_contains pattern rules = false ->
  q <> pattern ->
  _find_matching_rule (add_rule rules pattern rule) q
  = match _find_matching_rule rules q with
    | Some r => Some r
    | None => if _path_matches pattern q then Some rule else None
    end.
Proof.
  intros Hnew Hne. unfold add_rule. rewrite dict_set_fresh by done.
  rewrite !find_matching_rule_unfold, dict_contains_app.
  assert (Hq : dict_contains q [(pattern, rule)] = false).
  { unfold dict_contains. simpl. by destruct (String.eqb_spec q pattern). }
  rewrite Hq, orb_false_r. destruct (dict_contains q rules) eqn:E.
  - apply dict_contains_get in E as [r Hr].
    assert (dict_get q (rules ++ [(pattern, rule)]) = Some r) as ->; [|by rewrite Hr].
    clear -Hr. induction rules as [|[k w] rules IH]; simpl in *; [done|].
    destruct (String.eqb q k); [done | by apply IH].
  - rewrite first_pattern_app. by destruct (first_pattern q rules).
Qed.

Lemma add_rule_goes_last_witness :
  let rules := STANDARD_RULES (Callable := unit) in
  let rule := mkRule false None None None None (Some "^[0-9]+$") None in
  let rules' := add_rule rules "firewall.name.*.rule.*.*" rule in
  dict_contains "firewall.name.*.rule.*.*" rules = false /\
  (required <$> _find_matching_rule rules' "firewall.name.in.rule.10.action") = Some true /\
  _find_matching_rule rules' "firewall.name.in.rule.10.log" = Some rule.
Proof.
  intros rules rule rules'. split; [reflexivity|]. subst rules'. split.
  - rewrite (add_rule_goes_last rules "firewall.name.*.rule.*.*"
               "firewall.name.in.rule.10.action" rule); [reflexivity|reflexivity|discriminate].
  - rewrite (add_rule_goes_last rules "firewall.name.*.rule.*.*"
               "firewall.name.in.rule.10.log" rule); [reflexivity|reflexivity|discriminate].
Defined.

(** X18: [remove_rule] takes the exact rule of a path away and
    touches no other; on a path without a rule it does nothing, and it
    undoes an [add_rule] of a new path. *)
Theorem remove_rule_removes {Callable : Type}
    (rules : list (string * ValidationRule Callable)) (path : string)
    (rule : ValidationRule Callable) :
  keys_unique rules = true ->
  dict_get path (remove_rule rules path) = None /\
  (forall q, q <> path -> dict_get q (remove_rule rules path) = dict_get q rules) /\
  (dict_contains path rules = false ->
   remove_rule rules path = rules /\
   remove_rule (add_rule rules path rule) path = rules).
Proof.
  intros Hu. unfold remove_rule, add_rule. split; [|split].
  - destruct (dict_contains path rules) eqn:E; [by apply dict_get_del_same|].
    unfold dict_contains in E. by destruct (dict_get path rules).
  - intros q Hne. destruct (dict_contains path rules); [|done].
    by apply dict_get_del_other.
  - intros Hnew. rewrite Hnew. split; [done|].
    rewrite dict_contains_set, String.eqb_refl. simpl.
    rewrite dict_set_fresh by done. by apply dict_del_last.
Qed.

Lemma remove_rule_removes_witness :
  let rules := STANDARD_RULES (Callable := unit) in
  keys_unique rules = true /\
  dict_get "service.ssh.port" (remove_rule rules "service.ssh.port") = None /\
  length (remove_rule rules "service.ssh.port") = 9.
Proof.
  intros rules. split; [reflexivity|]. split; [|reflexivity].
  apply (remove_rule_removes rules "service.ssh.port"
           (mkRule false None None None None None None)). reflexivity.
Defined.

Section WalkFacts.
Context {V Callable : Type}.
Variable _validate_value : string -> V -> ValidationRule Callable -> list ValidationError.
Implicit Types (rules : list (string * ValidationRule Callable)).
Implicit Types (node : ConfigNode V) (cs : list (string * ConfigNode V)).

Lemma validate_node_unfold rules node path_prefix errors :
  _validate_node _validate_value rules node path_prefix errors
  = validate_children _validate_value rules path_prefix (children node)
      (match value node with
       | Some v => errors ++ node_errors _validate_value rules path_prefix v
       | None => errors
       end).
Proof. destruct node; reflexivity. Qed.

Lemma drop_deleted_unfold node :
  drop_deleted node
  = mkNode (path node) (value node) (drop_deleted_children (children node))
           (deleted node) (comment node).
Proof. destruct node; reflexivity. Qed.

Lemma drop_deleted_keeps_flag node : deleted (drop_deleted node) = deleted node.
Proof. destruct node; reflexivity. Qed.

Lemma validate_drop_deleted rules node : forall path_prefix errors,
  _validate_node _validate_value rules (drop_deleted node) path_prefix errors
  = _validate_node _validate_value rules node path_prefix errors.
Proof.
  induction node as [p v cs d c IH] using ConfigNode_tree_ind.
  intros path_prefix errors. rewrite !validate_node_unfold, drop_deleted_unfold.
  cbn [children value].
  generalize (match v with
              | Some v0 => errors ++ node_errors _validate_value rules path_prefix v0
              | None => errors
              end).
  induction IH as [|[k ch] cs Hch _ IHcs]; intros acc; [done|].
  cbn [drop_deleted_children validate_children].
  destruct (deleted ch) eqn:E; cbn [negb]; [apply IHcs|].
  cbn [validate_children]. rewrite drop_deleted_keeps_flag, E. cbn [negb].
  rewrite Hch. apply IHcs.
Qed.
End WalkFacts.

(** X19: [validate] does not enter a tombstoned child: the errors
    of a tree are those of the tree without its tombstoned subtrees. *)
Theorem validate_skips_tombstones {V Callable : Type}
    (_validate_value : string -> V -> ValidationRule Callable -> list ValidationError)
    (rules : list (string * ValidationRule Callable)) (config : ConfigNode V) :
  validate _validate_value rules (drop_deleted config) = validate _validate_value rules config.
Proof. apply validate_drop_deleted. Qed.

(** ** The snapshot store: lookup, deletion, and the files behind the index *)

Section StoreFacts.
Context {V : Type}.
Variable _calculate_hash : list (string * pyval V) -> string.
Variable _generate_snapshot_id : Z -> string.
Implicit Types (m : manager V) (l : list (ConfigSnapshot V)) (s : ConfigSnapshot V).
Implicit Types (id : string).

Abbreviation has_id id := (fun s : ConfigSnapshot V => String.eqb (snapshot_id s) id).

Lemma find_id_app id l l' :
  List.find (has_id id) (l ++ l')
  = match List.find (has_id id) l with
    | Some s => Some s
    | None => List.find (has_id id) l'
    end.
Proof.
  induction l as [|s l IH]; simpl; [done|].
  by destruct (String.eqb (snapshot_id s) id).
Qed.

Lemma find_id_none id l :
  List.find (has_id id) l = None <-> ~ In id (map snapshot_id l).
Proof.
  induction l as [|s l IH]; simpl; [tauto|].
  destruct (String.eqb_spec (snapshot_id s) id) as [E|E]; [|tauto].
  split; [discriminate | intros H; exfalso; apply H; by left].
Qed.

Lemma find_id_some id l s :
  List.find (has_id id) l = Some s -> In s l /\ snapshot_id s = id.
Proof.
  intros H. apply find_some in H as [Hin Heq]. by apply String.eqb_eq in Heq.
Qed.

Lemma find_id_filter_same id l :
  List.find (has_id id) (List.filter (fun s => negb (String.eqb (snapshot_id s) id)) l) = None.
Proof.
  induction l as [|s l IH]; simpl; [done|].
  destruct (String.eqb (snapshot_id s) id) eqn:E; simpl; [exact IH|]. by rewrite E.
Qed.

Lemma find_id_filter_other id other l :
  other <> id ->
  List.find (has_id other) (List.filter (fun s => negb (String.eqb (snapshot_id s) id)) l)
  = List.find (has_id other) l.
Proof.
  intros Hne. induction l as [|s l IH]; simpl; [done|].
  destruct (String.eqb_spec (snapshot_id s) id) as [E|E]; simpl.
  - destruct (String.eqb_spec (snapshot_id s) other) as [E'|E']; [congruence | exact IH].
  - by destruct (String.eqb (snapshot_id s) other).
Qed.

Lemma sort_newest_last s l :
  (forall r, In r l -> (timestamp r < timestamp s)%Z) ->
  sort_newest_first (l ++ [s]) = s :: sort_newest_first l.
Proof.
  unfold sort_newest_first. induction l as [|a l IH]; intros Hnew; [done|].
  cbn [app foldr]. rewrite IH by (intros r Hr; apply Hnew; by right).
  cbn [insert_newest_first].
  assert (Ha : (timestamp a < timestamp s)%Z) by (apply Hnew; by left).
  by apply Z.ltb_lt in Ha as ->.
Qed.

(** Both slices of [_prune_old_snapshots] cut at the same place. *)
Lemma slices_cut l (n : Z) :
  exists k, slice_to l n = firstn k l /\ slice_from l n = skipn k l.
Proof.
  unfold slice_to, slice_from. destruct (0 <=? n)%Z; eauto.
Qed.

Lemma lookup_after_unlink l (files : gmap string (ConfigSnapshot V)) id :
  ~ In id (map snapshot_id l) ->
  fold_left (fun fs s => delete (snapshot_id s) fs) l files !! id = files !! id.
Proof.
  revert files. induction l as [|s l IH]; intros files Hid; [done|].
  cbn [fold_left]. rewrite IH by (intros H; apply Hid; by right).
  apply lookup_delete_ne. intros E. apply Hid. by left.
Qed.

Lemma nodup_ids_cut l k :
  NoDup (map snapshot_id l) ->
  NoDup (map snapshot_id (firstn k l)) /\
  forall r, In r (firstn k l) -> ~ In (snapshot_id r) (map snapshot_id (skipn k l)).
Proof.
  intros Hnd. rewrite <- (firstn_skipn k l), map_app in Hnd.
  apply NoDup_app in Hnd as (Hkept & Hsep & _). split; [exact Hkept|].
  intros r Hr Hout. apply (Hsep (snapshot_id r)).
  - apply list_elem_of_In. by apply in_map.
  - by apply list_elem_of_In.
Qed.

Lemma prune_keeps_sync m : in_sync m -> in_sync (_prune_old_snapshots m).
Proof.
  intros [Hnd Hfiles]. unfold _prune_old_snapshots.
  destruct (Z.of_nat (length (snapshots m)) <=? max_snapshots m)%Z; [done|].
  set (sorted := sort_newest_first (snapshots m)).
  assert (Hperm : Permutation sorted (snapshots m)) by apply sort_newest_first_perm.
  destruct (slices_cut sorted (max_snapshots m)) as (k & -> & ->).
  assert (Hsorted : NoDup (map snapshot_id sorted)).
  { apply NoDup_ListNoDup. apply (Permutation_NoDup (l := map snapshot_id (snapshots m))).
    - apply Permutation_map. by symmetry.
    - by apply NoDup_ListNoDup. }
  destruct (nodup_ids_cut sorted k Hsorted) as [Hkept Hsep].
  split; cbn [snapshots snapshot_files]; [exact Hkept|].
  intros s Hs. rewrite lookup_after_unlink by by apply Hsep.
  apply Hfiles. apply (Permutation_in _ Hperm). by apply (in_before_cut k).
Qed.
End StoreFacts.

(** X20: a snapshot just created is found again under its id, and
    restoring it gives the tree rebuilt from the exported dictionary,
    when the index had room for it and no snapshot of that id, or when
    the index was full and the new snapshot is more recent than all it
    held. *)
Theorem create_then_get {V : Type}
    (_calculate_hash : list (string * pyval V) -> string)
    (_generate_snapshot_id : Z -> string)
    (m : manager V) (now_id now : Z) (config : ConfigNode V) (descr : option string) :
  (_find_snapshot m (_generate_snapshot_id now_id) = None /\
   (Z.of_nat (length (snapshots m)) < max_snapshots m)%Z) \/
  ((1 <= max_snapshots m)%Z /\
   (max_snapshots m <= Z.of_nat (length (snapshots m)))%Z /\
   forall r, In r (snapshots m) -> (timestamp r < now)%Z) ->
  let result :=
    create_snapshot _calculate_hash _generate_snapshot_id m now_id now config descr in
  get_snapshot (fst result) (snapshot_id (snd result)) = Some (snd result) /\
  restore_snapshot (fst result) (snapshot_id (snd result))
  = Some (from_dict (to_dict config)).
Proof.
  intros Hcase result.
  set (c := mkCall now_id now config descr).
  set (s := created _calculate_hash _generate_snapshot_id c).
  assert (Hfind : _find_snapshot (fst result) (snapshot_id s) = Some s).
  { unfold _find_snapshot.
    change (fst result) with (do_create _calculate_hash _generate_snapshot_id m c).
    rewrite do_create_snapshots. cbv zeta. fold s.
    assert (Hlen : length (snapshots m ++ [s]) = S (length (snapshots m))).
    { rewrite length_app. simpl. lia. }
    rewrite Hlen. destruct Hcase as [[Hfresh Hroom]|(Hmax & Hfull & Hnew)].
    - destruct (Z.leb_spec (Z.of_nat (S (length (snapshots m)))) (max_snapshots m)); [|lia].
      rewrite find_id_app. unfold _find_snapshot in Hfresh.
      change (snapshot_id s) with (_generate_snapshot_id now_id). rewrite Hfresh.
      simpl. by rewrite String.eqb_refl.
    - destruct (Z.leb_spec (Z.of_nat (S (length (snapshots m)))) (max_snapshots m)); [lia|].
      rewrite sort_newest_last by exact Hnew.
      rewrite slice_to_nonneg by lia.
      destruct (Z.to_nat (max_snapshots m)) as [|k] eqn:Ek; [lia|].
      simpl. by rewrite String.eqb_refl. }
  change (snd result) with s. unfold get_snapshot, restore_snapshot. by rewrite Hfind.
Qed.

Lemma create_then_get_witness :
  let result :=
    create_snapshot no_hash same_id (manager_init 10 ∅ None) 1 1 (new_node []) None in
  get_snapshot (fst result) (snapshot_id (snd result)) = Some (snd result) /\
  restore_snapshot (fst result) (snapshot_id (snd result))
  = Some (from_dict (to_dict (new_node []))).
Proof.
  apply (create_then_get no_hash same_id (manager_init 10 ∅ None) 1 1 (new_node []) None).
  left. split; [reflexivity | simpl; lia].
Defined.

(** X21: [delete_snapshot] returns [True] exactly when the index
    holds a snapshot of the id.  Afterwards no snapshot of the index
    has the id, every other id is found as before, and when something
    was deleted the file of the id is gone, no other file is touched
    and the index file holds the new index; when nothing was, the
    store is unchanged. *)
Theorem delete_snapshot_effect {V : Type} (m : manager V) (id : string) :
  let m' := fst (delete_snapshot m id) in
  let done := snd (delete_snapshot m id) in
  (done = true <-> exists s, In s (snapshots m) /\ snapshot_id s = id) /\
  (done = false -> m' = m) /\
  _find_snapshot m' id = None /\
  (forall other, other <> id -> _find_snapshot m' other = _find_snapshot m other) /\
  (done = true ->
   snapshot_files m' !! id = None /\
   (forall other, other <> id -> snapshot_files m' !! other = snapshot_files m !! other) /\
   index_file m' = Some (snapshots m')).
Proof.
  unfold delete_snapshot. cbv zeta.
  destruct (_find_snapshot m id) as [s|] eqn:Hfind; cbn [fst snd].
  - unfold _find_snapshot in *. cbn [_save_index snapshots snapshot_files index_file].
    split; [|split; [|split; [|split]]].
    + split; [|done]. intros _. exists s. by apply find_id_some.
    + discriminate.
    + apply find_id_filter_same.
    + intros other Hne. by apply find_id_filter_other.
    + intros _. split; [apply lookup_delete_eq|]. split; [|done].
      intros other Hne. by apply lookup_delete_ne.
  - split; [|split; [|split; [|split]]]; try done.
    split; [discriminate|]. intros (s & Hin & Hid).
    unfold _find_snapshot in Hfind. apply find_id_none in Hfind.
    exfalso. apply Hfind. subst id. by apply in_map.
Qed.

(** X22: creating a snapshot under an id the index does not hold
    keeps the index and the storage directory in agreement: ids
    pairwise distinct, and every snapshot of the index in the file of
    its id, also after pruning. *)
Theorem create_keeps_sync {V : Type}
    (_calculate_hash : list (string * pyval V) -> string)
    (_generate_snapshot_id : Z -> string)
    (m : manager V) (now_id now : Z) (config : ConfigNode V) (descr : option string) :
  in_sync m ->
  _find_snapshot m (_generate_snapshot_id now_id) = None ->
  in_sync (fst (create_snapshot _calculate_hash _generate_snapshot_id m now_id now
                  config descr)).
Proof.
  intros [Hnd Hfiles] Hfresh. unfold create_snapshot. cbv zeta. cbn [fst].
  set (id := _generate_snapshot_id now_id) in *.
  set (s := mkSnapshot id now descr _ _).
  apply find_id_none in Hfresh.
  assert (Hsync : in_sync (_prune_old_snapshots
            (mkManager (max_snapshots m) (snapshots m ++ [s])
               (<[id := s]> (snapshot_files m)) (index_file m)))).
  { apply prune_keeps_sync. split; cbn [snapshots snapshot_files].
    - rewrite map_app. apply NoDup_app. split; [exact Hnd|]. split.
      + intros x Hx Hin%list_elem_of_In. destruct Hin as [<-|[]]. apply Hfresh.
        by apply list_elem_of_In.
      + apply NoDup_singleton.
    - intros r [Hr|[<-|[]]]%in_app_or.
      + rewrite lookup_insert_ne; [by apply Hfiles|].
        intros E. apply Hfresh. rewrite E. by apply in_map.
      + apply lookup_insert_eq. }
  exact Hsync.
Qed.

Lemma create_keeps_sync_witness :
  in_sync (V := string) sample_store /\
  in_sync (fst (create_snapshot no_hash (fun _ => "s3") sample_store 40 40 (new_node []) None)).
Proof.
  assert (Hstart : in_sync (V := string) sample_store).
  { split.
    - simpl. apply NoDup_cons. split; [|apply NoDup_singleton].
      intros H%list_elem_of_In. by destruct H as [|[]].
    - intros s [<-|[<-|[]]]; reflexivity. }
  split; [exact Hstart|].
  apply (create_keeps_sync no_hash (fun _ => "s3") sample_store 40 40 (new_node []) None);
    [exact Hstart | reflexivity].
Defined.

(** X23: [delete_snapshot] keeps the index and the storage
    directory in agreement. *)
Theorem delete_keeps_sync {V : Type} (m : manager V) (id : string) :
  in_sync m -> in_sync (fst (delete_snapshot m id)).
Proof.
  intros [Hnd Hfiles]. unfold delete_snapshot.
  destruct (_find_snapshot m id) as [s|]; cbn [fst]; [|done].
  split; cbn [_save_index snapshots snapshot_files].
  - clear Hfiles. induction (snapshots m) as [|r l IH]; simpl; [constructor|].
    simpl in Hnd. apply NoDup_cons in Hnd as [Hr Hl].
    destruct (String.eqb (snapshot_id r) id); simpl; [by apply IH|].
    apply NoDup_cons. split; [|by apply IH].
    intros Hin. apply Hr. apply list_elem_of_In in Hin. apply list_elem_of_In.
    apply in_map_iff in Hin as (x & Hx & Hin). apply filter_In in Hin as [Hin _].
    rewrite <- Hx. by apply in_map.
  - intros r Hr. apply filter_In in Hr as [Hr Hid].
    rewrite lookup_delete_ne; [by apply Hfiles|].
    intros E. rewrite E, String.eqb_refl in Hid. discriminate.
Qed.

Lemma delete_keeps_sync_witness :
  in_sync (V := string) sample_store /\
  in_sync (fst (delete_snapshot (V := string) sample_store "s1")).
Proof.
  assert (Hstart : in_sync (V := string) sample_store).
  { split.
    - simpl. apply NoDup_cons. split; [|apply NoDup_singleton].
      intros H%list_elem_of_In. by destruct H as [|[]].
    - intros s [<-|[<-|[]]]; reflexivity. }
  split; [exact Hstart|].
  apply (delete_keeps_sync sample_store "s1"). exact Hstart.
Defined.

(** ** The backup service: what a restore and an import can do *)

Section StoreLogFacts.
Import ConfigBackup ConfigBackupStore StoreLogSpec.
Variable Outside : Type.
Variable device_run : string -> Outside -> CommandResult * Outside.
Variable uuid4 : Outside -> string * Outside.
Variable datetime_now : Outside -> Z * Outside.
Variable sha256_hex : string -> string.
Variable json_configuration : list string -> string.
Variable json_metadata : ConfigSnapshot -> list (string * string) -> string.
Variable decode_meta : string -> option ConfigSnapshot.
Variable py_int : string -> option Z.
Variable backup_dir : string.
Implicit Types (w : logged Outside) (command : string).

Abbreviation run := (@run_logged Outside device_run).
Abbreviation get := (@get_snapshot Outside device_run decode_meta backup_dir).
Abbreviation create :=
  (@create_snapshot Outside device_run uuid4 datetime_now sha256_hex json_configuration
     json_metadata py_int backup_dir).

Lemma startswith_app (p q x : string) :
  startswith p q = true -> startswith (p +:+ x) q = true.
Proof.
  revert p. induction q as [|a q IH]; intros p H; [apply startswith_nil|].
  destruct p as [|b p]; [done|]. rewrite append_cons. simpl in *.
  apply andb_prop in H as [-> H]. by apply IH.
Qed.

Lemma bookkeeping_not_transaction command :
  bookkeeping command = true -> transaction_command command = false.
Proof.
  intros Hb. destruct (transaction_command command) eqn:Ht; [|done]. exfalso.
  unfold transaction_command in Ht.
  repeat (apply orb_prop in Ht as [Ht|Ht]);
    try (apply String.eqb_eq in Ht; subst command; discriminate Hb).
  destruct command as [|a command]; [discriminate|]. cbn [startswith] in Ht.
  apply andb_prop in Ht as [Ha _]. apply Ascii.eqb_eq in Ha. subst a.
  cbv in Hb. discriminate Hb.
Qed.

Lemma only_bookkeeping_refl (l : list string) : only_bookkeeping l l.
Proof. exists []. by rewrite app_nil_r. Qed.

Lemma only_bookkeeping_trans (a b c : list string) :
  only_bookkeeping a b -> only_bookkeeping b c -> only_bookkeeping a c.
Proof.
  intros (x & -> & Hx) (y & -> & Hy). exists (x ++ y).
  split; [by rewrite app_assoc | by apply Forall_app].
Qed.

Lemma run_logged_sent command w : sent Outside (snd (run command w)) = sent Outside w ++ [command].
Proof. unfold run_logged. by destruct (device_run command (outside Outside w)). Qed.

Lemma run_logged_bookkeeping command w :
  bookkeeping command = true ->
  only_bookkeeping (sent Outside w) (sent Outside (snd (run command w))).
Proof.
  intros Hb. rewrite run_logged_sent. exists [command]. split; [done|].
  constructor; [|constructor]. split; [done | by apply bookkeeping_not_transaction].
Qed.

Lemma cat_is_bookkeeping (x : string) : bookkeeping ("cat " +:+ x) = true.
Proof.
  unfold bookkeeping. rewrite (startswith_app "cat " "cat " x) by reflexivity.
  by rewrite orb_true_r.
Qed.

Lemma heredoc_is_bookkeeping (x : string) : bookkeeping ("cat << 'EOF' > " +:+ x) = true.
Proof.
  unfold bookkeeping. rewrite (startswith_app "cat << 'EOF' > " "cat " x) by reflexivity.
  by rewrite orb_true_r.
Qed.

Lemma metadata_is_bookkeeping (x : string) :
  bookkeeping ("cat << 'META_EOF' > " +:+ x) = true.
Proof.
  unfold bookkeeping.
  rewrite (startswith_app "cat << 'META_EOF' > " "cat " x) by reflexivity.
  by rewrite orb_true_r.
Qed.

Lemma ls_is_bookkeeping (x : string) : bookkeeping ("ls -1 " +:+ x) = true.
Proof.
  unfold bookkeeping. by rewrite (startswith_app "ls -1 " "ls -1 " x) by reflexivity.
Qed.

Lemma wc_is_bookkeeping (x : string) : bookkeeping ("wc -c " +:+ x) = true.
Proof.
  unfold bookkeeping. rewrite (startswith_app "wc -c " "wc -c " x) by reflexivity.
  by rewrite !orb_true_r.
Qed.

Lemma read_meta_log (acc : list ConfigSnapshot * logged Outside) (meta_file : string) :
  only_bookkeeping (sent Outside (snd acc))
    (sent Outside (snd (read_meta Outside device_run decode_meta backup_dir acc meta_file))).
Proof.
  destruct acc as [snapshots w]. unfold read_meta.
  pose proof (run_logged_bookkeeping
                ("cat " +:+ backup_dir +:+ "/snapshots/" +:+ meta_file) w
                (cat_is_bookkeeping _)) as Hrun.
  destruct (run _ w) as [cmd_result w1]. cbn [snd] in *.
  destruct (String.eqb (stdout cmd_result) ""); [done|].
  by destruct (decode_meta (stdout cmd_result)).
Qed.

Lemma read_all_meta_log (files : list string) : forall acc,
  only_bookkeeping (sent Outside (snd acc))
    (sent Outside
       (snd (fold_left (read_meta Outside device_run decode_meta backup_dir) files acc))).
Proof.
  induction files as [|f files IH]; intros acc; [apply only_bookkeeping_refl|].
  cbn [fold_left]. eapply only_bookkeeping_trans; [apply read_meta_log | apply IH].
Qed.

Lemma get_snapshot_log snapshot_id w :
  only_bookkeeping (sent Outside w) (sent Outside (snd (get snapshot_id w))).
Proof.
  unfold get_snapshot, list_snapshots.
  pose proof (run_logged_bookkeeping
                ("ls -1 " +:+ backup_dir +:+ "/snapshots 2>/dev/null || echo ''") w
                (ls_is_bookkeeping _)) as Hrun.
  destruct (run _ w) as [result w1]. cbn [snd] in Hrun.
  destruct (String.eqb (stdout result) ""); [done|].
  pose proof (read_all_meta_log
                (List.filter (fun f => endswith f ".meta") (split_on newline (stdout result)))
                ([], w1)) as Hfold.
  destruct (fold_left _ _ _) as [snapshots w2]. cbn [snd] in *.
  by eapply only_bookkeeping_trans.
Qed.

Lemma create_snapshot_log name description format w :
  only_bookkeeping (sent Outside w) (sent Outside (snd (create name description format w))).
Proof.
  unfold create_snapshot, _get_version_info, _save_snapshot_metadata.
  destruct (uuid4 (outside Outside w)) as [snapshot_id o1].
  destruct (datetime_now o1) as [now o2].
  set (w0 := mkLogged Outside o2 (sent Outside w)).
  pose proof (run_logged_bookkeeping
                "/opt/vyatta/bin/vyatta-op-cmd-wrapper show configuration commands" w0
                eq_refl) as H1.
  destruct (run _ w0) as [result w1]. cbn [snd] in H1.
  pose proof (run_logged_bookkeeping
                "/opt/vyatta/bin/vyatta-op-cmd-wrapper show version" w1 eq_refl) as H2.
  destruct (run _ w1) as [version w2]. cbn [snd] in H2.
  match goal with
  | |- context [run ("cat << 'EOF' > " +:+ ?x) w2] =>
      pose proof (run_logged_bookkeeping _ w2 (heredoc_is_bookkeeping x)) as H3;
      destruct (run ("cat << 'EOF' > " +:+ x) w2) as [written w3]
  end.
  cbn [snd] in H3.
  match goal with
  | |- context [run ("wc -c " +:+ ?x) w3] =>
      pose proof (run_logged_bookkeeping _ w3 (wc_is_bookkeeping x)) as H4;
      destruct (run ("wc -c " +:+ x) w3) as [size_result w4]
  end.
  cbn [snd] in H4.
  assert (Hfour : only_bookkeeping (sent Outside w) (sent Outside w4)).
  { change (sent Outside w) with (sent Outside w0).
    eapply only_bookkeeping_trans; [exact H1|].
    eapply only_bookkeeping_trans; [exact H2|].
    eapply only_bookkeeping_trans; [exact H3 | exact H4]. }
  destruct (if String.eqb (stdout size_result) "" then Some 0%Z
            else size_of py_int (stdout size_result)) as [size|]; cbn [snd]; [|done].
  eapply only_bookkeeping_trans; [exact Hfour|].
  apply run_logged_bookkeeping, metadata_is_bookkeeping.
Qed.
End StoreLogFacts.

(** X24: a call of [restore_from_snapshot] on the snapshot store
    returns a result; success is reported exactly for a dry run on a
    snapshot that [get_snapshot] finds.  Counting every command that
    reaches the executor, those of [get_snapshot] and
    [create_snapshot] included, a dry run sends what [get_snapshot]
    sends and nothing more, and no call sends a command of the restore
    transaction: each command sent lists or reads the store, shows the
    configuration or the version, or writes a file of the backup
    directory. *)
Theorem restore_outcomes {Outside : Type}
    (device_run : string -> Outside -> ConfigBackup.CommandResult * Outside)
    (uuid4 : Outside -> string * Outside) (datetime_now : Outside -> Z * Outside)
    (sha256_hex : string -> string) (json_configuration : list string -> string)
    (json_metadata : ConfigBackup.ConfigSnapshot -> list (string * string) -> string)
    (decode_meta : string -> option ConfigBackup.ConfigSnapshot)
    (py_int : string -> option Z)
    (backup_dir snapshot_id : string) (dry_run : bool)
    (w : ConfigBackupStore.logged Outside) :
  let found :=
    @ConfigBackupStore.get_snapshot Outside device_run decode_meta backup_dir snapshot_id w in
  exists r st,
    ConfigBackupStore.restore_from_snapshot Outside device_run uuid4 datetime_now sha256_hex
      json_configuration json_metadata decode_meta py_int backup_dir snapshot_id dry_run w
    = (inr r, st) /\
    (ConfigBackup.success r = true <-> dry_run = true /\ fst found <> None) /\
    (dry_run = true ->
     ConfigBackupStore.sent Outside (ConfigBackup.world _ st)
     = ConfigBackupStore.sent Outside (snd found)) /\
    StoreLogSpec.only_bookkeeping (ConfigBackupStore.sent Outside w)
      (ConfigBackupStore.sent Outside (ConfigBackup.world _ st)).
Proof.
  intros found.
  pose proof (get_snapshot_log Outside device_run decode_meta backup_dir snapshot_id w)
    as Hget.
  fold found in Hget. subst found.
  unfold ConfigBackupStore.restore_from_snapshot, ConfigBackup.run_restore,
    ConfigBackup.restore_from_snapshot, ConfigBackup.bind, ConfigBackup.lift,
    ConfigBackup.try_except, ConfigBackup.execute.
  cbn [ConfigBackup.world ConfigBackup.issued].
  destruct (ConfigBackupStore.get_snapshot _ _ _ _ snapshot_id w) as [[snapshot|] w1];
    cbn [fst snd] in *.
  - destruct dry_run.
    + eexists _, _. split; [reflexivity|]. cbn. split; [|split]; [|done|done].
      split; [done|]. intros _. reflexivity.
    + cbn [ConfigBackup.world ConfigBackup.issued].
      match goal with
      | |- context [ConfigBackupStore.run_logged _ _ ("cat " +:+ ?x) w1] =>
          pose proof (run_logged_bookkeeping Outside device_run _ w1
                        (cat_is_bookkeeping x)) as Hread;
          destruct (ConfigBackupStore.run_logged Outside device_run ("cat " +:+ x) w1)
            as [content w2]
      end.
      cbn [snd] in Hread.
      assert (Hw2 : StoreLogSpec.only_bookkeeping (ConfigBackupStore.sent Outside w)
                      (ConfigBackupStore.sent Outside w2))
        by (by eapply only_bookkeeping_trans).
      destruct (String.eqb (ConfigBackup.stdout content) "").
      * eexists _, _. split; [reflexivity|]. cbn. split; [|split]; [|done|done].
        split; [discriminate | by intros [? _]].
      * cbn [ConfigBackup.world ConfigBackup.issued].
        pose proof (create_snapshot_log Outside device_run uuid4 datetime_now sha256_hex
                      json_configuration json_metadata py_int backup_dir
                      ("pre-restore-" +:+ snapshot_id)
                      ("Automatic backup before restoring " +:+ snapshot_id)
                      ConfigBackup.VYOS w2) as Hcreate.
        destruct (ConfigBackupStore.create_snapshot _ _ _ _ _ _ _ _ _ _ _ _ w2)
          as [safety w3].
        cbn [snd] in Hcreate.
        eexists _, _. split; [reflexivity|]. cbn. split; [|split]; [|done|].
        -- split; [discriminate | by intros [? _]].
        -- by eapply only_bookkeeping_trans.
  - eexists _, _. split; [reflexivity|]. cbn. split; [|split]; [|done|done].
    split; [discriminate | by intros [_ ?]].
Qed.

Example restore_log_on_one_snapshot :
  let w := ConfigBackupStore.mkLogged unit tt [] in
  let run dry_run :=
    ConfigBackupStore.restore_from_snapshot unit StoreLogSpec.one_snapshot_device
      (fun o => ("def", o)) (fun o => (1%Z, o)) (fun _ => "") (fun _ => "") (fun _ _ => "{}")
      StoreLogSpec.abc_meta (fun _ => Some 21%Z) "/b" "abc" dry_run w in
  length (ConfigBackupStore.sent unit (ConfigBackup.world _ (snd (run true)))) = 2 /\
  length (ConfigBackupStore.sent unit (ConfigBackup.world _ (snd (run false)))) = 8 /\
  ConfigBackup.issued _ (snd (run false)) = ["cat /b/snapshots/abc.vyos"].
Proof. by vm_compute. Qed.

(** X25: [import_config] never raises.  A dry run succeeds and
    sends nothing.  A real import always fails: it writes the
    temporary file, takes the safety snapshot, and stops at the await
    of the snapshot object; no line of the configuration is sent, and
    the temporary file is not removed. *)
Theorem import_outcomes {World : Type}
    (run_command : string -> World -> ConfigBackup.CommandResult * World)
    (create_snapshot : string -> string -> World -> ConfigBackup.ConfigSnapshot * World)
    (config : string) (format : ConfigBackup.BackupFormat) (dry_run : bool)
    (uuid stamp : string) (w : World) :
  exists r st,
    ConfigImport.run_import World run_command create_snapshot config format dry_run
      uuid stamp w = (inr r, st) /\
    ConfigImport.import_success r = dry_run /\
    ConfigBackup.issued World st
    = if dry_run then []
      else ["cat << 'EOF' > " +:+ ("/tmp/config_import_" +:+ uuid +:+ "."
                                   +:+ ConfigBackup.format_value format)
            +:+ String newline config +:+ String newline "EOF"].
Proof.
  unfold ConfigImport.run_import, ConfigImport.import_config, ConfigBackup.bind,
    ConfigBackup.lift, ConfigBackup.try_except, ConfigBackup.execute.
  destruct dry_run.
  - eexists _, _. split; [reflexivity|]. by cbn.
  - cbn [ConfigBackup.world ConfigBackup.issued].
    destruct (run_command _ w) as [written w1].
    cbn [ConfigBackup.world ConfigBackup.issued].
    destruct (create_snapshot _ _ w1) as [safety w2].
    eexists _, _. split; [reflexivity|]. by cbn.
Qed.

(** ** The command executor: the retry loop *)

Section ExecutorFacts.
Import VyosCommand ExecutorSpec.
Variable World : Type.
Variable Time : Type.
Variable elapsed : Time -> Time -> Time.
Variable time_time : World -> Time * World.
Variable time_sleep : Z -> World -> World.
Variable run_remote : string -> Z -> World -> (string + Z * string * string) * World.

Abbreviation loop := (execute_loop World Time elapsed time_time time_sleep run_remote).

Lemma after_error_spec retries rc (st : state World) :
  after_error World time_sleep retries rc st
  = ((rc + 1)%Z,
     mkState World
       (if (rc + 1 <=? retries)%Z
        then time_sleep (Z.min (2 ^ (rc + 1)) 10) (world World st) else world World st)
       (trace World st ++
        if (rc + 1 <=? retries)%Z then [Sleep (Z.min (2 ^ (rc + 1)) 10)] else [])).
Proof.
  unfold after_error. destruct (rc + 1 <=? retries)%Z; [done|].
  rewrite app_nil_r. by destruct st.
Qed.

Lemma failed_rounds_next cmd timeout retries rc (rc' : Z) :
  (rc + 1 <= rc')%Z ->
  failed_rounds cmd timeout retries rc (Z.to_nat (rc' - rc))
  = Attempt cmd timeout ::
    (if (rc + 1 <=? retries)%Z then [Sleep (Z.min (2 ^ (rc + 1)) 10)] else [])
    ++ failed_rounds cmd timeout retries (rc + 1) (Z.to_nat (rc' - (rc + 1))).
Proof.
  intros H. replace (Z.to_nat (rc' - rc)) with (S (Z.to_nat (rc' - (rc + 1)))) by lia.
  reflexivity.
Qed.

Lemma execute_loop_spec cmd timeout retries raise_on_error : forall fuel rc last start st,
  (0 <= rc <= retries + 1)%Z ->
  start <> None \/ (rc <= retries)%Z ->
  Z.to_nat (retries + 1 - rc) <= fuel ->
  exists r st',
    loop fuel cmd timeout retries raise_on_error rc last start st = (Some (inr r), st') /\
    (rc <= retry_count Time r <= retries + 1)%Z /\
    (status Time r = ERROR <-> retry_count Time r = (retries + 1)%Z) /\
    (raise_on_error = true -> status Time r <> FAILED) /\
    status Time r <> TIMEOUT /\
    command Time r = cmd /\
    trace World st'
    = trace World st
      ++ failed_rounds cmd timeout retries rc (Z.to_nat (retry_count Time r - rc))
      ++ (if status_eqb (status Time r) ERROR then [] else [Attempt cmd timeout]).
Proof.
  induction fuel as [|fuel IH]; intros rc last start st Hrc Hstart Hfuel.
  - (* no round left: the counter has passed [retries] *)
    assert (rc = retries + 1)%Z as -> by lia.
    destruct Hstart as [Hstart|]; [|lia]. destruct start as [t0|]; [|done].
    cbn [execute_loop]. destruct (Z.leb_spec (retries + 1) retries); [lia|].
    destruct (time_time (world World st)) as [t1 w]. eexists _, _.
    split; [reflexivity|]. cbn. rewrite Z.sub_diag. cbn. rewrite app_nil_r.
    repeat split; try done; lia.
  - cbn [execute_loop]. destruct (Z.leb_spec rc retries) as [Hle|Hgt].
    + destruct (time_time (world World st)) as [t0 w0].
      destruct (run_remote cmd timeout w0) as [[e|[[code out] err]] w1];
        cbn [world trace].
      * rewrite after_error_spec. cbn [world trace].
        edestruct (IH (rc + 1)%Z (Some e) (Some t0)) as
          (r & st' & -> & Hcount & Herr & Hroe & Hto & Hcmd & Htrace);
          [lia | by left | lia |].
        exists r, st'. split; [reflexivity|]. split; [lia|].
        repeat (split; [assumption|]). rewrite Htrace. cbn [trace].
        rewrite (failed_rounds_next cmd timeout retries rc) by lia.
        rewrite <- ?app_assoc. cbn [app]. by rewrite <- ?app_assoc.
      * destruct (time_time w1) as [t1 w2]. cbn [world trace].
        destruct (Z.eqb_spec code 0) as [Hcode|Hcode]; cbn [status_eqb andb].
        -- eexists _, _. split; [reflexivity|]. cbn. rewrite Z.sub_diag. cbn.
           repeat split; try done; try lia.
        -- destruct raise_on_error.
           ++ rewrite after_error_spec. cbn [world trace].
              edestruct (IH (rc + 1)%Z
                           (Some ("Command failed: " +:+ cmd +:+ String newline "Stderr: "
                                  +:+ strip err)) (Some t0)) as
                (r & st' & -> & Hcount & Herr & Hroe & Hto & Hcmd & Htrace);
                [lia | by left | lia |].
              exists r, st'. split; [reflexivity|]. split; [lia|].
              repeat (split; [assumption|]). rewrite Htrace. cbn [trace].
              rewrite (failed_rounds_next cmd timeout retries rc) by lia.
              rewrite <- ?app_assoc. cbn [app]. by rewrite <- ?app_assoc.
           ++ eexists _, _. split; [reflexivity|]. cbn. rewrite Z.sub_diag. cbn.
              repeat split; try done; try lia.
    + assert (rc = retries + 1)%Z as -> by lia.
      destruct Hstart as [Hstart|]; [|lia]. destruct start as [t0|]; [|done].
      destruct (time_time (world World st)) as [t1 w]. eexists _, _.
      split; [reflexivity|]. cbn. rewrite Z.sub_diag. cbn. rewrite app_nil_r.
      repeat split; try done; lia.
Qed.

Lemma failed_rounds_attempts cmd timeout retries : forall k rc,
  length (List.filter (fun e => negb (is_sleep e)) (failed_rounds cmd timeout retries rc k)) = k.
Proof.
  induction k as [|k IH]; intros rc; [done|]. cbn [failed_rounds List.filter is_sleep negb].
  rewrite List.filter_app. destruct (rc + 1 <=? retries)%Z; cbn; by rewrite IH.
Qed.

Lemma failed_rounds_delays cmd timeout retries : forall k rc,
  (0 <= rc)%Z ->
  Forall (fun e => (0 <= delay_of e <= 10)%Z) (failed_rounds cmd timeout retries rc k).
Proof.
  induction k as [|k IH]; intros rc Hrc; [constructor|]. cbn [failed_rounds].
  constructor; [cbn; lia|]. apply Forall_app. split; [|apply IH; lia].
  destruct (rc + 1 <=? retries)%Z; [|constructor].
  constructor; [|constructor]. cbn.
  assert (0 < 2 ^ (rc + 1))%Z by (apply Z.pow_pos_nonneg; lia). lia.
Qed.
End ExecutorFacts.

(** X26: with a number of retries that is not negative, [execute]
    returns a result and raises nothing, also when [raise_on_error] is
    set: the failure of the command is then retried like an error of
    the connection and never returned.  The status is [ERROR] exactly
    when all [retries + 1] rounds failed. *)
Theorem execute_always_returns {World Time : Type}
    (elapsed : Time -> Time -> Time) (time_time : World -> Time * World)
    (time_sleep : Z -> World -> World)
    (run_remote : string -> Z -> World -> (string + Z * string * string) * World)
    (default_timeout max_retries : Z) (cmd : string) (timeout retries : option Z)
    (raise_on_error : bool) (w : World) :
  let allowed := match retries with Some r => r | None => max_retries end in
  (0 <= allowed)%Z ->
  exists r st,
    VyosCommand.execute World Time elapsed time_time time_sleep run_remote
      default_timeout max_retries cmd timeout retries raise_on_error w
    = (Some (inr r), st) /\
    (0 <= VyosCommand.retry_count Time r <= allowed + 1)%Z /\
    (VyosCommand.status Time r = VyosCommand.ERROR <->
     VyosCommand.retry_count Time r = (allowed + 1)%Z) /\
    (raise_on_error = true -> VyosCommand.status Time r <> VyosCommand.FAILED) /\
    VyosCommand.status Time r <> VyosCommand.TIMEOUT /\
    VyosCommand.command Time r = cmd.
Proof.
  intros allowed Hallowed. unfold VyosCommand.execute, VyosCommand.execute_in. fold allowed.
  edestruct (execute_loop_spec World Time elapsed time_time time_sleep run_remote cmd
               (match timeout with
                | Some t => if (t =? 0)%Z then default_timeout else t
                | None => default_timeout
                end) allowed raise_on_error (Z.to_nat (allowed + 1)) 0%Z None None
               (VyosCommand.mkState World w []))
    as (r & st' & Hrun & Hcount & Herr & Hroe & Hto & Hcmd & _); [lia | right; lia | lia |].
  exists r, st'. by rewrite Hrun.
Qed.

Lemma execute_always_returns_witness :
  exists r st,
    VyosCommand.execute unit unit ExecutorSpec.no_elapsed ExecutorSpec.still_clock
      ExecutorSpec.no_sleep ExecutorSpec.failing_device 30 3 "show version" None (Some 2%Z)
      true tt
    = (Some (inr r), st) /\
    VyosCommand.status unit r = VyosCommand.ERROR /\
    VyosCommand.retry_count unit r = 3%Z.
Proof.
  destruct (execute_always_returns ExecutorSpec.no_elapsed ExecutorSpec.still_clock
              ExecutorSpec.no_sleep ExecutorSpec.failing_device 30 3 "show version" None
              (Some 2%Z) true tt) as (r & st & Hrun & _); [simpl; lia|].
  exists r, st. split; [exact Hrun|].
  vm_compute in Hrun. injection Hrun as <- _. split; reflexivity.
Defined.

(** X27: what a call of [execute] does to the outside is fixed by
    the result it returns: one attempt for each failed round, a sleep
    of [min(2 ** n, 10)] seconds after the [n]-th failed round unless
    it was the last one allowed, and one more attempt when the status
    is not [ERROR].  So there are at most [retries + 1] attempts and no
    sleep is longer than ten seconds. *)
Theorem execute_trace {World Time : Type}
    (elapsed : Time -> Time -> Time) (time_time : World -> Time * World)
    (time_sleep : Z -> World -> World)
    (run_remote : string -> Z -> World -> (string + Z * string * string) * World)
    (default_timeout max_retries : Z) (cmd : string) (timeout retries : option Z)
    (raise_on_error : bool) (w : World)
    (r : VyosCommand.CommandResult Time) (st : VyosCommand.state World) :
  let allowed := match retries with Some r => r | None => max_retries end in
  let seconds :=
    match timeout with
    | Some t => if (t =? 0)%Z then default_timeout else t
    | None => default_timeout
    end in
  VyosCommand.execute World Time elapsed time_time time_sleep run_remote
    default_timeout max_retries cmd timeout retries raise_on_error w
  = (Some (inr r), st) ->
  VyosCommand.trace World st
  = ExecutorSpec.failed_rounds cmd seconds allowed 0
      (Z.to_nat (VyosCommand.retry_count Time r))
    ++ (if VyosCommand.status_eqb (VyosCommand.status Time r) VyosCommand.ERROR
        then [] else [VyosCommand.Attempt cmd seconds]) /\
  (Z.of_nat (length (List.filter (fun e => negb (ExecutorSpec.is_sleep e))
                       (VyosCommand.trace World st))) <= allowed + 1)%Z /\
  Forall (fun e => (0 <= ExecutorSpec.delay_of e <= 10)%Z) (VyosCommand.trace World st).
Proof.
  intros allowed seconds Hrun. unfold VyosCommand.execute, VyosCommand.execute_in in Hrun.
  fold allowed seconds in Hrun.
  destruct (Z.leb_spec 0 allowed) as [Hallowed|Hneg].
  - edestruct (execute_loop_spec World Time elapsed time_time time_sleep run_remote cmd
                 seconds allowed raise_on_error (Z.to_nat (allowed + 1)) 0%Z None None
                 (VyosCommand.mkState World w []))
      as (r' & st' & Hrun' & Hcount & Herr & _ & _ & _ & Htrace);
      [lia | right; lia | lia |].
    rewrite Hrun in Hrun'. injection Hrun' as <- <-.
    cbn [VyosCommand.trace app] in Htrace. rewrite Z.sub_0_r in Htrace.
    split; [exact Htrace|]. rewrite Htrace. split.
    + rewrite List.filter_app, length_app, failed_rounds_attempts.
      destruct (VyosCommand.status Time r) eqn:Es; cbn; try lia.
      all: assert (VyosCommand.retry_count Time r <> allowed + 1)%Z
             by (intros E; apply Herr in E; congruence); lia.
    + apply Forall_app. split; [by apply failed_rounds_delays|].
      destruct (VyosCommand.status_eqb _ _); [constructor|].
      constructor; [cbn; lia | constructor].
  - exfalso. replace (Z.to_nat (allowed + 1)) with 0 in Hrun by lia.
    cbn [VyosCommand.execute_loop] in Hrun.
    destruct (Z.leb_spec 0 allowed); [lia|]. discriminate.
Qed.

Lemma execute_trace_witness :
  exists r st,
    VyosCommand.execute unit unit ExecutorSpec.no_elapsed ExecutorSpec.still_clock
      ExecutorSpec.no_sleep ExecutorSpec.unreachable_device 30 3 "show version" (Some 0%Z)
      None false tt
    = (Some (inr r), st) /\
    VyosCommand.trace unit st
    = [VyosCommand.Attempt "show version" 30; VyosCommand.Sleep 2;
       VyosCommand.Attempt "show version" 30; VyosCommand.Sleep 4;
       VyosCommand.Attempt "show version" 30; VyosCommand.Sleep 8;
       VyosCommand.Attempt "show version" 30].
Proof.
  eexists _, _. split; [vm_compute; reflexivity|].
  match goal with
  | |- VyosCommand.trace unit ?s = _ =>
      destruct (execute_trace ExecutorSpec.no_elapsed ExecutorSpec.still_clock
                  ExecutorSpec.no_sleep ExecutorSpec.unreachable_device 30 3 "show version"
                  (Some 0%Z) None false tt
                  (VyosCommand.mkCommandResult unit VyosCommand.ERROR "" "connection refused"
                     (-1) "show version" tt 4) s) as (Htrace & _)
  end; [vm_compute; reflexivity|].
  rewrite Htrace. vm_compute. reflexivity.
Defined.

(** X28: with a negative number of retries the loop of [execute]
    is not entered: nothing is sent to the device, and the code after
    the loop raises [UnboundLocalError] on [start_time]. *)
Theorem execute_negative_retries {World Time : Type}
    (elapsed : Time -> Time -> Time) (time_time : World -> Time * World)
    (time_sleep : Z -> World -> World)
    (run_remote : string -> Z -> World -> (string + Z * string * string) * World)
    (default_timeout max_retries : Z) (cmd : string) (timeout retries : option Z)
    (raise_on_error : bool) (w : World) :
  (match retries with Some r => r | None => max_retries end < 0)%Z ->
  VyosCommand.execute World Time elapsed time_time time_sleep run_remote
    default_timeout max_retries cmd timeout retries raise_on_error w
  = (Some (inl (VyosCommand.UnboundLocalError "start_time")), VyosCommand.mkState World w []).
Proof.
  intros Hneg. unfold VyosCommand.execute, VyosCommand.execute_in.
  set (allowed := match retries with Some r => r | None => max_retries end) in *.
  replace (Z.to_nat (allowed + 1)) with 0 by lia. cbn [VyosCommand.execute_loop].
  by destruct (Z.leb_spec 0 allowed); [lia|].
Qed.

Lemma execute_negative_retries_witness :
  VyosCommand.execute unit unit ExecutorSpec.no_elapsed ExecutorSpec.still_clock
    ExecutorSpec.no_sleep ExecutorSpec.failing_device 30 3 "show version" None (Some (-1)%Z)
    false tt
  = (Some (inl (VyosCommand.UnboundLocalError "start_time")), VyosCommand.mkState unit tt []).
Proof.
  apply (execute_negative_retries ExecutorSpec.no_elapsed ExecutorSpec.still_clock
           ExecutorSpec.no_sleep ExecutorSpec.failing_device 30 3 "show version" None
           (Some (-1)%Z) false tt). simpl. lia.
Defined.

(** ** The exports of the backup service *)

Section FormatFacts.
Import ConfigFormat FormatSpec.

Lemma one_line_append a b : one_line (a +:+ b) = one_line a && one_line b.
Proof.
  induction a as [|c a IH]; [done|]. rewrite append_cons. simpl.
  rewrite IH. by rewrite andb_assoc.
Qed.

Lemma split_on_one_line s : Forall (fun l => one_line l = true) (split_on newline s).
Proof.
  induction s as [|c s IH]; simpl; [by repeat constructor|].
  destruct (Ascii.eqb c newline) eqn:E; [by constructor|].
  destruct (split_on newline s) as [|w ws]; [by repeat constructor; simpl; rewrite E|].
  apply Forall_cons in IH as [Hw Hws]. constructor; [|exact Hws].
  simpl. by rewrite E, Hw.
Qed.

Lemma split_on_line p : one_line p = true -> split_on newline p = [p].
Proof.
  induction p as [|c p IH]; [done|]. simpl. intros [Hc Hp]%andb_prop.
  apply negb_true_iff in Hc. rewrite Hc. by rewrite IH.
Qed.

Lemma split_on_first_line p r :
  one_line p = true ->
  split_on newline (p +:+ String newline r) = p :: split_on newline r.
Proof.
  induction p as [|c p IH]; intros Hp.
  - rewrite append_nil_l. reflexivity.
  - rewrite append_cons. simpl in *. apply andb_prop in Hp as [Hc Hp].
    apply negb_true_iff in Hc. rewrite Hc. by rewrite IH.
Qed.

(** Splitting undoes joining, for parts without a newline. *)
Lemma split_on_join parts :
  parts <> [] -> Forall (fun l => one_line l = true) parts ->
  split_on newline (join (String newline "") parts) = parts.
Proof.
  induction parts as [|p rest IH]; [done|]. intros _ Hall.
  apply Forall_cons in Hall as [Hp Hrest]. cbn [join]. destruct rest as [|q rest].
  - by apply split_on_line.
  - change (String newline "" +:+ join (String newline "") (q :: rest))
      with (String newline (join (String newline "") (q :: rest))).
    rewrite split_on_first_line by done. by rewrite IH.
Qed.

Lemma collect_commands (item : string -> string) lines : forall start,
  fold_left (fun result line => if is_command line then result ++ [item (strip line)]
                                else result) lines start
  = start ++ map item (map strip (List.filter is_command lines)).
Proof.
  induction lines as [|l lines IH]; intros start; simpl; [by rewrite app_nil_r|].
  rewrite IH. destruct (is_command l); [|done]. simpl. by rewrite <- app_assoc.
Qed.

Lemma commands_one_line config :
  Forall (fun l => one_line l = true) (commands_of config).
Proof.
  unfold commands_of. pose proof (split_on_one_line config) as H.
  induction H as [|l ls Hl _ IH]; simpl; [constructor|].
  destruct (is_command l); [|exact IH]. constructor; [by apply one_line_strip | exact IH].
Qed.
End FormatFacts.

(** X29: the YAML and the XML export carry the same commands, one
    on each line and in the order of the text: its lines without their
    margins, blank lines and comments left out, between the markup of
    the format. *)
Theorem exports_list_the_commands (config : string) :
  split_on newline (ConfigFormat._config_to_yaml config)
  = "vyos-configuration:"
    :: map (fun l => "  - " +:+ l) (FormatSpec.commands_of config) /\
  split_on newline (ConfigFormat._config_to_xml config)
  = "<vyos-configuration>"
    :: map (fun l => "  <command>" +:+ l +:+ "</command>") (FormatSpec.commands_of config)
    ++ ["</vyos-configuration>"].
Proof.
  unfold ConfigFormat._config_to_yaml, ConfigFormat._config_to_xml. cbv zeta.
  rewrite (collect_commands (fun l => "  - " +:+ l)).
  rewrite (collect_commands (fun l => "  <command>" +:+ l +:+ "</command>")).
  fold (FormatSpec.commands_of config).
  pose proof (commands_one_line config) as Hone. split.
  - apply split_on_join; [done|]. constructor; [reflexivity|].
    apply Forall_map. eapply Forall_impl; [exact Hone|].
    intros l Hl. cbn beta. by rewrite one_line_append, Hl.
  - rewrite <- app_assoc. apply split_on_join; [done|]. constructor; [reflexivity|].
    apply Forall_app. split; [|by repeat constructor].
    apply Forall_map. eapply Forall_impl; [exact Hone|].
    intros l Hl. cbn beta. by rewrite !one_line_append, Hl.
Qed.

(** ** The command executor: a list of configuration commands *)

Section ConfigureFacts.
Import VyosCommand ExecutorSpec.
Variable World : Type.
Variable Time : Type.
Variable elapsed : Time -> Time -> Time.
Variable time_time : World -> Time * World.
Variable time_sleep : Z -> World -> World.
Variable run_remote : string -> Z -> World -> (string + Z * string * string) * World.
Variable default_timeout max_retries : Z.
Hypothesis retries_allowed : (0 <= max_retries)%Z.

Abbreviation run_in :=
  (execute_in World Time elapsed time_time time_sleep run_remote default_timeout max_retries).

Lemma failed_rounds_events cmd timeout retries : forall k rc,
  Forall (fun e => e = Attempt cmd timeout \/ is_sleep e = true)
         (failed_rounds cmd timeout retries rc k).
Proof.
  induction k as [|k IH]; intros rc; [constructor|]. cbn [failed_rounds].
  constructor; [by left|]. apply Forall_app. split; [|apply IH].
  destruct (rc + 1 <=? retries)%Z; [|constructor].
  constructor; [by right | constructor].
Qed.

(** One call with the default arguments: it returns, it attempts
    its command at least once, and attempts no other. *)
Lemma execute_in_spec cmd (st : state World) :
  exists r st' added,
    run_in cmd None None false st = (Some (inr r), st') /\
    trace World st' = trace World st ++ added /\
    In (Attempt cmd default_timeout) added /\
    Forall (fun e => e = Attempt cmd default_timeout \/ is_sleep e = true) added.
Proof.
  unfold execute_in.
  edestruct (execute_loop_spec World Time elapsed time_time time_sleep run_remote cmd
               default_timeout max_retries false (Z.to_nat (max_retries + 1)) 0%Z None None st)
    as (r & st' & Hrun & Hcount & Herr & _ & _ & _ & Htrace); [lia | right; lia | lia |].
  exists r, st'. eexists. split; [exact Hrun|]. split; [exact Htrace|].
  rewrite Z.sub_0_r. split.
  - destruct (Z.to_nat (retry_count Time r)) as [|k] eqn:Ek.
    + assert (status Time r <> ERROR) by (intros E; apply Herr in E; lia).
      apply in_or_app. right. destruct (status Time r); try done; by left.
    + apply in_or_app. left. by left.
  - apply Forall_app. split; [apply failed_rounds_events|].
    destruct (status_eqb _ _); [constructor|].
    constructor; [by left | constructor].
Qed.

Lemma configure_loop_spec : forall commands last (st : state World),
  exists last' st' added,
    configure_loop World Time elapsed time_time time_sleep run_remote default_timeout
      max_retries commands last st = (Some (inr last'), st') /\
    (last' = None <-> commands = [] /\ last = None) /\
    (commands = [] -> added = []) /\
    trace World st' = trace World st ++ added /\
    (forall cmd, In cmd commands -> In (Attempt (wrapped cmd) default_timeout) added) /\
    Forall (fun e => (exists cmd, In cmd commands /\ e = Attempt (wrapped cmd) default_timeout)
                     \/ is_sleep e = true) added.
Proof.
  induction commands as [|cmd rest IH]; intros last st.
  - exists last, st, []. cbn [configure_loop]. rewrite app_nil_r.
    repeat split; try done; try tauto.
  - cbn [configure_loop].
    destruct (execute_in_spec (wrapped cmd) st) as (r & st1 & added1 & -> & Ht1 & Hin1 & Hall1).
    destruct (IH (Some r) st1) as (last' & st' & added & -> & Hnone & _ & Ht & Hin & Hall).
    exists last', st', (added1 ++ added). split; [reflexivity|]. split; [|split; [done|split]].
    + split; [|by intros [? _]]. intros E. apply Hnone in E as [_ ?]. done.
    + by rewrite Ht, Ht1, app_assoc.
    + split.
      * intros c [<-|Hc]; apply in_or_app; [by left | right; by apply Hin].
      * apply Forall_app. split.
        -- eapply Forall_impl; [exact Hall1|]. intros e [->|He]; [left|by right].
           exists cmd. split; [by left | done].
        -- eapply Forall_impl; [exact Hall|]. intros e [(c & Hc & ->)|He]; [left|by right].
           exists c. split; [by right | done].
Qed.

Lemma append_inv_head (a x y : string) : a +:+ x = a +:+ y -> x = y.
Proof.
  induction a as [|c a IH]; [by rewrite !append_nil_l|].
  rewrite !append_cons. intros H. injection H as H. by apply IH.
Qed.

(** No command of the list is sent as the commit. *)
Lemma wrapped_not_commit cmd : wrapped cmd <> wrapper +:+ " commit".
Proof.
  unfold wrapped. destruct (startswith cmd "set " || startswith cmd "delete ") eqn:E;
    intros H; apply append_inv_head in H.
  - rewrite !append_cons, !append_nil_l in H. injection H as ->. discriminate.
  - rewrite !append_cons, !append_nil_l in H. discriminate.
Qed.
End ConfigureFacts.

(** X30: with a number of retries that is not negative, [configure]
    returns a result.  Every command of the list is sent through the
    wrapper, also after one of them has failed; the commit is sent
    exactly when the last command succeeded; and an empty list sends
    nothing and gives the error result. *)
Theorem configure_sends_all {World Time : Type}
    (elapsed : Time -> Time -> Time) (time_time : World -> Time * World)
    (time_sleep : Z -> World -> World)
    (run_remote : string -> Z -> World -> (string + Z * string * string) * World)
    (time_zero : Time) (default_timeout max_retries : Z)
    (commands : string + list string) (w : World) :
  let list := match commands with inl c => [c] | inr cs => cs end in
  (0 <= max_retries)%Z ->
  exists r st,
    VyosCommand.configure World Time elapsed time_time time_sleep run_remote time_zero
      default_timeout max_retries commands w = (Some (inr r), st) /\
    (forall cmd, In cmd list ->
       In (VyosCommand.Attempt (VyosCommand.wrapped cmd) default_timeout)
          (VyosCommand.trace World st)) /\
    (In (VyosCommand.Attempt (VyosCommand.wrapper +:+ " commit") default_timeout)
        (VyosCommand.trace World st)
     <-> VyosCommand.status Time r = VyosCommand.SUCCESS) /\
    (list = [] ->
     VyosCommand.trace World st = [] /\
     VyosCommand.status Time r = VyosCommand.ERROR /\
     VyosCommand.stderr Time r = "No commands executed").
Proof.
  intros list Hretries. unfold VyosCommand.configure. fold list.
  destruct (configure_loop_spec World Time elapsed time_time time_sleep run_remote
              default_timeout max_retries Hretries list None (VyosCommand.mkState World w []))
    as (last & st1 & added & -> & Hnone & Hempty & Ht & Hin & Hall).
  cbn [VyosCommand.trace app] in Ht.
  assert (Hno_commit : ~ In (VyosCommand.Attempt (VyosCommand.wrapper +:+ " commit")
                               default_timeout) added).
  { intros Hc. rewrite Forall_forall in Hall.
    destruct (Hall _ (proj2 (list_elem_of_In _ _) Hc)) as [(c & _ & E)|E]; [|done].
    injection E as E. symmetry in E. by apply wrapped_not_commit in E. }
  destruct last as [r|].
  - assert (Hlist : list <> []).
    { intros E. destruct Hnone as [_ Hnone]. by specialize (Hnone (conj E eq_refl)). }
    destruct (VyosCommand.status_eqb (VyosCommand.status Time r) VyosCommand.SUCCESS) eqn:Es.
    + destruct (execute_in_spec World Time elapsed time_time time_sleep run_remote
                  default_timeout max_retries Hretries (VyosCommand.wrapper +:+ " commit") st1)
        as (rc & st2 & added2 & -> & Ht2 & Hin2 & _).
      exists r, st2. split; [reflexivity|]. rewrite Ht2, Ht. split; [|split].
      * intros cmd Hcmd. apply in_or_app. left. by apply Hin.
      * split; [|intros _; apply in_or_app; by right].
        intros _. by destruct (VyosCommand.status Time r).
      * done.
    + exists r, st1. split; [reflexivity|]. rewrite Ht. split; [|split].
      * exact Hin.
      * split; [done|]. intros E. rewrite E in Es. discriminate.
      * done.
  - destruct Hnone as [Hnone _]. destruct (Hnone eq_refl) as [Hlist _].
    eexists _, st1. split; [reflexivity|]. rewrite Ht, (Hempty Hlist). cbn.
    split; [|split].
    + intros cmd Hcmd. rewrite Hlist in Hcmd. destruct Hcmd.
    + split; [intros [] | discriminate].
    + done.
Qed.

Lemma configure_sends_all_witness :
  exists r st,
    VyosCommand.configure unit unit ExecutorSpec.no_elapsed ExecutorSpec.still_clock
      ExecutorSpec.no_sleep ExecutorSpec.failing_device tt 30 1
      (inr ["set system host-name vyos"; "service ssh"]) tt = (Some (inr r), st) /\
    In (VyosCommand.Attempt "/opt/vyatta/sbin/vyatta-cfg-cmd-wrapper set service ssh" 30)
       (VyosCommand.trace unit st).
Proof.
  destruct (configure_sends_all ExecutorSpec.no_elapsed ExecutorSpec.still_clock
              ExecutorSpec.no_sleep ExecutorSpec.failing_device tt 30 1
              (inr ["set system host-name vyos"; "service ssh"]) tt)
    as (r & st & Hrun & Hin & _); [lia|].
  exists r, st. split; [exact Hrun|].
  apply (Hin "service ssh"). right. by left.
Defined.
